(** * TuneFree: Piped failover client, aggregator and playback engine

    A shallow embedding of the resolution and playback layer of the
    TuneFree front-end (src/services/piped.ts, the aggregator in
    services/api and the PlayerProvider of contexts/PlayerContext), with the
    properties its specification states about them, followed by the payload
    handling of the two source clients, the playlist lookup, the remaining
    player controls and the search history, with properties read off the
    code.

    Conventions.  JavaScript values that the code treats as optional
    ([undefined], [null]) are [option]s; [Date.now()] and the answers of the
    network are arguments of the functions that consult them; module-level
    mutable tables are fields of a record that the functions thread. *)

From stdpp Require Import gmap strings list pretty.
From Stdlib Require Import Ascii ZArith QArith Qround.

Open Scope Z_scope.
Open Scope string_scope.

(** ** JavaScript string helpers *)

(** [s.startsWith(p)]. *)
Definition startsWith (p s : string) : bool := String.prefix p s.

(** [s.includes(sub)]: [sub] occurs somewhere in [s]. *)
Fixpoint includes (sub s : string) : bool :=
  match s with
  | EmptyString => String.prefix sub EmptyString
  | String _ s' => String.prefix sub s || includes sub s'
  end.

(** [s.trim()] strips the white space and the line terminators of
    ECMAScript from both ends.  Strings are held as their UTF-8 bytes, so
    a character to strip is one byte (tab, line feed, vertical tab, form
    feed, carriage return, space), two (U+00A0) or three (U+1680, U+2000
    to U+200A, U+2028, U+2029, U+202F, U+205F, U+3000, U+FEFF). *)
Definition is_space (c : ascii) : bool :=
  let n := nat_of_ascii c in
  (bool_decide (9 <= n)%nat && bool_decide (n <= 13)%nat) || bool_decide (n = 32%nat).

(** The two bytes of U+00A0. *)
Definition is_space2 (a b : ascii) : bool :=
  bool_decide (nat_of_ascii a = 194%nat) && bool_decide (nat_of_ascii b = 160%nat).

(** The three bytes of one of the other spaces. *)
Definition is_space3 (a b c : ascii) : bool :=
  let x := nat_of_ascii a in
  let y := nat_of_ascii b in
  let z := nat_of_ascii c in
  (* U+1680 *)
  (bool_decide (x = 225%nat) && bool_decide (y = 154%nat) && bool_decide (z = 128%nat))
  (* U+2000 to U+200A, U+2028, U+2029, U+202F *)
  || (bool_decide (x = 226%nat) && bool_decide (y = 128%nat)
      && ((bool_decide (128 <= z)%nat && bool_decide (z <= 138)%nat)
          || bool_decide (z = 168%nat) || bool_decide (z = 169%nat)
          || bool_decide (z = 175%nat)))
  (* U+205F *)
  || (bool_decide (x = 226%nat) && bool_decide (y = 129%nat) && bool_decide (z = 159%nat))
  (* U+3000 *)
  || (bool_decide (x = 227%nat) && bool_decide (y = 128%nat) && bool_decide (z = 128%nat))
  (* U+FEFF *)
  || (bool_decide (x = 239%nat) && bool_decide (y = 187%nat) && bool_decide (z = 191%nat)).

Fixpoint trimStart (s : string) : string :=
  match s with
  | String a s1 =>
      if is_space a then trimStart s1
      else
        match s1 with
        | String b s2 =>
            if is_space2 a b then trimStart s2
            else
              match s2 with
              | String c s3 => if is_space3 a b c then trimStart s3 else s
              | EmptyString => s
              end
        | EmptyString => s
        end
  | EmptyString => EmptyString
  end.

(** [trimStart] on the reversed string, where the bytes of a character
    come last byte first. *)
Fixpoint trimStart_reversed (s : string) : string :=
  match s with
  | String a s1 =>
      if is_space a then trimStart_reversed s1
      else
        match s1 with
        | String b s2 =>
            if is_space2 b a then trimStart_reversed s2
            else
              match s2 with
              | String c s3 =>
                  if is_space3 c b a then trimStart_reversed s3 else s
              | EmptyString => s
              end
        | EmptyString => s
        end
  | EmptyString => EmptyString
  end.

Definition trimEnd (s : string) : string :=
  String.rev (trimStart_reversed (String.rev s)).

Definition trim (s : string) : string := trimEnd (trimStart s).

(** U+3000 and U+00A0 as the bytes that encode them. *)
Definition ideographic_space : string :=
  String "227"%char (String "128"%char (String "128"%char EmptyString)).

Definition no_break_space : string :=
  String "194"%char (String "160"%char EmptyString).

(** [parts.join(sep)]. *)
Fixpoint join (sep : string) (parts : list string) : string :=
  match parts with
  | [] => ""
  | [p] => p
  | p :: rest => p +:+ sep +:+ join sep rest
  end.

(** ** Values shared by the clients and the player *)

(** A song identifier is typed [string | number] in the signatures that take
    one; the numbers that occur are integers. *)
Inductive SongId :=
| IdString (s : string)
| IdNumber (n : Z).

Global Instance SongId_eq_dec : EqDecision SongId.
Proof. solve_decision. Defined.

(** [String(id)]. *)
Definition String_id (i : SongId) : string :=
  match i with
  | IdString s => s
  | IdNumber n => pretty n
  end.

(** JavaScript truthiness of an identifier: [!id] holds for [""] and [0]. *)
Definition id_truthy (i : SongId) : bool :=
  match i with
  | IdString s => negb (String.eqb s "")
  | IdNumber n => negb (Z.eqb n 0)
  end.

(** The canonical track record.  [url] is absent until a play resolves it;
    [isValidId] is absent on the records the Piped client builds. *)
Module Track.
Record Song := {
  id : SongId;
  name : string;
  artist : string;
  album : string;
  pic : string;
  source : string;
  duration : Z;
  url : option string;
  isValidId : option bool
}.
End Track.
Export Track.

Global Instance Song_eq_dec : EqDecision Song.
Proof. solve_decision. Defined.

(** ** Piped client: instance health registry and failover routing
       (src/services/piped.ts) *)

Module Piped.

(** What [pipedFetch] reads of a [Response]: the status code, the
    [content-type] header ([None] when the header is absent) and the body. *)
Record Response := {
  status : Z;
  content_type : option string;
  body : string
}.

(** [await fetch(proxyUrl, ...)] either yields a response or throws (network
    error, or the abort fired by the 8 second timer). *)
Inductive FetchOutcome :=
| Answered (r : Response)
| Threw.

(** The module-level state: the instance list (replaceable at run time by
    [updateInstances]), the rotation cursor and the broken table, a JS object
    used as a map from instance URL to the time it was marked.  Instance
    URLs are not names of properties that every object inherits, so a lookup
    finds what was stored and nothing else. *)
Record Registry := {
  PIPED_INSTANCES : list string;
  currentInstanceIndex : nat;
  BROKEN_INSTANCES : gmap string Z
}.

Definition BROKEN_TIMEOUT : Z := 1000 * 60 * 5.

(** The predicate both [pipedFetch] and [isAvailable] filter with:
    [t === undefined || now - t > BROKEN_TIMEOUT]. *)
Definition healthy (broken : gmap string Z) (now : Z) (inst : string) : bool :=
  match broken !! inst with
  | None => true
  | Some t => bool_decide (BROKEN_TIMEOUT < now - t)
  end.

Definition available (reg : Registry) (now : Z) : list string :=
  List.filter (healthy (BROKEN_INSTANCES reg) now) (PIPED_INSTANCES reg).

Definition isAvailable (reg : Registry) (now : Z) : bool :=
  existsb (healthy (BROKEN_INSTANCES reg) now) (PIPED_INSTANCES reg).

(** [Array.prototype.indexOf]; [None] stands for [-1]. *)
Fixpoint indexOf (l : list string) (x : string) : option nat :=
  match l with
  | [] => None
  | y :: l' => if decide (y = x) then Some 0%nat else S <$> indexOf l' x
  end.

(** The start position in the healthy subset.  For an empty instance list
    the source computes [PIPED_INSTANCES[NaN]], which is [undefined] and is
    not found by [indexOf]; here the lookup in the empty list fails just the
    same. *)
Definition startIndex (reg : Registry) (avail : list string) : nat :=
  let nowStart := (currentInstanceIndex reg mod length (PIPED_INSTANCES reg))%nat in
  match PIPED_INSTANCES reg !! nowStart with
  | Some orig =>
      match indexOf avail orig with
      | Some idxInAvailable => idxInAvailable
      | None => 0%nat
      end
  | None => 0%nat
  end.

(** [response.ok]. *)
Definition ok (r : Response) : bool :=
  bool_decide (200 <= status r) && bool_decide (status r <= 299).

Definition is_redirect (r : Response) : bool :=
  bool_decide (300 <= status r) && bool_decide (status r < 400).

(** [(response.headers.get('content-type') || '').includes('application/json')]. *)
Definition is_json (r : Response) : bool :=
  includes "application/json" (default "" (content_type r)).

(** The outcome of one loop iteration. *)
Inductive Verdict :=
| Accept (r : Response)
| Reject.

(** The checks of the loop body, in the order of the source: redirect,
    content type, [response.ok]; a thrown [fetch] lands in the [catch]. *)
Definition judge (o : FetchOutcome) : Verdict :=
  match o with
  | Threw => Reject
  | Answered r =>
      if is_redirect r then Reject
      else if negb (is_json r) then Reject
      else if ok r then Accept r
      else Reject
  end.

(** What a call of [pipedFetch] leaves behind: its result, the registry, and
    the URLs it requested through the proxy, oldest first.  The call is
    followed on its own: no other call and no [updateInstances] touches the
    registry while it waits for the network. *)
Record Fetched := {
  result : option Response;
  registry : Registry;
  requests : list string
}.

Section Fetch.
(** The network during one call: the answer to the [i]-th iteration's
    request of a URL. *)
Variable net : nat -> string -> FetchOutcome.
Variable endpoint : string.
Variable now : Z.

(** The [for (let i = 0; i < len; i++)] loop, [remaining = len - i].  Every
    rejected instance is written into the broken table with [now], the
    time read when [pipedFetch] was entered. *)
Fixpoint attempt (instances avail : list string) (start : nat)
    (remaining i : nat) (cursor : nat) (broken : gmap string Z)
    (log : list string) : Fetched :=
  match remaining with
  | O =>
      {| result := None;
         registry := {| PIPED_INSTANCES := instances;
                        currentInstanceIndex := ((start + 1) mod length avail)%nat;
                        BROKEN_INSTANCES := broken |};
         requests := log |}
  | S remaining' =>
      let idx := ((start + i) mod length avail)%nat in
      match avail !! idx with
      | None =>
          (* not reached: idx < avail.length *)
          {| result := None;
             registry := {| PIPED_INSTANCES := instances;
                            currentInstanceIndex := cursor;
                            BROKEN_INSTANCES := broken |};
             requests := log |}
      | Some instance =>
          let url := instance +:+ endpoint in
          match judge (net i url) with
          | Accept r =>
              let cursor' :=
                match indexOf instances instance with
                | Some origIdx => ((origIdx + 1) mod length instances)%nat
                | None => cursor
                end in
              {| result := Some r;
                 registry := {| PIPED_INSTANCES := instances;
                                currentInstanceIndex := cursor';
                                BROKEN_INSTANCES := broken |};
                 requests := log ++ [url] |}
          | Reject =>
              attempt instances avail start remaining' (S i) cursor
                      (<[instance := now]> broken) (log ++ [url])
          end
      end
  end.

Definition pipedFetch (reg : Registry) : Fetched :=
  let avail := available reg now in
  let start := startIndex reg avail in
  match avail with
  | [] => {| result := None; registry := reg; requests := [] |}
  | _ :: _ =>
      attempt (PIPED_INSTANCES reg) avail start (length avail) 0
              (currentInstanceIndex reg) (BROKEN_INSTANCES reg) []
  end.
End Fetch.

(** The order in which one call visits the healthy subset: position
    [(start + i) mod len] at iteration [i]. *)
Definition rotation (reg : Registry) (now : Z) : list string :=
  let avail := available reg now in
  rotate (startIndex reg avail) avail.

(** A response that [pipedFetch] may hand to its caller. *)
Definition acceptable (r : Response) : Prop :=
  200 <= status r <= 299 /\ is_json r = true.

Definition answers_well (o : FetchOutcome) : Prop :=
  exists r, o = Answered r /\ acceptable r.

(** *** A pool used in the examples *)

Definition moomoo : string := "https://pipedapi.moomoo.me".
Definition api_moomoo : string := "https://api.piped.moomoo.me".
Definition hypercrab : string := "https://piped-api.hypercrab.xyz".

(** The shipped list with the cursor on the second instance and the first
    one marked broken at time [1000]. *)
Definition pool : Registry :=
  {| PIPED_INSTANCES := [moomoo; api_moomoo; hypercrab];
     currentInstanceIndex := 1;
     BROKEN_INSTANCES := {[ moomoo := 1000 ]} |}.

(** The same list with every instance marked. *)
Definition dead_pool : Registry :=
  {| PIPED_INSTANCES := [moomoo; api_moomoo; hypercrab];
     currentInstanceIndex := 1;
     BROKEN_INSTANCES := {[ moomoo := 1000; api_moomoo := 2000; hypercrab := 3000 ]} |}.

Definition bad_gateway : Response :=
  {| status := 502; content_type := Some "text/html"; body := "<html>" |}.

Definition stream_json : Response :=
  {| status := 200; content_type := Some "application/json; charset=utf-8";
     body := "{}" |}.

(** A network on which the second instance serves an error page and the
    third one answers the API call. *)
Definition flaky (i : nat) (url : string) : FetchOutcome :=
  if String.eqb url (api_moomoo +:+ "/streams/abc") then Answered bad_gateway
  else if String.eqb url (hypercrab +:+ "/streams/abc") then Answered stream_json
  else Threw.

(** A network on which no instance can be reached. *)
Definition down (i : nat) (url : string) : FetchOutcome := Threw.

End Piped.

(** ** Aggregator and normalizer (services/api) *)

Module Api.

(** *** Untyped payloads of the legacy backend *)

#[local] Set Warnings "-register-all".

(** Parsed JSON as the legacy path probes it.  Numbers are the integers the
    payloads carry; an object lists its properties in order. *)
Inductive Json :=
| JNull
| JBool (b : bool)
| JNum (n : Z)
| JStr (s : string)
| JArr (items : list Json)
| JObj (fields : list (string * Json)).

(** JavaScript truthiness; [undefined] is [None]. *)
Definition truthy (v : option Json) : bool :=
  match v with
  | None | Some JNull => false
  | Some (JBool b) => b
  | Some (JNum n) => negb (Z.eqb n 0)
  | Some (JStr s) => negb (String.eqb s "")
  | Some (JArr _) | Some (JObj _) => true
  end.

Fixpoint assoc (key : string) (fields : list (string * Json)) : option Json :=
  match fields with
  | [] => None
  | (k, v) :: rest => if String.eqb k key then Some v else assoc key rest
  end.

(** [v?.[key]] for the property names the code reads (none of them is a
    built-in property of arrays or strings). *)
Definition get (key : string) (v : option Json) : option Json :=
  match v with
  | Some (JObj fields) => assoc key fields
  | _ => None
  end.

(** [a || b]. *)
Definition or_else (a b : option Json) : option Json :=
  if truthy a then a else b.

Definition isArray (v : option Json) : option (list Json) :=
  match v with
  | Some (JArr items) => Some items
  | _ => None
  end.

(** [String(v)]; an array prints its elements separated by commas, with
    [null] printed as the empty string. *)
Fixpoint js_String (v : Json) : string :=
  match v with
  | JNull => "null"
  | JBool true => "true"
  | JBool false => "false"
  | JNum n => pretty n
  | JStr s => s
  | JArr items =>
      join "," (map (fun x => match x with JNull => "" | _ => js_String x end) items)
  | JObj _ => "[object Object]"
  end.

Definition String_opt (v : option Json) : string :=
  match v with
  | None => "undefined"
  | Some j => js_String j
  end.

(** [fixUrl]: only a non-empty string survives; it is trimmed and forced to
    [https]. *)
Definition fixUrl (v : option Json) : string :=
  match v with
  | Some (JStr url) =>
      if String.eqb url "" then ""
      else
        let fixed := trim url in
        let fixed := if startsWith "//" fixed then "https:" +:+ fixed else fixed in
        if startsWith "http://" fixed
        then "https://" +:+ String.substring 7 (String.length fixed - 7) fixed
        else fixed
  | _ => ""
  end.

(** The value of the first of [keys] that [item] holds with a truthy value. *)
Fixpoint first_truthy (keys : list string) (item : option Json) : option Json :=
  match keys with
  | [] => None
  | k :: rest =>
      if truthy (get k item) then get k item else first_truthy rest item
  end.

Definition findId (item : option Json) (platform : string) : option string :=
  if negb (truthy item) then None
  else
    match
      (if String.eqb platform "qq"
       then first_truthy ["songmid"; "mid"; "id"] item else None)
    with
    | Some v => Some (js_String v)
    | None =>
        match
          (if String.eqb platform "kuwo"
           then first_truthy ["rid"; "musicrid"] item else None)
        with
        | Some v => Some (js_String v)
        | None => js_String <$> first_truthy ["id"; "ID"] item
        end
    end.

(** The first of [keys] that [item] holds as a non-empty string. *)
Fixpoint first_string (keys : list string) (item : option Json) : string :=
  match keys with
  | [] => ""
  | k :: rest =>
      match get k item with
      | Some (JStr s) => if String.eqb s "" then first_string rest item else s
      | _ => first_string rest item
      end
  end.

Definition findImage (item : option Json) : string :=
  if negb (truthy item) then ""
  else first_string ["picUrl"; "coverImgUrl"; "pic"; "thumbnail";
                     "img"; "cover"; "imgUrl"; "album_pic"] item.

Definition priorityKeys : list string :=
  ["tracks"; "songs"; "list"; "songlist"; "data"; "result"; "results"].

(** The first of [keys] under which [v] holds an array. *)
Fixpoint first_array (keys : list string) (v : option Json) : option (list Json) :=
  match keys with
  | [] => None
  | k :: rest =>
      match isArray (get k v) with
      | Some items => Some items
      | None => first_array rest v
      end
  end.

Definition extractList (data : option Json) : list Json :=
  if negb (truthy data) then []
  else
    match isArray data with
    | Some items => items
    | None =>
        match first_array priorityKeys data with
        | Some items => items
        | None =>
            let inner :=
              if truthy (get "data" data)
              then match isArray (get "data" data) with
                   | Some items => Some items
                   | None => first_array priorityKeys (get "data" data)
                   end
              else None in
            match inner with
            | Some items => items
            | None =>
                if truthy (get "id" data) && truthy (get "name" data)
                then match data with Some d => [d] | None => [] end
                else []
            end
        end
    end.

(** *** The record [normalizeSongs] builds *)

(** [{...actualItem, source, id, name, artist, album, pic, isValidId}]: the
    raw item that is spread, and the properties written over it. *)
Record Normalized := {
  n_raw : option Json;
  n_source : string;
  n_id : string;
  n_name : string;
  n_artist : string;
  n_album : string;
  n_pic : string;
  n_isValidId : bool
}.

(** [arr.map(a => a.name).join('/')]; reading [name] off a [null] element
    throws ([None]). *)
Fixpoint names_joined (arr : list Json) : option (list string) :=
  match arr with
  | [] => Some []
  | JNull :: _ => None
  | a :: rest =>
      let shown := match get "name" (Some a) with
                   | None | Some JNull => ""
                   | Some v => js_String v
                   end in
      cons shown <$> names_joined rest
  end.

(** The [artist] variable after its fallbacks; the outer [None] is a throw. *)
Definition find_artist (actualItem : option Json) : option (option Json) :=
  let artist := get "artist" actualItem in
  if truthy artist then Some artist
  else
    match isArray (get "ar" actualItem) with
    | Some ar => (fun l => Some (JStr (join "/" l))) <$> names_joined ar
    | None =>
        match isArray (get "artists" actualItem) with
        | Some artists => (fun l => Some (JStr (join "/" l))) <$> names_joined artists
        | None =>
            if truthy (get "uploaderName" actualItem)
            then Some (get "uploaderName" actualItem)
            else Some artist
        end
    end.

Definition find_album (actualItem : option Json) : option Json :=
  let album := get "album" actualItem in
  match album with
  | Some (JObj _) => if truthy (get "name" album) then get "name" album else album
  | _ => album
  end.

(** What the callback of [list.map] returns for one item. *)
Inductive Mapped :=
| Dropped                      (* [null], removed by [filter(Boolean)] *)
| Built (n : Normalized)
| Crashed.                     (* a [TypeError] escapes [normalizeSongs] *)

(** [suffix] is [Math.random().toString(36).slice(2)] as drawn for this
    item. *)
Definition normalizeItem (platform : string) (suffix : string) (item : Json) : Mapped :=
  if negb (truthy (Some item)) then Dropped
  else
    let actualItem :=
      if truthy (get "data" (Some item)) then get "data" (Some item) else Some item in
    let id := findId actualItem platform in
    match find_artist actualItem with
    | None => Crashed
    | Some artist =>
        let album := find_album actualItem in
        let pic := fixUrl (Some (JStr (findImage actualItem))) in
        let finalId := match id with Some i => i | None => "temp_" +:+ suffix end in
        Built {|
          n_raw := actualItem;
          n_source := platform;
          n_id := finalId;
          n_name := String_opt (or_else (get "name" actualItem)
                                  (or_else (get "title" actualItem)
                                           (Some (JStr "Unknown Song"))));
          n_artist := String_opt (or_else artist (Some (JStr "Unknown Artist")));
          n_album := String_opt (or_else album (Some (JStr "")));
          n_pic := pic;
          n_isValidId := bool_decide (is_Some id)
        |}
  end.

(** [list.map(...).filter(Boolean)]; [random i] is the suffix drawn for the
    item at position [i].  [None]: the mapping threw. *)
Fixpoint normalizeFrom (random : nat -> string) (i : nat) (platform : string)
    (items : list Json) : option (list Normalized) :=
  match items with
  | [] => Some []
  | item :: rest =>
      match normalizeItem platform (random i) item with
      | Crashed => None
      | Dropped => normalizeFrom random (S i) platform rest
      | Built n => cons n <$> normalizeFrom random (S i) platform rest
      end
  end.

Definition normalizeSongs (random : nat -> string) (items : list Json)
    (platform : string) : option (list Normalized) :=
  normalizeFrom random 0 platform items.

(** *** Upstream calls *)

(** A promise settles one way or the other. *)
Inductive Settled (A : Type) :=
| Fulfilled (a : A)
| Rejected.
Arguments Fulfilled {A} a.
Arguments Rejected {A}.

(** The calls that leave the aggregator, in the order they are issued. *)
Inductive Call :=
| TuneHub (url : string) (body : option Json) (x_api_key : option string)
| PipedStreamInfo (videoId : string)
| PipedAudioUrl (videoId : string)
| PipedSearch (query : string)
| YoutubeAudioInfo (videoId : string)
| YoutubeAudioUrl (videoId : string)
| YoutubeSearch (query : string) (page : Z).

(** The answer [fetch] gives [tuneHubFetch]: it throws, or there is a
    response with a status, maybe a content type, and a body that
    [response.json()] parses ([None] when parsing throws). *)
Inductive HubOutcome :=
| HubThrew
| HubAnswered (status : Z) (content_type : option string) (parsed : option Json).

Record StreamInfo := {
  audioUrl : option string;
  thumbnail : string;
  title : string;
  info_artist : string;
  info_duration : Z
}.

(** Everything outside the module: local storage, the backend registry, the
    two source clients. *)
Record World := {
  storedApiKey : string;
  storedApiBase : string;
  hub : string -> option Json -> HubOutcome;
  piped_getStreamInfo : string -> option StreamInfo;
  piped_getAudioUrl : string -> option string;
  piped_searchAudio : string -> Settled (list Json);
  youtube_getAudioInfo : string -> option StreamInfo;
  youtube_getAudioUrl : string -> option string;
  youtube_searchAudio : nat -> string -> Z -> Settled (list Json)
}.

(** A computation that returns a value and the calls it issued. *)
Definition Eff (A : Type) : Type := A * list Call.

Definition ret {A} (a : A) : Eff A := (a, []).

Definition bind {A B} (m : Eff A) (k : A -> Eff B) : Eff B :=
  let (b, later) := k m.1 in (b, (m.2 ++ later)%list).

Definition call {A} (c : Call) (answer : A) : Eff A := (answer, [c]).

Notation "'let*' x := m 'in' k" := (bind m (fun x => k))
  (at level 10, x name, m at level 100, k at level 200).

Definition tuneHubFetch (w : World) (endpoint : string) (body : option Json)
    : Eff (option Json) :=
  let x_api_key :=
    if negb (String.eqb (storedApiKey w) "") && includes "/parse" endpoint
    then Some (storedApiKey w) else None in
  let url := storedApiBase w +:+ endpoint in
  let* response := call (TuneHub url body x_api_key) (hub w url body) in
  ret match response with
      | HubThrew => None
      | HubAnswered status content_type parsed =>
          if match content_type with
             | Some ct => negb (String.eqb ct "") && includes "text/html" ct
             | None => false
             end
          then None
          else if Z.eqb status 401 then None
          else if negb (bool_decide (200 <= status) && bool_decide (status <= 299))
          then None
          else parsed
      end.

Definition parse_body (platform ids quality : string) : Json :=
  JObj [("platform", JStr platform); ("ids", JStr ids); ("quality", JStr quality)].

Definition parseSongs (w : World) (ids platform quality : string)
    : Eff (option (list Json)) :=
  if String.eqb ids "" || String.eqb platform "" then ret None
  else if startsWith "temp_" ids then ret None
  else
    let* res := tuneHubFetch w "/v1/parse" (Some (parse_body platform ids quality)) in
    if negb (truthy res) || negb (truthy (get "data" res)) then ret None
    else ret (Some (extractList (get "data" res))).

(** [data?.[0]] *)
Definition first_item (data : option (list Json)) : option Json :=
  data ≫= head.

(** [item?.lrc || item?.lyric || item?.lyrics || ''] *)
Definition lyrics_of (item : option Json) : Json :=
  default (JStr "")
    (or_else (get "lrc" item)
       (or_else (get "lyric" item)
          (or_else (get "lyrics" item) (Some (JStr ""))))).

Definition getSongUrl (w : World) (id : SongId) (source quality : string)
    : Eff (option string) :=
  if String.eqb source "" || String.eqb source "undefined" then ret None
  else if String.eqb source "piped"
  then call (PipedAudioUrl (String_id id)) (piped_getAudioUrl w (String_id id))
  else if String.eqb source "youtube"
  then call (YoutubeAudioUrl (String_id id)) (youtube_getAudioUrl w (String_id id))
  else
    let* data := parseSongs w (String_id id) source quality in
    let url := fixUrl (get "url" (first_item data)) in
    ret (if String.eqb url "" then None else Some url).

Definition getLyrics (w : World) (id : SongId) (source : string) : Eff Json :=
  if String.eqb source "youtube" then ret (JStr "")
  else
    let* data := parseSongs w (String_id id) source "320k" in
    let lrc := lyrics_of (first_item data) in
    if truthy (Some lrc) then ret lrc else ret (JStr "").

(** *** [parseSongFull] and its memo cache *)

Definition PARSE_CACHE_TTL : Z := 5 * 60 * 1000.

Record Full := {
  f_url : option string;
  f_lrc : Json;
  f_pic : string
}.

(** The record the legacy branch builds from the parsed [data]; a throw of
    [normalizeSongs] rejects the promise. *)
Definition legacy_full (random : nat -> string) (data : list Json)
    (platform : string) : Settled (option Full) :=
  let item := head data in
  match normalizeSongs random data platform with
  | None => Rejected
  | Some songs =>
      let url := fixUrl (get "url" item) in
      Fulfilled (Some {|
        f_url := if String.eqb url "" then None else Some url;
        f_lrc := lyrics_of item;
        f_pic := match head songs with Some n => n_pic n | None => "" end
      |})
  end.

Definition of_info (info : option StreamInfo) : Settled (option Full) :=
  Fulfilled ((fun i => {| f_url := audioUrl i; f_lrc := JStr ""; f_pic := thumbnail i |})
             <$> info).

(** [checked] and [stored] are the two readings of [Date.now()], at the
    cache check and at the cache write. *)
Definition parseSongFull (w : World) (random : nat -> string) (checked stored : Z)
    (cache : gmap string (list Json * Z))
    (id : SongId) (platform quality : string)
    : Eff (Settled (option Full) * gmap string (list Json * Z)) :=
  if negb (id_truthy id) || startsWith "temp_" (String_id id)
  then ret (Fulfilled None, cache)
  else if String.eqb platform "piped"
  then
    let* info := call (PipedStreamInfo (String_id id))
                      (piped_getStreamInfo w (String_id id)) in
    ret (of_info info, cache)
  else if String.eqb platform "youtube"
  then
    let* info := call (YoutubeAudioInfo (String_id id))
                      (youtube_getAudioInfo w (String_id id)) in
    ret (of_info info, cache)
  else
    let cacheKey := platform +:+ ":" +:+ String_id id +:+ ":" +:+ quality in
    let cached :=
      match cache !! cacheKey with
      | Some (data, timestamp) =>
          if bool_decide (checked - timestamp < PARSE_CACHE_TTL)
          then Some data else None
      | None => None
      end in
    match cached with
    | Some data => ret (legacy_full random data platform, cache)
    | None =>
        let* data := parseSongs w (String_id id) platform quality in
        match data with
        | None | Some [] => ret (Fulfilled None, cache)
        | Some data =>
            ret (legacy_full random data platform,
                 <[cacheKey := (data, stored)]> cache)
        end
    end.

(** *** Aggregate search *)

(** The records of a search result are [Song]s by declaration only: both
    clients copy [name] and [artist] from the payload ([item.title || ...],
    [item.artist || item.author || ...], [item.uploader || ...]) whatever
    they hold, so a record is taken here as the object it is.
    [youtube_searchAudio w n] answers the [n]-th search a call makes. *)

Section Aggregate.
(** [String.prototype.toLowerCase]. *)
Variable toLowerCase : string -> string.

(** [v.toLowerCase()]; [None]: a [TypeError], [v] is not a string. *)
Definition lowered (v : option Json) : option string :=
  match v with
  | Some (JStr s) => Some (toLowerCase s)
  | _ => None
  end.

(** The template literal
    [`${song.name.toLowerCase()}|${song.artist.toLowerCase()}`]. *)
Definition key_of (song : Json) : option string :=
  match lowered (get "name" (Some song)) with
  | Some n =>
      match lowered (get "artist" (Some song)) with
      | Some a => Some (n +:+ "|" +:+ a)
      | None => None
      end
  | None => None
  end.

(** [uniqueMap.has(key)] on the map kept in insertion order. *)
Definition has (key : string) (uniqueMap : list (string * Json)) : bool :=
  existsb (fun entry => String.eqb entry.1 key) uniqueMap.

(** [combined.forEach(...)]; [None]: the callback threw. *)
Fixpoint remember (songs : list Json) (uniqueMap : list (string * Json))
    : option (list (string * Json)) :=
  match songs with
  | [] => Some uniqueMap
  | song :: rest =>
      match key_of song with
      | Some key =>
          remember rest (if has key uniqueMap then uniqueMap
                         else (uniqueMap ++ [(key, song)])%list)
      | None => None
      end
  end.

(** [promise.catch(() => [])]. *)
Definition or_empty (p : Settled (list Json)) : list Json :=
  match p with
  | Fulfilled songs => songs
  | Rejected => []
  end.

(** Neither guarded promise rejects; a throw inside the [try] body comes
    from [toLowerCase], and the [catch] then returns the promise of a
    second YouTube search. *)
Definition searchAggregate (w : World) (keyword : string) (page : Z)
    : Eff (Settled (list Json)) :=
  let* youtubeResults := call (YoutubeSearch keyword page)
                              (or_empty (youtube_searchAudio w 0%nat keyword page)) in
  let* pipedResults := call (PipedSearch keyword)
                            (or_empty (piped_searchAudio w keyword)) in
  let combined := (youtubeResults ++ pipedResults)%list in
  match remember combined [] with
  | Some uniqueMap => ret (Fulfilled (take 50 (map snd uniqueMap)))
  | None => call (YoutubeSearch keyword page)
                 (youtube_searchAudio w 1%nat keyword page)
  end.
End Aggregate.

(** "Deduplicated" as the specification words it, for a key [key]: of the
    songs that share a key only the first is kept, and the order is that of
    the input.  [seen] holds the keys already taken. *)
Fixpoint first_of_each_key (key : Json -> string) (seen : list string)
    (songs : list Json) : list Json :=
  match songs with
  | [] => []
  | song :: rest =>
      if bool_decide (key song ∈ seen) then first_of_each_key key seen rest
      else song :: first_of_each_key key (seen ++ [key song])%list rest
  end.

(** ASCII lower-casing, the instance of [toLowerCase] used in examples. *)
Definition lower_ascii (c : ascii) : ascii :=
  let n := nat_of_ascii c in
  if bool_decide (65 <= n)%nat && bool_decide (n <= 90)%nat
  then ascii_of_nat (n + 32) else c.

Fixpoint lower (s : string) : string :=
  match s with
  | EmptyString => EmptyString
  | String c s' => String (lower_ascii c) (lower s')
  end.

(** *** Worlds used in the examples *)

Definition no_info (_ : string) : option StreamInfo := None.
Definition no_url (_ : string) : option string := None.

(** A search record with the given [name] and [artist]. *)
Definition track (i : string) (n a : Json) (src : string) : Json :=
  JObj [("id", JStr i); ("name", n); ("artist", a); ("album", JStr "");
        ("source", JStr src)].

(** A registry backend that answers [/v1/parse] with one item carrying
    lyrics, and two source clients with overlapping search results. *)
Definition lyrical : World :=
  {| storedApiKey := "";
     storedApiBase := "https://tunehub.sayqz.com/api";
     hub := fun _ _ =>
       HubAnswered 200 (Some "application/json")
         (Some (JObj [("code", JNum 0);
                      ("data", JArr [JObj [("lrc", JStr "la la")]])]));
     piped_getStreamInfo := no_info;
     piped_getAudioUrl := no_url;
     piped_searchAudio := fun _ =>
       Fulfilled [track "p1" (JStr "Yesterday") (JStr "The Beatles") "piped";
                  track "p2" (JStr "Help!") (JStr "The Beatles") "piped"];
     youtube_getAudioInfo := no_info;
     youtube_getAudioUrl := no_url;
     youtube_searchAudio := fun _ _ _ =>
       Fulfilled [track "y1" (JStr "YESTERDAY") (JStr "the beatles") "youtube"] |}.

(** Source clients of which Piped reports the title of the album [1984]
    as a number, and YouTube lists one song twice. *)
Definition numeric_title : World :=
  {| storedApiKey := "";
     storedApiBase := "https://tunehub.sayqz.com/api";
     hub := fun _ _ => HubThrew;
     piped_getStreamInfo := no_info;
     piped_getAudioUrl := no_url;
     piped_searchAudio := fun _ =>
       Fulfilled [track "p1" (JNum 1984) (JStr "Van Halen") "piped"];
     youtube_getAudioInfo := no_info;
     youtube_getAudioUrl := no_url;
     youtube_searchAudio := fun _ _ _ =>
       Fulfilled [track "y1" (JStr "Jump") (JStr "Van Halen") "youtube";
                  track "y2" (JStr "JUMP") (JStr "van halen") "youtube"] |}.

(** A registry backend whose [/v1/parse] answer carries a plain-http song
    URL padded with spaces and a protocol-relative picture. *)
Definition plain_http : World :=
  {| storedApiKey := "";
     storedApiBase := "https://tunehub.sayqz.com/api";
     hub := fun _ _ =>
       HubAnswered 200 (Some "application/json")
         (Some (JObj [("code", JNum 0);
                      ("data", JArr [JObj [("id", JNum 7);
                                           ("name", JStr "A");
                                           ("url", JStr "  http://cdn.example.com/a.mp3 ");
                                           ("pic", JStr "//img.example.com/a.jpg")]])]));
     piped_getStreamInfo := no_info;
     piped_getAudioUrl := no_url;
     piped_searchAudio := fun _ => Rejected;
     youtube_getAudioInfo := no_info;
     youtube_getAudioUrl := no_url;
     youtube_searchAudio := fun _ _ _ => Rejected |}.

End Api.

(** ** Playback engine (contexts/PlayerContext) *)

Module Player.

Inductive PlayMode := sequence | loop | shuffle.

Global Instance PlayMode_eq_dec : EqDecision PlayMode.
Proof. solve_decision. Defined.

(** [AudioQuality] is a union of string literals; an omitted [forceQuality]
    is [None]. *)
Definition AudioQuality := string.

(** The single [HTMLAudioElement]: the URL it was given, its position, and
    whether it is paused. *)
Record Audio := {
  src : string;
  a_currentTime : Q;
  a_duration : Q;
  paused : bool;
  crossOrigin : bool
}.

Inductive CtxState := suspended | running.

(** How the promise of [audio.play()] settles. *)
Inductive PlayOutcome := Started | AbortError | NotAllowedError | OtherError.

(** What the engine does to the outside, oldest first. *)
Inductive Effect :=
| ResolveYoutube (videoId : string)    (* youtube.getAudioUrl *)
| ResolvePiped (videoId : string)      (* piped.getAudioUrl *)
| NewAudio (withCors : bool)
| AudioLoad (url : string)
| AudioPlay
| AudioPause
| CtxCreate
| CtxClose
| CtxResume
| MediaSession (song : Song) (playing : bool).

(** The requests for a stream URL, and the updates of the media session. *)
Definition is_request (e : Effect) : bool :=
  match e with
  | ResolveYoutube _ | ResolvePiped _ => true
  | _ => false
  end.

Definition is_session_update (e : Effect) : bool :=
  match e with
  | MediaSession _ _ => true
  | _ => false
  end.

(** A call made through [playSongRef.current]; it is the last thing its
    caller does. *)
Record Call := CallPlaySong {
  call_song : Song;
  call_forceQuality : option AudioQuality
}.

(** The provider: the React state, the refs that mirror it for the
    long-lived callbacks, and the refs that own the audio pipeline.
    [sourceNodeRef], [analyserRef] and the [analyser] state are set and
    cleared together with [audioCtxRef].  The last two fields are what the
    effect on [[currentSong, isPlaying]] compares at a render:
    [currentSongFresh] holds when [setCurrentSong] has put a new object in
    place since the last render, [isPlayingRendered] is [isPlaying] as the
    last render saw it. *)
Record Player := {
  currentSong : option Song;
  isPlaying : bool;
  isLoading : bool;
  currentTime : Q;
  duration : Q;
  queue : list Song;
  playMode : PlayMode;
  audioQuality : AudioQuality;
  audioRef : option Audio;
  audioCtxRef : option CtxState;
  audioCtxConnectedRef : bool;
  currentSongRef : option Song;
  queueRef : list Song;
  playModeRef : PlayMode;
  audioQualityRef : AudioQuality;
  retryCountRef : Z;
  effects : list Effect;
  currentSongFresh : bool;
  isPlayingRendered : bool
}.

(** How a client answers a request for a stream URL, as far as the
    provider can tell.  [AtOnce]: [null], handed back before React has
    rendered the state set so far (the client did not wait for the network:
    no instance is healthy, the library did not load).  [Later]: the
    promise settles once React has rendered and run its effects, as it has
    by the time an answer comes back from the network. *)
Inductive Answer :=
| AtOnce
| Later (r : Api.Settled (option string)).

Definition settled (a : Answer) : Api.Settled (option string) :=
  match a with
  | AtOnce => Api.Fulfilled None
  | Later r => r
  end.

(** The surroundings of the provider. *)
Record World := {
  location_href : string;                       (* window.location.href *)
  isIOS : bool;                                 (* isIOSRef.current *)
  hasMediaSession : bool;                       (* 'mediaSession' in navigator *)
  webAudio : option CtxState;                   (* state of a new AudioContext, if one can be made *)
  youtube_getAudioUrl : string -> Answer;
  piped_getAudioUrl : string -> Answer;
  playStart : PlayOutcome
}.

(** [setCurrentSong(v)], always called with an object made for the call. *)
Definition set_currentSong v (st : Player) : Player :=
  {| currentSong := v; isPlaying := isPlaying st; isLoading := isLoading st;
     currentTime := currentTime st; duration := duration st; queue := queue st;
     playMode := playMode st; audioQuality := audioQuality st;
     audioRef := audioRef st; audioCtxRef := audioCtxRef st;
     audioCtxConnectedRef := audioCtxConnectedRef st;
     currentSongRef := currentSongRef st; queueRef := queueRef st;
     playModeRef := playModeRef st; audioQualityRef := audioQualityRef st;
     retryCountRef := retryCountRef st; effects := effects st;
     currentSongFresh := true;
     isPlayingRendered := isPlayingRendered st |}.

Definition set_isPlaying v (st : Player) : Player :=
  {| currentSong := currentSong st; isPlaying := v; isLoading := isLoading st;
     currentTime := currentTime st; duration := duration st; queue := queue st;
     playMode := playMode st; audioQuality := audioQuality st;
     audioRef := audioRef st; audioCtxRef := audioCtxRef st;
     audioCtxConnectedRef := audioCtxConnectedRef st;
     currentSongRef := currentSongRef st; queueRef := queueRef st;
     playModeRef := playModeRef st; audioQualityRef := audioQualityRef st;
     retryCountRef := retryCountRef st; effects := effects st;
     currentSongFresh := currentSongFresh st;
     isPlayingRendered := isPlayingRendered st |}.

Definition set_isLoading v (st : Player) : Player :=
  {| currentSong := currentSong st; isPlaying := isPlaying st; isLoading := v;
     currentTime := currentTime st; duration := duration st; queue := queue st;
     playMode := playMode st; audioQuality := audioQuality st;
     audioRef := audioRef st; audioCtxRef := audioCtxRef st;
     audioCtxConnectedRef := audioCtxConnectedRef st;
     currentSongRef := currentSongRef st; queueRef := queueRef st;
     playModeRef := playModeRef st; audioQualityRef := audioQualityRef st;
     retryCountRef := retryCountRef st; effects := effects st;
     currentSongFresh := currentSongFresh st;
     isPlayingRendered := isPlayingRendered st |}.

Definition set_duration v (st : Player) : Player :=
  {| currentSong := currentSong st; isPlaying := isPlaying st;
     isLoading := isLoading st;
     currentTime := currentTime st; duration := v; queue := queue st;
     playMode := playMode st; audioQuality := audioQuality st;
     audioRef := audioRef st; audioCtxRef := audioCtxRef st;
     audioCtxConnectedRef := audioCtxConnectedRef st;
     currentSongRef := currentSongRef st; queueRef := queueRef st;
     playModeRef := playModeRef st; audioQualityRef := audioQualityRef st;
     retryCountRef := retryCountRef st; effects := effects st;
     currentSongFresh := currentSongFresh st;
     isPlayingRendered := isPlayingRendered st |}.

Definition set_queue v (st : Player) : Player :=
  {| currentSong := currentSong st; isPlaying := isPlaying st;
     isLoading := isLoading st;
     currentTime := currentTime st; duration := duration st; queue := v;
     playMode := playMode st; audioQuality := audioQuality st;
     audioRef := audioRef st; audioCtxRef := audioCtxRef st;
     audioCtxConnectedRef := audioCtxConnectedRef st;
     currentSongRef := currentSongRef st; queueRef := queueRef st;
     playModeRef := playModeRef st; audioQualityRef := audioQualityRef st;
     retryCountRef := retryCountRef st; effects := effects st;
     currentSongFresh := currentSongFresh st;
     isPlayingRendered := isPlayingRendered st |}.

Definition set_audioQuality v (st : Player) : Player :=
  {| currentSong := currentSong st; isPlaying := isPlaying st;
     isLoading := isLoading st;
     currentTime := currentTime st; duration := duration st; queue := queue st;
     playMode := playMode st; audioQuality := v;
     audioRef := audioRef st; audioCtxRef := audioCtxRef st;
     audioCtxConnectedRef := audioCtxConnectedRef st;
     currentSongRef := currentSongRef st; queueRef := queueRef st;
     playModeRef := playModeRef st; audioQualityRef := audioQualityRef st;
     retryCountRef := retryCountRef st; effects := effects st;
     currentSongFresh := currentSongFresh st;
     isPlayingRendered := isPlayingRendered st |}.

Definition set_audioRef v (st : Player) : Player :=
  {| currentSong := currentSong st; isPlaying := isPlaying st;
     isLoading := isLoading st;
     currentTime := currentTime st; duration := duration st; queue := queue st;
     playMode := playMode st; audioQuality := audioQuality st;
     audioRef := v; audioCtxRef := audioCtxRef st;
     audioCtxConnectedRef := audioCtxConnectedRef st;
     currentSongRef := currentSongRef st; queueRef := queueRef st;
     playModeRef := playModeRef st; audioQualityRef := audioQualityRef st;
     retryCountRef := retryCountRef st; effects := effects st;
     currentSongFresh := currentSongFresh st;
     isPlayingRendered := isPlayingRendered st |}.

Definition set_audioCtx ctx connected (st : Player) : Player :=
  {| currentSong := currentSong st; isPlaying := isPlaying st;
     isLoading := isLoading st;
     currentTime := currentTime st; duration := duration st; queue := queue st;
     playMode := playMode st; audioQuality := audioQuality st;
     audioRef := audioRef st; audioCtxRef := ctx;
     audioCtxConnectedRef := connected;
     currentSongRef := currentSongRef st; queueRef := queueRef st;
     playModeRef := playModeRef st; audioQualityRef := audioQualityRef st;
     retryCountRef := retryCountRef st; effects := effects st;
     currentSongFresh := currentSongFresh st;
     isPlayingRendered := isPlayingRendered st |}.

Definition set_retryCountRef v (st : Player) : Player :=
  {| currentSong := currentSong st; isPlaying := isPlaying st;
     isLoading := isLoading st;
     currentTime := currentTime st; duration := duration st; queue := queue st;
     playMode := playMode st; audioQuality := audioQuality st;
     audioRef := audioRef st; audioCtxRef := audioCtxRef st;
     audioCtxConnectedRef := audioCtxConnectedRef st;
     currentSongRef := currentSongRef st; queueRef := queueRef st;
     playModeRef := playModeRef st; audioQualityRef := audioQualityRef st;
     retryCountRef := v; effects := effects st;
     currentSongFresh := currentSongFresh st;
     isPlayingRendered := isPlayingRendered st |}.

Definition emit (e : Effect) (st : Player) : Player :=
  {| currentSong := currentSong st; isPlaying := isPlaying st;
     isLoading := isLoading st;
     currentTime := currentTime st; duration := duration st; queue := queue st;
     playMode := playMode st; audioQuality := audioQuality st;
     audioRef := audioRef st; audioCtxRef := audioCtxRef st;
     audioCtxConnectedRef := audioCtxConnectedRef st;
     currentSongRef := currentSongRef st; queueRef := queueRef st;
     playModeRef := playModeRef st; audioQualityRef := audioQualityRef st;
     retryCountRef := retryCountRef st; effects := (effects st ++ [e])%list;
     currentSongFresh := currentSongFresh st;
     isPlayingRendered := isPlayingRendered st |}.

(** The four persistence effects, run when React commits a render: each
    copies a piece of state into the ref the callbacks read.  The render
    has seen the state as it is now. *)
Definition persist (st : Player) : Player :=
  {| currentSong := currentSong st; isPlaying := isPlaying st;
     isLoading := isLoading st;
     currentTime := currentTime st; duration := duration st; queue := queue st;
     playMode := playMode st; audioQuality := audioQuality st;
     audioRef := audioRef st; audioCtxRef := audioCtxRef st;
     audioCtxConnectedRef := audioCtxConnectedRef st;
     currentSongRef := currentSong st; queueRef := queue st;
     playModeRef := playMode st; audioQualityRef := audioQuality st;
     retryCountRef := retryCountRef st; effects := effects st;
     currentSongFresh := false;
     isPlayingRendered := isPlaying st |}.

Section Engine.
Variable w : World.

(** [audio.src && audio.src !== window.location.href]. *)
Definition has_source (a : Audio) : bool :=
  negb (String.eqb (src a) "") && negb (String.eqb (src a) (location_href w)).

(** Truthiness of the optional [forceQuality]. *)
Definition forced (forceQuality : option AudioQuality) : bool :=
  match forceQuality with
  | Some q => negb (String.eqb q "")
  | None => false
  end.

Definition updateMediaSession (song : option Song) (playing : bool)
    (st : Player) : Player :=
  match song with
  | Some s => if hasMediaSession w then emit (MediaSession s playing) st else st
  | None => st
  end.

(** What React does when it commits a render: the persistence effects, and
    the effect on [[currentSong, isPlaying]], which runs when either has
    changed since the last render and updates the media session for the
    current song, if there is one. *)
Definition commit (st : Player) : Player :=
  let changed :=
    currentSongFresh st || negb (Bool.eqb (isPlaying st) (isPlayingRendered st)) in
  if changed
  then updateMediaSession (currentSong st) (isPlaying st) (persist st)
  else persist st.

(** [if (ctx && ctx.state === 'suspended') ctx.resume()]. *)
Definition resume_ctx (st : Player) : Player :=
  match audioCtxRef st with
  | Some suspended =>
      emit CtxResume (set_audioCtx (Some running) (audioCtxConnectedRef st) st)
  | _ => st
  end.

Definition with_audio (f : Audio -> Audio) (st : Player) : Player :=
  set_audioRef (f <$> audioRef st) st.

Definition audio_play (a : Audio) : Audio :=
  {| src := src a; a_currentTime := a_currentTime a; a_duration := a_duration a;
     paused := false; crossOrigin := crossOrigin a |}.

Definition audio_pause (a : Audio) : Audio :=
  {| src := src a; a_currentTime := a_currentTime a; a_duration := a_duration a;
     paused := true; crossOrigin := crossOrigin a |}.

Definition audio_seek (t : Q) (a : Audio) : Audio :=
  {| src := src a; a_currentTime := t; a_duration := a_duration a;
     paused := paused a; crossOrigin := crossOrigin a |}.

(** [audio.src = url; audio.load()]: the element starts over on the new
    resource. *)
Definition audio_load (u : string) (a : Audio) : Audio :=
  {| src := u; a_currentTime := 0%Q; a_duration := 0%Q;
     paused := true; crossOrigin := crossOrigin a |}.

(** [togglePlay].  It reads [isPlaying] of the render it was created in,
    which is the state the handler runs on. *)
Definition togglePlay (st : Player) : Player * option Call :=
  match audioRef st, currentSongRef st with
  | Some a, Some c =>
      if negb (has_source a) then (st, Some (CallPlaySong c None))
      else
        let st := resume_ctx st in
        if isPlaying st
        then (updateMediaSession (Some c) false
                (set_isPlaying false (emit AudioPause (with_audio audio_pause st))),
              None)
        else (updateMediaSession (Some c) true
                (set_isPlaying true (emit AudioPlay (with_audio audio_play st))),
              None)
  | _, _ => (st, None)
  end.

(** [createAudioElement(withCors)]: the old element is paused and
    stripped, an open audio context is closed, and a fresh element takes
    its place. *)
Definition createAudioElement (withCors : bool) (st : Player) : Player :=
  let st := match audioRef st with
            | Some _ => emit AudioPause st
            | None => st
            end in
  let st := match audioCtxRef st with
            | Some _ => emit CtxClose (set_audioCtx None false st)
            | None => st
            end in
  emit (NewAudio withCors)
    (set_audioRef (Some {| src := ""; a_currentTime := 0%Q; a_duration := 0%Q;
                           paused := true; crossOrigin := withCors |}) st).

Definition initAudioContext (st : Player) : Player :=
  if isIOS w then st
  else
    match audioCtxRef st, audioRef st with
    | None, Some _ =>
        match webAudio w with
        | Some state => emit CtxCreate (set_audioCtx (Some state) true st)
        | None => st
        end
    | _, _ => st
    end.

(** How the synchronous part of [playSong] ends. *)
Inductive Begun :=
| Returned (spawned : option Call)
| Awaiting (fullSong : Song) (isSameSong isDifferentQuality appended : bool).

Definition in_queue (song : Song) (q : list Song) : bool :=
  existsb (fun s => String.eqb (String_id (id s)) (String_id (id song))) q.

(** [isSameSong] and [isDifferentQuality] as [playSong] computes them. *)
Definition isSameSong (song : Song) (st : Player) : bool :=
  bool_decide (id <$> currentSongRef st = Some (id song)).

Definition isDifferentQuality (forceQuality : option AudioQuality)
    (st : Player) : bool :=
  forced forceQuality
  && negb (bool_decide (forceQuality = Some (audioQualityRef st))).

(** The guard of the toggle shortcut: same song, same quality, nothing
    forced, and the element [a] has a source. *)
Definition already_loaded (song : Song) (forceQuality : option AudioQuality)
    (st : Player) (a : Audio) : bool :=
  isSameSong song st && negb (isDifferentQuality forceQuality st)
  && negb (forced forceQuality) && has_source a.

(** The queue update [prev => prev.find(...) ? prev : [...prev, fullSong]]. *)
Definition enqueue (fullSong : Song) (prev : list Song) : list Song :=
  if in_queue fullSong prev then prev else (prev ++ [fullSong])%list.

(** [playSong] up to its first [await]. *)
Definition playSong_begin (song : Song) (forceQuality : option AudioQuality)
    (st : Player) : Player * Begun :=
  match audioRef st with
  | None => (st, Returned None)
  | Some a =>
      if already_loaded song forceQuality st a
      then
        let (st', spawned) := togglePlay st in (st', Returned spawned)
      else
        let same := isSameSong song st in
        let different := isDifferentQuality forceQuality st in
        let st := set_isLoading true st in
        let st := if negb (forced forceQuality) then set_retryCountRef 0 st else st in
        let fullSong := song in
        let st := set_currentSong (Some fullSong) st in
        let appended := negb (in_queue song (queue st)) in
        let st := set_queue (enqueue fullSong (queue st)) st in
        (st, Awaiting fullSong same different appended)
  end.

(** A usable URL: [audioUrl || null] is truthy. *)
Definition usable (audioUrl : option string) : option string :=
  match audioUrl with
  | Some u => if String.eqb u "" then None else Some u
  | None => None
  end.

(** The awaited resolution: Piped for a Piped song, otherwise YouTube with
    a guarded Piped fallback.  [Rejected]: the exception reaches the outer
    [catch]. *)
Definition resolve (song : Song) : Api.Settled (option string) * list Effect :=
  let videoId := String_id (id song) in
  if String.eqb (source song) "piped"
  then (settled (piped_getAudioUrl w videoId), [ResolvePiped videoId])
  else
    match settled (youtube_getAudioUrl w videoId) with
    | Api.Rejected => (Api.Rejected, [ResolveYoutube videoId])
    | Api.Fulfilled audioUrl =>
        match usable audioUrl with
        | Some _ => (Api.Fulfilled audioUrl, [ResolveYoutube videoId])
        | None =>
            (match settled (piped_getAudioUrl w videoId) with
             | Api.Fulfilled fallback => Api.Fulfilled fallback
             | Api.Rejected => Api.Fulfilled audioUrl
             end,
             [ResolveYoutube videoId; ResolvePiped videoId])
        end
    end.

(** The answer the world gives to a request. *)
Definition answer_to (e : Effect) : option Answer :=
  match e with
  | ResolveYoutube videoId => Some (youtube_getAudioUrl w videoId)
  | ResolvePiped videoId => Some (piped_getAudioUrl w videoId)
  | _ => None
  end.

(** A request goes out, and React renders while it is out on the network;
    it does not when the client answers at once. *)
Definition ask (st : Player) (e : Effect) : Player :=
  let st := emit e st in
  match answer_to e with
  | Some (Later _) => commit st
  | _ => st
  end.

(** The requests of a resolution, one after the other. *)
Definition asking (asked : list Effect) (st : Player) : Player :=
  fold_left ask asked st.

(** Whether React has rendered by the time the last of the requests is
    answered. *)
Definition rendered (asked : list Effect) : bool :=
  existsb (fun e => match answer_to e with
                    | Some (Later _) => true
                    | _ => false
                    end) asked.

Definition with_url (u : string) (s : Song) : Song :=
  {| id := id s; name := name s; artist := artist s; album := album s;
     pic := pic s; source := source s; Track.duration := Track.duration s;
     url := Some u; isValidId := isValidId s |}.

(** [fullSong.url = url]: the copy is the object held as current song and,
    when this call appended it, as last queue entry. *)
Definition write_url (u : string) (fullSong : Song) (appended : bool)
    (st : Player) : Player :=
  let patch (o : option Song) :=
    if bool_decide (o = Some fullSong) then Some (with_url u fullSong) else o in
  let patch_last (q : list Song) :=
    if appended && bool_decide (last q = Some fullSong)
    then (removelast q ++ [with_url u fullSong])%list else q in
  {| currentSong := patch (currentSong st); isPlaying := isPlaying st;
     isLoading := isLoading st;
     currentTime := currentTime st; duration := duration st;
     queue := patch_last (queue st);
     playMode := playMode st; audioQuality := audioQuality st;
     audioRef := audioRef st; audioCtxRef := audioCtxRef st;
     audioCtxConnectedRef := audioCtxConnectedRef st;
     currentSongRef := patch (currentSongRef st);
     queueRef := patch_last (queueRef st);
     playModeRef := playModeRef st; audioQualityRef := audioQualityRef st;
     retryCountRef := retryCountRef st; effects := effects st;
     currentSongFresh := currentSongFresh st;
     isPlayingRendered := isPlayingRendered st |}.

(** The settling of [audio.play()]. *)
Definition settle_play (fullSong : Song) (st : Player) : Player :=
  match playStart w with
  | Started => updateMediaSession (Some fullSong) true st
  | AbortError => st
  | NotAllowedError => set_isLoading false (set_isPlaying false st)
  | OtherError => st
  end.

(** [playSong] after the resolution has settled.  Reading or writing a
    missing element would throw into the [catch]; the element exists from
    the start of the call on. *)
Definition playSong_resume (song fullSong : Song)
    (isSameSong isDifferentQuality appended : bool)
    (resolved : Api.Settled (option string)) (st : Player) : Player :=
  match resolved with
  | Api.Rejected => set_isLoading false st
  | Api.Fulfilled audioUrl =>
      if negb (bool_decide (id <$> currentSongRef st = Some (id song))) then st
      else
        match usable audioUrl with
        | None => set_isPlaying false (set_isLoading false st)
        | Some u =>
            let st := write_url u fullSong appended st in
            match (if isSameSong && isDifferentQuality
                   then a_currentTime <$> audioRef st else Some 0%Q) with
            | None => set_isLoading false st
            | Some resumeTime =>
                let st := if negb (audioCtxConnectedRef st)
                          then createAudioElement true st else st in
                let st := initAudioContext st in
                match audioRef st with
                | None => set_isLoading false st
                | Some _ =>
                    let st := emit (AudioLoad u) (with_audio (audio_load u) st) in
                    let st := if negb (Qle_bool resumeTime 0)
                              then with_audio (audio_seek resumeTime) st else st in
                    let st := resume_ctx st in
                    let st := set_isLoading false (set_isPlaying true st) in
                    let st := emit AudioPlay (with_audio audio_play st) in
                    settle_play (with_url u fullSong) st
                end
            end
        end
  end.

(** A whole call of [playSong].  While a request of the resolution is out
    on the network React commits the pending state, so the refs are current
    when the call resumes; when every client answers at once the call
    resumes on the refs of the last render.  No other handler runs in
    between.  [fuel] bounds the calls made through [playSongRef]. *)
Fixpoint playSong (fuel : nat) (song : Song) (forceQuality : option AudioQuality)
    (st : Player) : option Player :=
  match fuel with
  | O => None
  | S fuel' =>
      match playSong_begin song forceQuality st with
      | (st, Returned None) => Some st
      | (st, Returned (Some c)) =>
          playSong fuel' (call_song c) (call_forceQuality c) st
      | (st, Awaiting fullSong isSameSong isDifferentQuality appended) =>
          let (resolved, asked) := resolve song in
          let st := asking asked st in
          Some (playSong_resume song fullSong isSameSong isDifferentQuality
                  appended resolved st)
      end
  end.

(** *** Handlers of the audio element *)

Definition handlers_loadedmetadata (st : Player) : Player :=
  let d := match audioRef st with Some a => a_duration a | None => 0%Q end in
  set_retryCountRef 0 (set_isLoading false (set_duration d st)).

Definition handlers_error (st : Player) : Player * option Call :=
  match currentSongRef st with
  | Some c =>
      if negb (String.eqb (audioQualityRef st) "128k")
         && Z.eqb (retryCountRef st) 0
      then (set_retryCountRef 1 st, Some (CallPlaySong c (Some "128k")))
      else (set_retryCountRef 0 (set_isPlaying false (set_isLoading false st)), None)
  | None =>
      (set_retryCountRef 0 (set_isPlaying false (set_isLoading false st)), None)
  end.

Definition handlers_waiting (st : Player) : Player := set_isLoading true st.
Definition handlers_canplay (st : Player) : Player := set_isLoading false st.

(** *** Queue advancement *)

(** [q.findIndex(s => String(s.id) === String(c.id))], [-1] when absent. *)
Fixpoint findIndex (c : Song) (q : list Song) : Z :=
  match q with
  | [] => -1
  | s :: q' =>
      if String.eqb (String_id (id s)) (String_id (id c)) then 0
      else let i := findIndex c q' in if Z.eqb i (-1) then -1 else i + 1
  end.

(** The [do ... while] of shuffle: [random k] is the [k]-th value of
    [Math.random()].  [None]: the loop is still running after [fuel]
    draws. *)
Fixpoint shuffle_pick (random : nat -> Q) (fuel k : nat) (len : nat)
    (currentIndex : Z) : option Z :=
  match fuel with
  | O => None
  | S fuel' =>
      let nextIndex := Qfloor (random k * inject_Z (Z.of_nat len)) in
      if bool_decide (1 < len)%nat && Z.eqb nextIndex currentIndex
      then shuffle_pick random fuel' (S k) len currentIndex
      else Some nextIndex
  end.

Definition currentIndex_of (c : option Song) (q : list Song) : Z :=
  match c with
  | Some c => findIndex c q
  | None => -1
  end.

(** The index [playNext] settles on once past the loop-mode shortcut. *)
Definition next_index (random : nat -> Q) (fuel : nat) (st : Player) : option Z :=
  let q := queueRef st in
  let currentIndex := currentIndex_of (currentSongRef st) q in
  match playModeRef st with
  | shuffle => shuffle_pick random fuel 0 (length q) currentIndex
  | _ => Some (Z.rem (currentIndex + 1) (Z.of_nat (length q)))
  end.

(** [q[nextIndex]] *)
Definition at_index (q : list Song) (i : Z) : option Song :=
  if bool_decide (0 <= i) then q !! Z.to_nat i else None.

(** [playNext(force)].  The outer [None]: the shuffle loop has not ended
    within [fuel] draws.  An index outside the queue (none is produced for
    a random value in [0, 1)) would make the call throw on [song.id]
    before it touches anything. *)
Definition playNext (random : nat -> Q) (fuel : nat) (force : bool)
    (st : Player) : option (Player * option Call) :=
  let q := queueRef st in
  match q with
  | [] => Some (st, None)
  | _ :: _ =>
      if negb force && bool_decide (playModeRef st = loop)
      then
        Some (match audioRef st with
              | Some _ => emit AudioPlay
                            (with_audio (fun a => audio_play (audio_seek 0%Q a)) st)
              | None => st
              end, None)
      else
        match next_index random fuel st with
        | None => None
        | Some nextIndex =>
            Some (st, (fun s => CallPlaySong s None) <$> at_index q nextIndex)
        end
  end.

(** The [ended] handler; [playNextRef] is set once the provider has
    mounted. *)
Definition handlers_ended (random : nat -> Q) (fuel : nat) (st : Player)
    : option (Player * option Call) :=
  playNext random fuel false st.

Definition setAudioQuality (q : AudioQuality) (st : Player) : Player * option Call :=
  let spawned := match currentSong st with
                 | Some c => if isPlaying st then Some (CallPlaySong c (Some q)) else None
                 | None => None
                 end in
  (set_audioQuality q st, spawned).

(** *** Events *)

Inductive Event :=
| EvPlaySong (song : Song) (forceQuality : option AudioQuality)
| EvTogglePlay
| EvSetAudioQuality (q : AudioQuality)
| EvError
| EvLoadedMetadata
| EvEnded (random : nat -> Q).

(** Runs the call a handler spawned, then lets React commit. *)
Definition finish (fuel : nat) (r : Player * option Call) : option Player :=
  commit <$> match r with
             | (st, None) => Some st
             | (st, Some c) => playSong fuel (call_song c) (call_forceQuality c) st
             end.

Definition dispatch (fuel : nat) (ev : Event) (st : Player) : option Player :=
  match ev with
  | EvPlaySong song forceQuality => commit <$> playSong fuel song forceQuality st
  | EvTogglePlay => finish fuel (togglePlay st)
  | EvSetAudioQuality q => finish fuel (setAudioQuality q st)
  | EvError => finish fuel (handlers_error st)
  | EvLoadedMetadata => Some (commit (handlers_loadedmetadata st))
  | EvEnded random => handlers_ended random fuel st ≫= finish fuel
  end.

Fixpoint run (fuel : nat) (evs : list Event) (st : Player) : option Player :=
  match evs with
  | [] => Some st
  | ev :: evs' => dispatch fuel ev st ≫= run fuel evs'
  end.
End Engine.

(** *** A session used in the examples *)

Definition song_a : Song :=
  {| id := IdString "a"; name := "A"; artist := "X"; album := ""; pic := "";
     source := "youtube"; Track.duration := 180; url := None;
     isValidId := Some true |}.

Definition song_b : Song :=
  {| id := IdString "b"; name := "B"; artist := "Y"; album := ""; pic := "";
     source := "youtube"; Track.duration := 200; url := None;
     isValidId := Some true |}.

Definition song_c : Song :=
  {| id := IdString "c"; name := "C"; artist := "Z"; album := ""; pic := "";
     source := "piped"; Track.duration := 220; url := None;
     isValidId := None |}.


(** A browser in which YouTube resolves every identifier and the Piped
    client has no healthy instance left: it answers at once. *)
Definition no_instance : World :=
  {| location_href := "https://tunefree.app/";
     isIOS := false;
     hasMediaSession := true;
     webAudio := Some running;
     youtube_getAudioUrl := fun videoId =>
       Later (Api.Fulfilled (Some ("https://cdn/" +:+ videoId)));
     piped_getAudioUrl := fun _ => AtOnce;
     playStart := Started |}.

(** A browser in which YouTube resolves every identifier. *)
Definition online : World :=
  {| location_href := "https://tunefree.app/";
     isIOS := false;
     hasMediaSession := true;
     webAudio := Some running;
     youtube_getAudioUrl := fun videoId =>
       Later (Api.Fulfilled (Some ("https://cdn/" +:+ videoId)));
     piped_getAudioUrl := fun _ => Later (Api.Fulfilled None);
     playStart := Started |}.

(** Values of [Math.random()]: one half first, zero ever after. *)
Definition half_then_zero (k : nat) : Q :=
  match k with
  | O => (1 # 2)%Q
  | S _ => 0%Q
  end.

(** Song [current] of [q] is playing at quality [320k] in the given mode. *)
Definition playing (current : Song) (q : list Song) (mode : PlayMode) : Player :=
  {| currentSong := Some current; isPlaying := true; isLoading := false;
     currentTime := 42%Q; duration := 180%Q;
     queue := q; playMode := mode; audioQuality := "320k";
     audioRef := Some {| src := "https://cdn/current"; a_currentTime := 42%Q;
                         a_duration := 180%Q; paused := false;
                         crossOrigin := true |};
     audioCtxRef := Some running; audioCtxConnectedRef := true;
     currentSongRef := Some current; queueRef := q;
     playModeRef := mode; audioQualityRef := "320k";
     retryCountRef := 0; effects := [];
     currentSongFresh := false; isPlayingRendered := true |}.

End Player.

(** ** The other controls of the provider (contexts/PlayerContext) *)

Module Controls.
Import Player.

Definition set_playMode v (st : Player) : Player :=
  {| currentSong := currentSong st; isPlaying := isPlaying st;
     isLoading := isLoading st;
     currentTime := currentTime st; duration := duration st; queue := queue st;
     playMode := v; audioQuality := audioQuality st;
     audioRef := audioRef st; audioCtxRef := audioCtxRef st;
     audioCtxConnectedRef := audioCtxConnectedRef st;
     currentSongRef := currentSongRef st; queueRef := queueRef st;
     playModeRef := playModeRef st; audioQualityRef := audioQualityRef st;
     retryCountRef := retryCountRef st; effects := effects st;
     currentSongFresh := currentSongFresh st;
     isPlayingRendered := isPlayingRendered st |}.

Definition set_currentTime v (st : Player) : Player :=
  {| currentSong := currentSong st; isPlaying := isPlaying st;
     isLoading := isLoading st;
     currentTime := v; duration := duration st; queue := queue st;
     playMode := playMode st; audioQuality := audioQuality st;
     audioRef := audioRef st; audioCtxRef := audioCtxRef st;
     audioCtxConnectedRef := audioCtxConnectedRef st;
     currentSongRef := currentSongRef st; queueRef := queueRef st;
     playModeRef := playModeRef st; audioQualityRef := audioQualityRef st;
     retryCountRef := retryCountRef st; effects := effects st;
     currentSongFresh := currentSongFresh st;
     isPlayingRendered := isPlayingRendered st |}.

(** The [timeupdate] handler: [setCurrentTime(audio.currentTime)]. *)
Definition handlers_timeupdate (st : Player) : Player :=
  match audioRef st with
  | Some a => set_currentTime (a_currentTime a) st
  | None => st
  end.

(** [seek(time)]. *)
Definition seek (time : Q) (st : Player) : Player :=
  match audioRef st with
  | Some _ => set_currentTime time (with_audio (audio_seek time) st)
  | None => st
  end.

(** The index [playPrev] settles on: one draw of [Math.random()] in shuffle
    mode, [(currentIndex - 1 + q.length) % q.length] otherwise. *)
Definition prev_index (random : nat -> Q) (st : Player) : Z :=
  let q := queueRef st in
  let currentIndex := currentIndex_of (currentSongRef st) q in
  match playModeRef st with
  | shuffle => Qfloor (random 0%nat * inject_Z (Z.of_nat (length q)))
  | _ => Z.rem (currentIndex - 1 + Z.of_nat (length q)) (Z.of_nat (length q))
  end.

(** [playPrev()].  As in [playNext], an index outside the queue would make
    the call throw on [song.id] before it touches anything. *)
Definition playPrev (random : nat -> Q) (st : Player) : Player * option Call :=
  let q := queueRef st in
  match q with
  | [] => (st, None)
  | _ :: _ =>
      (st, (fun s => CallPlaySong s None) <$> at_index q (prev_index random st))
  end.

(** [addToQueue(song)]: the same queue update as in [playSong]. *)
Definition addToQueue (song : Song) (st : Player) : Player :=
  set_queue (enqueue song (queue st)) st.

(** [removeFromQueue(songId)]:
    [prev.filter(s => String(s.id) !== String(songId))]. *)
Definition removeFromQueue (songId : SongId) (st : Player) : Player :=
  set_queue
    (List.filter (fun s => negb (String.eqb (String_id (id s)) (String_id songId)))
                 (queue st))
    st.

Definition clearQueue (st : Player) : Player := set_queue [] st.

(** The updater of [togglePlayMode]. *)
Definition next_mode (prev : PlayMode) : PlayMode :=
  match prev with
  | sequence => loop
  | loop => shuffle
  | shuffle => sequence
  end.

Definition togglePlayMode (st : Player) : Player :=
  set_playMode (next_mode (playMode st)) st.

(** The identifiers [find] and [findIndex] compare: [String(s.id)]. *)
Definition queue_ids (q : list Song) : list string :=
  map (fun s => String_id (id s)) q.

(** How many audio contexts a log of effects has created, and closed. *)
Definition contexts_created (es : list Effect) : nat :=
  length (List.filter (fun e => match e with CtxCreate => true | _ => false end) es).

Definition contexts_closed (es : list Effect) : nat :=
  length (List.filter (fun e => match e with CtxClose => true | _ => false end) es).

(** *** Sessions *)

(** What can happen to a mounted provider: an event of the engine, or one
    of the controls it hands to the interface. *)
Inductive Action :=
| Engine (ev : Event)
| PlayNext (random : nat -> Q)          (* [playNext()], [force] defaults to [true] *)
| PlayPrev (random : nat -> Q)
| Seek (time : Q)
| AddToQueue (song : Song)
| RemoveFromQueue (songId : SongId)
| ClearQueue
| TogglePlayMode
| Timeupdate
| Waiting
| Canplay.

Definition perform (w : World) (fuel : nat) (act : Action) (st : Player)
    : option Player :=
  match act with
  | Engine ev => dispatch w fuel ev st
  | PlayNext random => playNext random fuel true st ≫= finish w fuel
  | PlayPrev random => finish w fuel (playPrev random st)
  | Seek time => Some (commit w (seek time st))
  | AddToQueue song => Some (commit w (addToQueue song st))
  | RemoveFromQueue songId => Some (commit w (removeFromQueue songId st))
  | ClearQueue => Some (commit w (clearQueue st))
  | TogglePlayMode => Some (commit w (togglePlayMode st))
  | Timeupdate => Some (commit w (handlers_timeupdate st))
  | Waiting => Some (commit w (handlers_waiting st))
  | Canplay => Some (commit w (handlers_canplay st))
  end.

Fixpoint session (w : World) (fuel : nat) (acts : list Action) (st : Player)
    : option Player :=
  match acts with
  | [] => Some st
  | act :: acts' => perform w fuel act st ≫= session w fuel acts'
  end.

(** *** Two calls of [playSong] in flight *)

(** [playSong(first)] is called and, while its resolution is awaited,
    [playSong(second)]; each call is still waiting when the next thing
    happens, so React has committed by then, as it has after each
    resumption.  The two resolutions settle in either order.  [None]: one
    of the calls returned before awaiting. *)
Definition overlapped (w : World) (first second : Song)
    (first_settles_last : bool) (st : Player) : option Player :=
  match playSong_begin w first None st with
  | (st1, Awaiting full1 same1 different1 appended1) =>
      let (resolved1, asked1) := resolve w first in
      let st1 := commit w (asking w asked1 st1) in
      match playSong_begin w second None st1 with
      | (st2, Awaiting full2 same2 different2 appended2) =>
          let (resolved2, asked2) := resolve w second in
          let st2 := commit w (asking w asked2 st2) in
          let resume1 :=
            playSong_resume w first full1 same1 different1 appended1 resolved1 in
          let resume2 :=
            playSong_resume w second full2 same2 different2 appended2 resolved2 in
          Some (if first_settles_last
                then commit w (resume1 (commit w (resume2 st2)))
                else commit w (resume2 (commit w (resume1 st2))))
      | _ => None
      end
  | _ => None
  end.

(** An iPhone on which both sources resolve. *)
Definition iphone : World :=
  {| location_href := "https://tunefree.app/";
     isIOS := true;
     hasMediaSession := true;
     webAudio := Some running;
     youtube_getAudioUrl := fun videoId =>
       Later (Api.Fulfilled (Some ("https://cdn/" +:+ videoId)));
     piped_getAudioUrl := fun videoId =>
       Later (Api.Fulfilled (Some ("https://piped/" +:+ videoId)));
     playStart := Started |}.

(** The provider right after mounting: [createAudioElement(false)] has run
    and nothing was restored from local storage. *)
Definition mounted : Player :=
  {| currentSong := None; isPlaying := false; isLoading := false;
     currentTime := 0%Q; duration := 0%Q;
     queue := []; playMode := sequence; audioQuality := "320k";
     audioRef := Some {| src := ""; a_currentTime := 0%Q; a_duration := 0%Q;
                         paused := true; crossOrigin := false |};
     audioCtxRef := None; audioCtxConnectedRef := false;
     currentSongRef := None; queueRef := [];
     playModeRef := sequence; audioQualityRef := "320k";
     retryCountRef := 0; effects := [NewAudio false];
     currentSongFresh := false; isPlayingRendered := false |}.

End Controls.

(** ** Refreshing the instance list (src/services/piped.ts) *)

Module PipedList.
Import Api Piped.

(** What [updateInstances] gets to see: no list URL is configured, [fetch]
    throws, or there is a response with its [ok] flag and the value
    [resp.json()] parses ([None] when parsing throws). *)
Inductive Remote :=
| NoListUrl
| FetchThrew
| Replied (ok : bool) (parsed : option Json).

(** [json.map(x => x.api_url)]; reading [api_url] off a [null] element
    throws ([None]).  An element without the property maps to
    [undefined], which the [filter(Boolean)] that follows drops. *)
Fixpoint api_urls (items : list Json) : option (list (option Json)) :=
  match items with
  | [] => Some []
  | JNull :: _ => None
  | x :: rest => cons (get "api_url" (Some x)) <$> api_urls rest
  end.

(** [.filter(Boolean)]. *)
Fixpoint truthy_ones (vs : list (option Json)) : list Json :=
  match vs with
  | [] => []
  | Some v :: rest => if truthy (Some v) then v :: truthy_ones rest
                      else truthy_ones rest
  | None :: rest => truthy_ones rest
  end.

(** The local [instances] after the two [if]s; [None]: a [TypeError]
    reached the [catch]. *)
Definition remote_instances (json : Json) : option (list Json) :=
  match json with
  | JArr (JStr s :: rest) => Some (JStr s :: rest)
  | JArr (JNull :: _) => None        (* [typeof null === 'object'], then [null.api_url] *)
  | JArr (JObj fields :: rest) =>
      if truthy (get "api_url" (Some (JObj fields)))
      then truthy_ones <$> api_urls (JObj fields :: rest)
      else Some []
  | _ => Some []
  end.

(** The list is typed [string[]]; what is loaded is whatever the remote
    document holds. *)
Fixpoint strings_of (vs : list Json) : option (list string) :=
  match vs with
  | [] => Some []
  | JStr s :: rest => cons s <$> strings_of rest
  | _ :: _ => None
  end.

(** [[...instances, ...PIPED_INSTANCES.filter(i => !instances.includes(i))]]. *)
Definition merge (instances old : list string) : list string :=
  (instances
   ++ List.filter (fun i => negb (existsb (String.eqb i) instances)) old)%list.

Inductive Updated :=
| Kept                              (* [PIPED_INSTANCES] is not assigned *)
| Replaced (reg : Registry)
| Untyped.                          (* the new list holds a value that is not a string *)

(** [updateInstances()], followed on its own.  Neither the cursor nor the
    broken table is touched. *)
Definition updateInstances (remote : Remote) (reg : Registry) : Updated :=
  match remote with
  | NoListUrl | FetchThrew => Kept
  | Replied false _ => Kept
  | Replied true None => Kept
  | Replied true (Some json) =>
      match remote_instances json with
      | None => Kept
      | Some [] => Kept
      | Some instances =>
          match strings_of instances with
          | None => Untyped
          | Some urls =>
              Replaced {| PIPED_INSTANCES := merge urls (PIPED_INSTANCES reg);
                          currentInstanceIndex := currentInstanceIndex reg;
                          BROKEN_INSTANCES := BROKEN_INSTANCES reg |}
          end
      end
  end.

(** The list served in the format of the public instance directory. *)
Definition directory : Json :=
  JArr [JObj [("name", JStr "adminforge"); ("api_url", JStr "https://pipedapi.adminforge.de")];
        JObj [("name", JStr "offline"); ("api_url", JStr "")];
        JObj [("name", JStr "moomoo"); ("api_url", JStr "https://pipedapi.moomoo.me")]].

End PipedList.

(** ** What the Piped client makes of a payload (src/services/piped.ts) *)

Module PipedData.
Import Api Piped.

(** [encodeURIComponent] on a string held as its UTF-8 bytes: the
    unreserved characters stand for themselves, every other byte becomes
    [%XX]. *)
Definition unreserved (c : ascii) : bool :=
  let n := nat_of_ascii c in
  (bool_decide (65 <= n)%nat && bool_decide (n <= 90)%nat)        (* A-Z *)
  || (bool_decide (97 <= n)%nat && bool_decide (n <= 122)%nat)    (* a-z *)
  || (bool_decide (48 <= n)%nat && bool_decide (n <= 57)%nat)     (* 0-9 *)
  || existsb (Ascii.eqb c)
       ["-"; "_"; "."; "!"; "~"; "*"; "'"; "("; ")"]%char.

Definition hex_digit (n : nat) : ascii :=
  if bool_decide (n < 10)%nat then ascii_of_nat (48 + n)
  else ascii_of_nat (65 + (n - 10)).

Fixpoint encodeURIComponent (s : string) : string :=
  match s with
  | EmptyString => EmptyString
  | String c rest =>
      if unreserved c then String c (encodeURIComponent rest)
      else String "%"%char
             (String (hex_digit (nat_of_ascii c / 16))
                (String (hex_digit (nat_of_ascii c mod 16))
                   (encodeURIComponent rest)))
  end.

(** The characters an encoded component consists of. *)
Definition url_safe (c : ascii) : bool := unreserved c || Ascii.eqb c "%".

(** The [Song] literal [searchAudio] builds; [source] is ['piped'] and
    [album] is [''] in every one.  The fields hold what the payload holds. *)
Record Entry := {
  e_id : Json;
  e_name : Json;
  e_artist : Json;
  e_pic : Json;
  e_duration : Json;
  e_videoId : Json;
  e_uploaderUrl : option Json;
  e_views : Json;
  e_uploaded : option Json
}.

(** The [filter] callback; reading [type] off a [null] item throws
    ([None]). *)
Definition is_song (item : Json) : option bool :=
  match item with
  | JNull => None
  | _ =>
      Some (match get "type" (Some item) with
            | Some (JStr type) => String.eqb type "stream"
            | _ => false
            end
            && truthy (get "videoId" (Some item))
            && truthy (get "title" (Some item)))
  end.

(** [items.filter(...)]; [None]: the callback threw. *)
Fixpoint songs_among (items : list Json) : option (list Json) :=
  match items with
  | [] => Some []
  | item :: rest =>
      match is_song item with
      | None => None
      | Some true => cons item <$> songs_among rest
      | Some false => songs_among rest
      end
  end.

(** [a || b] on a property that may be absent, with a default that is
    there. *)
Definition or_default (a : option Json) (b : Json) : Json :=
  if truthy a then default b a else b.

(** The [map] callback. *)
Definition entry_of (item : Json) : Entry :=
  let field k := get k (Some item) in
  {| e_id := default JNull (field "videoId");
     e_name := or_default (field "title") (JStr "Неизвестный трек");
     e_artist := or_default (field "uploader") (JStr "Неизвестный исполнитель");
     e_pic := or_default (field "thumbnail")
                (JStr ("https://i.ytimg.com/vi/" +:+ String_opt (field "videoId")
                       +:+ "/mqdefault.jpg"));
     e_duration := or_default (field "duration") (JNum 0);
     e_videoId := default JNull (field "videoId");
     e_uploaderUrl := field "uploaderUrl";
     e_views := or_default (field "views") (JNum 0);
     e_uploaded := field "uploaded" |}.

(** What [searchAudio] returns for a parsed body; every throw ends in the
    [catch], which returns [[]]. *)
Definition entries_of (data : Json) : list Entry :=
  match data with
  | JNull => []                                   (* [data.items] throws *)
  | _ =>
      match get "items" (Some data) with
      | Some (JArr items) =>
          match songs_among items with
          | Some songs => map entry_of (take 30 songs)
          | None => []
          end
      | _ => []
      end
  end.

Section Client.
Variable net : nat -> string -> FetchOutcome.
(** [response.json()]; [None] when it throws. *)
Variable json : Response -> option Json.
Variable now : Z.

Definition search_endpoint (query : string) : string :=
  "/search?q=" +:+ encodeURIComponent query +:+ "&filter=music_songs".

Definition searchAudio (query : string) (reg : Registry)
    : list Entry * Fetched :=
  let F := pipedFetch net (search_endpoint query) now reg in
  (match result F with
   | None => []
   | Some response =>
       match json response with
       | None => []
       | Some data => entries_of data
       end
   end, F).
End Client.

(** *** The best audio stream *)

(** The number [a.bitrate || 0] stands for in the comparator's
    subtraction.  [Beyond]: a non-empty string, an array or an object,
    whose conversion to a number is not followed here. *)
Inductive Bitrate :=
| Rate (n : Z)
| Beyond.

Definition bitrate_of (a : Json) : Bitrate :=
  match get "bitrate" (Some a) with
  | None | Some JNull => Rate 0
  | Some (JBool b) => Rate (if b then 1 else 0)
  | Some (JNum n) => Rate n
  | Some (JStr s) => if String.eqb s "" then Rate 0 else Beyond
  | Some (JArr _) | Some (JObj _) => Beyond
  end.

Definition rate (a : Json) : Z :=
  match bitrate_of a with
  | Rate n => n
  | Beyond => 0
  end.

(** [Array.prototype.sort] with the comparator
    [(a, b) => rank(b) - rank(a)]: the sort is stable, so the result is the
    one arrangement in descending rank that keeps equal elements in their
    order. *)
Fixpoint insert_desc (rank : Json -> Z) (x : Json) (sorted : list Json)
    : list Json :=
  match sorted with
  | [] => [x]
  | y :: rest =>
      if Z.ltb (rank x) (rank y) then y :: insert_desc rank x rest
      else x :: sorted
  end.

Fixpoint sort_desc (rank : Json -> Z) (l : list Json) : list Json :=
  match l with
  | [] => []
  | x :: rest => insert_desc rank x (sort_desc rank rest)
  end.

Record Info := {
  audioUrl : option Json;       (* [None] is [null] *)
  thumbnail : Json;
  title : Json;
  artist : Json;
  duration : Json
}.

Inductive Outcome :=
| Null                          (* [null]: no response, or the [catch] *)
| Got (info : Info)
| NotFollowed.                  (* a bitrate whose number is [Beyond] was compared *)

(** [data.audioStreams || []]; [None]: what is there is truthy and has no
    [sort] method, or [data] is [null]. *)
Definition streams_of (data : Json) : option (list Json) :=
  match data with
  | JNull => None
  | _ =>
      let v := get "audioStreams" (Some data) in
      if truthy v
      then match v with
           | Some (JArr items) => Some items
           | _ => None
           end
      else Some []
  end.

Definition is_null (a : Json) : bool :=
  match a with JNull => true | _ => false end.

Definition info_of (videoId : string) (data : Json) : Outcome :=
  match streams_of data with
  | None => Null
  | Some audioStreams =>
      let described (sorted : list Json) :=
        let bestAudio := head sorted in
        let url := bestAudio ≫= (fun a => get "url" (Some a)) in
        Got {| audioUrl := if truthy url then url else None;
               thumbnail := or_default (get "thumbnailUrl" (Some data))
                              (JStr ("https://i.ytimg.com/vi/" +:+ videoId
                                     +:+ "/maxresdefault.jpg"));
               title := or_default (get "title" (Some data))
                          (JStr "Неизвестный трек");
               artist := or_default (get "uploader" (Some data))
                           (JStr "Неизвестный исполнитель");
               duration := or_default (get "duration" (Some data)) (JNum 0) |} in
      if bool_decide (length audioStreams <= 1)%nat
      then described audioStreams       (* the comparator is not called *)
      else if existsb is_null audioStreams
      then Null                         (* [a.bitrate] on [null] throws *)
      else if forallb (fun a => match bitrate_of a with
                                | Rate _ => true
                                | Beyond => false
                                end) audioStreams
      then described (sort_desc rate audioStreams)
      else NotFollowed
  end.

Section Streams.
Variable net : nat -> string -> FetchOutcome.
Variable json : Response -> option Json.
Variable now : Z.

Definition getStreamInfo (videoId : string) (reg : Registry)
    : Outcome * Fetched :=
  let F := pipedFetch net ("/streams/" +:+ videoId) now reg in
  (match result F with
   | None => Null
   | Some response =>
       match json response with
       | None => Null
       | Some data => info_of videoId data
       end
   end, F).

(** [getAudioUrl]: [info?.audioUrl || null], where [audioUrl] is already a
    truthy value or [null]. *)
Definition getAudioUrl (videoId : string) (reg : Registry)
    : option (option Json) * Fetched :=
  let (info, F) := getStreamInfo videoId reg in
  (match info with
   | Null => Some None
   | Got i => Some (audioUrl i)
   | NotFollowed => None
   end, F).
End Streams.

(** A [/streams] payload with three audio streams. *)
Definition three_streams : Json :=
  JObj [("title", JStr "Song");
        ("audioStreams",
         JArr [JObj [("bitrate", JNum 64000); ("url", JStr "https://a/low")];
               JObj [("bitrate", JNum 160000); ("url", JStr "https://a/high")];
               JObj [("bitrate", JNum 160000); ("url", JStr "https://a/high2")]])].

(** A [/search] payload: a channel, a song, and a stream without title. *)
Definition found : Json :=
  JObj [("items",
         JArr [JObj [("type", JStr "channel"); ("name", JStr "Artist")];
               JObj [("type", JStr "stream"); ("videoId", JStr "abc");
                     ("title", JStr "Song"); ("uploader", JStr "Artist")];
               JObj [("type", JStr "stream"); ("videoId", JStr "def")]])].

End PipedData.

(** ** What the YouTube client makes of a track (src/services/youtube.ts) *)

Module Youtube.
Import Api.

(** The functions of the library module that [getAudioInfo] calls; a
    property that is missing (or cannot be called) is [None].  What they
    resolve to is taken as plain data, [None] for [undefined]. *)
Record Library := {
  getData : option (string -> Settled (option Json));
  getTrackData : option (string -> Settled (option Json))
}.

Inductive Call :=
| CallGetData (videoId : string)
| CallGetTrackData (videoId : string).

(** The [data] variable after the two guarded attempts, and the calls
    made. *)
Definition track_data (lib : Library) (videoId : string)
    : option Json * list Call :=
  let (first, calls) :=
    match getData lib with
    | Some f =>
        (match f videoId with
         | Fulfilled v => v
         | Rejected => Some JNull           (* [data] stays [null] *)
         end, [CallGetData videoId])
    | None => (Some JNull, [])
    end in
  if truthy first then (first, calls)
  else
    match getTrackData lib with
    | Some g =>
        (match g videoId with
         | Fulfilled v => v
         | Rejected => first
         end, (calls ++ [CallGetTrackData videoId])%list)
    | None => (first, calls)
    end.

(** [data.adaptiveFormats || data.formats || []]; [None]: the value has no
    [filter] method. *)
Definition formats_of (data : option Json) : option (list Json) :=
  let v := or_else (get "adaptiveFormats" data) (get "formats" data) in
  if truthy v
  then match v with
       | Some (JArr items) => Some items
       | _ => None
       end
  else Some [].

(** The callback [f => f.mimeType?.includes('audio') || f.audioQuality];
    [None]: it throws. *)
Definition is_audio (f : Json) : option bool :=
  match f with
  | JNull => None
  | _ =>
      let labelled := truthy (get "audioQuality" (Some f)) in
      match get "mimeType" (Some f) with
      | None | Some JNull => Some labelled
      | Some (JStr mimeType) => Some (includes "audio" mimeType || labelled)
      | Some (JArr items) =>
          Some (existsb (fun x => match x with
                                  | JStr s => String.eqb s "audio"
                                  | _ => false
                                  end) items
                || labelled)
      | Some (JBool _) | Some (JNum _) | Some (JObj _) => None
      end
  end.

Fixpoint audio_among (formats : list Json) : option (list Json) :=
  match formats with
  | [] => Some []
  | f :: rest =>
      match is_audio f with
      | None => None
      | Some true => cons f <$> audio_among rest
      | Some false => audio_among rest
      end
  end.

(** [qualityOrder.indexOf(a.audioQuality)]. *)
Definition tier (a : Json) : Z :=
  match get "audioQuality" (Some a) with
  | Some (JStr q) =>
      if String.eqb q "AUDIO_QUALITY_LOW" then 0
      else if String.eqb q "AUDIO_QUALITY_MEDIUM" then 1
      else if String.eqb q "AUDIO_QUALITY_HIGH" then 2
      else -1
  | _ => -1
  end.

(** [formats.find(f => f.url)?.url || null]. *)
Fixpoint first_url (formats : list Json) : option Json :=
  match formats with
  | [] => None
  | f :: rest =>
      if truthy (get "url" (Some f)) then get "url" (Some f) else first_url rest
  end.

(** [a || null]. *)
Definition or_null (a : option Json) : option Json :=
  if truthy a then a else None.

(** The [audioUrl] of the record [getAudioInfo] builds from [data]; [None]
    is [null], also when a throw reached the [catch].  The other fields of
    the record are read through optional chains and do not throw. *)
Definition audio_url_of (data : option Json) : option Json :=
  match formats_of data with
  | None => None
  | Some formats =>
      match audio_among formats with
      | None => None
      | Some audioFormats =>
          let sorted := PipedData.sort_desc tier audioFormats in
          let audioUrl :=
            match head sorted with
            | Some bestAudio =>
                or_null (or_else (get "url" (Some bestAudio))
                           (get "url" (get "signatureCipher" (Some bestAudio))))
            | None => None
            end in
          if negb (truthy audioUrl) && bool_decide (0 < length formats)%nat
          then first_url formats
          else audioUrl
      end
  end.

(** [getAudioUrl(videoId)], with the module as [loadYoutubeModule] returned
    it. *)
Definition getAudioUrl (module : option Library) (videoId : string)
    : option Json * list Call :=
  match module with
  | None => (None, [])
  | Some lib =>
      let (data, calls) := track_data lib videoId in
      (if negb (truthy data) then None else audio_url_of data, calls)
  end.

(** A track whose best audio format is ciphered. *)
Definition ciphered : Json :=
  JObj [("adaptiveFormats",
         JArr [JObj [("mimeType", JStr "video/mp4"); ("url", JStr "https://v/360p")];
               JObj [("mimeType", JStr "audio/webm");
                     ("audioQuality", JStr "AUDIO_QUALITY_LOW");
                     ("url", JStr "https://a/low")];
               JObj [("mimeType", JStr "audio/webm");
                     ("audioQuality", JStr "AUDIO_QUALITY_MEDIUM")]])].

End Youtube.

(** ** Playlists (services/api) *)

Module Playlists.
Import Api.

Definition is_id_char (c : ascii) : bool :=
  let n := nat_of_ascii c in
  (bool_decide (65 <= n)%nat && bool_decide (n <= 90)%nat)
  || (bool_decide (97 <= n)%nat && bool_decide (n <= 122)%nat)
  || (bool_decide (48 <= n)%nat && bool_decide (n <= 57)%nat)
  || Ascii.eqb c "_" || Ascii.eqb c "-".

(** [id.match(/^[A-Za-z0-9_-]{30,}$/)] is truthy. *)
Definition long_url_safe (id : string) : bool :=
  bool_decide (30 <= String.length id)%nat
  && forallb is_id_char (String.list_ascii_of_string id).

(** What the two source clients return for a playlist. *)
Record Playlist := {
  pl_name : string;
  pl_songs : list Song
}.

(** The lookups that leave [getPlaylistDetail], in the order they are
    made. *)
Inductive Ask :=
| AskPiped (id : string)                 (* piped.getPlaylistInfo(id) *)
| AskYoutube (id : string)               (* youtube.getPlaylistInfo(id) *)
| AskExecutor (platform id : string).    (* executeMethod(platform, 'playlist', { id }) *)

(** The two clients catch their own errors and return [null]; the
    executor of the legacy registry may also reject.  What it returns is
    taken as plain data. *)
Record Sources := {
  piped_getPlaylistInfo : string -> option Playlist;
  youtube_getPlaylistInfo : string -> option Playlist;
  executeMethod_playlist : string -> string -> Settled (option Json)
}.

Inductive Detail :=
| FromClient (p : Playlist)
| FromExecutor (name : string) (songs : list Normalized).

(** The tail of [getPlaylistDetail]: the legacy executor. *)
Definition legacy_detail (w : Sources) (random : nat -> string)
    (id platform : string) : Settled (option Detail) :=
  match executeMethod_playlist w platform id with
  | Rejected => Rejected
  | Fulfilled data =>
      if negb (truthy data) then Fulfilled None
      else
        let name :=
          or_else (get "name" data)
            (or_else (get "name" (get "info" data))
               (or_else (get "name" (get "playlist" data))
                        (Some (JStr "Плейлист")))) in
        match normalizeSongs random (extractList data) platform with
        | None => Rejected
        | Some songs => Fulfilled (Some (FromExecutor (String_opt name) songs))
        end
  end.

(** [getPlaylistDetail(id, platform)].  Playlist ids are ASCII, so
    [String.length] is the [id.length] JavaScript counts. *)
Definition getPlaylistDetail (w : Sources) (random : nat -> string)
    (id platform : string) : Settled (option Detail) * list Ask :=
  let try_piped :=
    String.eqb platform "piped" || startsWith "OLAK" id || long_url_safe id in
  let try_youtube :=
    String.eqb platform "youtube" || startsWith "PL" id
    || bool_decide (20 < String.length id)%nat in
  let asked1 := if try_piped then [AskPiped id] else [] in
  match (if try_piped then piped_getPlaylistInfo w id else None) with
  | Some result => (Fulfilled (Some (FromClient result)), asked1)
  | None =>
      let asked2 := (asked1 ++ if try_youtube then [AskYoutube id] else [])%list in
      match (if try_youtube then youtube_getPlaylistInfo w id else None) with
      | Some result => (Fulfilled (Some (FromClient result)), asked2)
      | None =>
          (legacy_detail w random id platform,
           (asked2 ++ [AskExecutor platform id])%list)
      end
  end.

(** Sources of which only Piped knows the playlist. *)
Definition piped_only : Sources :=
  {| piped_getPlaylistInfo := fun _ => Some {| pl_name := "Mix"; pl_songs := [] |};
     youtube_getPlaylistInfo := fun _ => None;
     executeMethod_playlist := fun _ _ => Fulfilled None |}.

End Playlists.

(** ** Search history (pages/Search) *)

Module SearchPage.

(** The updater of [addToHistory(term)], preceded by its guard
    [!term || !term.trim()]. *)
Definition addToHistory (term : string) (prev : list string) : list string :=
  if String.eqb term "" || String.eqb (trim term) "" then prev
  else take 15 (term :: List.filter (fun h => negb (String.eqb h term)) prev).

End SearchPage.

(** * Properties *)

(** ** Strings *)

Lemma length_append (a e : string) :
  String.length (a +:+ e) = (String.length a + String.length e)%nat.
Proof. induction a as [|c a IH]; simpl; [done | by rewrite IH]. Qed.

Lemma append_inj_r (a b e : string) : a +:+ e = b +:+ e -> a = b.
Proof.
  intros H.
  assert (String.length a = String.length b) as Hlen.
  { apply (f_equal String.length) in H. rewrite !length_append in H. lia. }
  revert b H Hlen. induction a as [|c a IH]; intros [|d b]; simpl; try done.
  intros [= -> H] [= Hlen]. f_equal. by apply IH.
Qed.

(** [trim] on a few strings: white space of one, two and three bytes goes
    from both ends and stays inside; U+200B, which is no white space, stays
    where it is. *)
Example trim_examples :
  trim (" " +:+ no_break_space +:+ "a" +:+ ideographic_space +:+ "b"
        +:+ String "009"%char ideographic_space)
  = "a" +:+ ideographic_space +:+ "b"
  /\ trim (ideographic_space +:+ no_break_space +:+ " ") = ""
  /\ trim (String "226"%char (String "128"%char (String "139"%char "a ")))
     = String "226"%char (String "128"%char (String "139"%char "a"))
  /\ trim "" = "".
Proof. repeat split. Qed.

(** ** Piped client *)

Section PipedFacts.
Import Piped.

Lemma healthy_unmarked broken now inst :
  broken !! inst = None -> healthy broken now inst = true.
Proof. intros H. unfold healthy. by rewrite H. Qed.

Lemma healthy_marked broken now inst t :
  broken !! inst = Some t ->
  healthy broken now inst = true <-> t + BROKEN_TIMEOUT < now.
Proof.
  intros H. unfold healthy. rewrite H, bool_decide_eq_true. lia.
Qed.

Lemma elem_of_available reg now inst :
  inst ∈ available reg now <->
  inst ∈ PIPED_INSTANCES reg /\ healthy (BROKEN_INSTANCES reg) now inst = true.
Proof.
  unfold available. rewrite !list_elem_of_In, filter_In. tauto.
Qed.

Lemma isAvailable_true reg now :
  isAvailable reg now = true <->
  exists inst, inst ∈ PIPED_INSTANCES reg
               /\ healthy (BROKEN_INSTANCES reg) now inst = true.
Proof.
  unfold isAvailable. rewrite existsb_exists.
  split; intros (inst & Hin & Hh); exists inst; split; try done;
    by apply list_elem_of_In.
Qed.

Lemma isAvailable_available reg now :
  isAvailable reg now = true <-> available reg now <> [].
Proof.
  rewrite isAvailable_true. split.
  - intros (inst & Hin & Hh) Hnil.
    assert (inst ∈ available reg now) as Hav by (by apply elem_of_available).
    rewrite Hnil in Hav. by apply not_elem_of_nil in Hav.
  - intros Hne. destruct (available reg now) as [|inst rest] eqn:E; [done|].
    exists inst. apply elem_of_available. rewrite E. apply list_elem_of_here.
Qed.

Lemma indexOf_Some l x i :
  indexOf l x = Some i ->
  l !! i = Some x /\ forall j y, (j < i)%nat -> l !! j = Some y -> y <> x.
Proof.
  revert i. induction l as [|y l IH]; intros i; simpl; [done|].
  destruct (decide (y = x)) as [->|Hne].
  - intros [= <-]. split; [done|]. intros; lia.
  - destruct (indexOf l x) as [k|] eqn:E; simpl; [|done].
    intros [= <-]. destruct (IH k eq_refl) as [Hk Hfirst]. split; [done|].
    intros [|j] z Hj; simpl.
    + by intros [= <-].
    + apply Hfirst. lia.
Qed.

Lemma indexOf_None l x : indexOf l x = None <-> x ∉ l.
Proof.
  induction l as [|y l IH]; simpl.
  - split; [intros _; apply not_elem_of_nil | done].
  - rewrite not_elem_of_cons. destruct (decide (y = x)) as [->|Hne].
    + split; [done | intros [? _]; done].
    + destruct (indexOf l x) eqn:E; simpl.
      * split; [done|]. intros [_ Hx]. by apply IH in Hx.
      * split; [|done]. intros _. split; [congruence | by apply IH].
Qed.

Lemma startIndex_lt reg avail :
  avail <> [] -> (startIndex reg avail < length avail)%nat.
Proof.
  intros Hne. unfold startIndex.
  assert (0 < length avail)%nat by (destruct avail; simpl; [done | lia]).
  destruct (PIPED_INSTANCES reg !! _) as [orig|]; [|done].
  destruct (indexOf avail orig) as [i|] eqn:E; [|done].
  apply indexOf_Some in E as [E _]. by apply lookup_lt_Some in E.
Qed.

(** The instance the cursor points at, if the list has one. *)
Lemma startIndex_healthy reg now orig :
  PIPED_INSTANCES reg
    !! (currentInstanceIndex reg mod length (PIPED_INSTANCES reg))%nat = Some orig ->
  healthy (BROKEN_INSTANCES reg) now orig = true ->
  available reg now !! startIndex reg (available reg now) = Some orig.
Proof.
  intros Horig Hh. unfold startIndex. rewrite Horig.
  destruct (indexOf (available reg now) orig) as [i|] eqn:E.
  - by apply indexOf_Some in E as [E _].
  - apply indexOf_None in E. exfalso. apply E, elem_of_available.
    split; [|done]. by eapply list_elem_of_lookup_2.
Qed.

Lemma startIndex_unhealthy reg now orig :
  PIPED_INSTANCES reg
    !! (currentInstanceIndex reg mod length (PIPED_INSTANCES reg))%nat = Some orig ->
  healthy (BROKEN_INSTANCES reg) now orig = false ->
  startIndex reg (available reg now) = 0%nat.
Proof.
  intros Horig Hh. unfold startIndex. rewrite Horig.
  destruct (indexOf (available reg now) orig) as [i|] eqn:E; [|done].
  apply indexOf_Some in E as [E _].
  apply list_elem_of_lookup_2, elem_of_available in E as [_ E]. congruence.
Qed.

Lemma judge_Accept o r :
  judge o = Accept r <-> o = Answered r /\ acceptable r.
Proof.
  unfold judge, acceptable, ok, is_redirect. destruct o as [r'|].
  - destruct (is_json r') eqn:Hj; simpl; repeat case_bool_decide; simpl;
      (split; [intros [= <-] | intros [[= <-] [? ?]]]);
      first [done | lia | congruence | (split; [done | split; [lia | done]])].
  - split; [done | by intros [? _]].
Qed.

Lemma judge_Reject o : judge o = Reject <-> ~ answers_well o.
Proof.
  unfold answers_well. split.
  - intros Hj (r & -> & Hr).
    assert (judge (Answered r) = Accept r) by (by apply judge_Accept).
    congruence.
  - intros Hn. destruct (judge o) as [r|] eqn:E; [|done].
    apply judge_Accept in E as [-> Hr]. exfalso. apply Hn. by exists r.
Qed.

Lemma acceptable_not_redirect r : acceptable r -> ~ (300 <= status r < 400).
Proof. intros [? _]. lia. Qed.
(** The loop index arithmetic visits the rotated list in order. *)
Lemma rotation_lookup (avail : list string) start i :
  (i < length avail)%nat ->
  avail !! ((start + i) mod length avail)%nat = rotate start avail !! i.
Proof.
  intros Hi. rewrite lookup_rotate_r by done. f_equal.
  unfold rotate_nat_add.
  rewrite <- Nat2Z.inj_add, <- Nat2Z.inj_mod. by rewrite Nat2Z.id.
Qed.

Section Loop.
Variable net : nat -> string -> FetchOutcome.
Variable endpoint : string.
Variable now : Z.
Variables instances avail : list string.
Variable start : nat.

Let order := rotate start avail.
Let url (inst : string) := inst +:+ endpoint.

Lemma attempt_instances remaining i cursor broken log :
  PIPED_INSTANCES (registry (attempt net endpoint now instances avail start
                               remaining i cursor broken log)) = instances.
Proof.
  revert i broken log. induction remaining as [|n IH]; intros i broken log; simpl.
  - done.
  - destruct (avail !! _) as [inst|]; [|done].
    destruct (judge _); [done | apply IH].
Qed.

(** A mark set at [now] stays: later iterations only write [now]. *)
Lemma attempt_keeps_mark remaining i cursor broken log x :
  broken !! x = Some now ->
  BROKEN_INSTANCES (registry (attempt net endpoint now instances avail start
                                remaining i cursor broken log)) !! x = Some now.
Proof.
  revert i broken log.
  induction remaining as [|n IH]; intros i broken log Hx; simpl; [done|].
  destruct (avail !! _) as [inst|]; [|done].
  destruct (judge _); [done|]. apply IH.
  destruct (decide (inst = x)) as [->|Hne].
  - by rewrite lookup_insert_eq.
  - by rewrite lookup_insert_ne.
Qed.

(** Only what [judge] accepts is returned. *)
Lemma attempt_result_accepted remaining i cursor broken log r :
  result (attempt net endpoint now instances avail start
            remaining i cursor broken log) = Some r ->
  acceptable r.
Proof.
  revert i broken log.
  induction remaining as [|n IH]; intros i broken log; simpl; [done|].
  destruct (avail !! _) as [inst|]; [|done].
  destruct (judge _) as [r'|] eqn:E.
  - simpl. intros [= <-]. by apply judge_Accept in E as [_ ?].
  - apply IH.
Qed.

(** The loop from iteration [i] on, when iteration [g] is the first whose
    answer is accepted. *)
Lemma attempt_first_accepted remaining i cursor broken log g inst r :
  (i + remaining = length avail)%nat ->
  (i <= g)%nat ->
  order !! g = Some inst ->
  judge (net g (url inst)) = Accept r ->
  (forall j inst', (i <= j < g)%nat -> order !! j = Some inst' ->
                   judge (net j (url inst')) = Reject) ->
  let F := attempt net endpoint now instances avail start
             remaining i cursor broken log in
  result F = Some r
  /\ requests F = (log ++ map url (take (S g - i) (drop i order)))%list
  /\ (forall j inst', (i <= j < g)%nat -> order !! j = Some inst' ->
                      BROKEN_INSTANCES (registry F) !! inst' = Some now).
Proof.
  assert (length order = length avail) as Hlen by apply length_rotate.
  revert i broken log.
  induction remaining as [|n IH]; intros i broken log Hsum Hig Hg Hacc Hrej.
  - apply lookup_lt_Some in Hg. lia.
  - assert (i < length avail)%nat as Hi by lia.
    destruct (lookup_lt_is_Some_2 order i) as [inst_i Hinst_i]; [lia|].
    simpl. rewrite rotation_lookup by done. fold order. rewrite Hinst_i.
    rewrite (drop_S _ _ _ Hinst_i).
    destruct (decide (i = g)) as [->|Hne].
    + assert (inst_i = inst) as -> by congruence.
      fold (url inst). rewrite Hacc. simpl.
      replace (S g - g)%nat with 1%nat by lia. simpl. rewrite ?take_0.
      split; [done|]. split; [done|]. intros; lia.
    + fold (url inst_i). rewrite (Hrej i inst_i) by (done || lia).
      destruct (IH (S i) (<[inst_i := now]> broken) (log ++ [url inst_i])%list)
        as (Hres & Hreq & Hbroken); try done; try lia.
      { intros j inst' Hj. apply Hrej. lia. }
      split; [done|]. split.
      * rewrite Hreq. replace (S g - i)%nat with (S (S g - S i)) by lia.
        simpl. by rewrite <- app_assoc.
      * intros j inst' Hj Hj'. destruct (decide (j = i)) as [->|Hji].
        -- assert (inst' = inst_i) as -> by congruence.
           apply attempt_keeps_mark. by rewrite lookup_insert_eq.
        -- apply (Hbroken j); [lia | done].
Qed.

(** The loop from iteration [i] on, when every answer is rejected. *)
Lemma attempt_all_rejected remaining i cursor broken log :
  (i + remaining = length avail)%nat ->
  (forall j inst', (i <= j)%nat -> order !! j = Some inst' ->
                   judge (net j (url inst')) = Reject) ->
  let F := attempt net endpoint now instances avail start
             remaining i cursor broken log in
  result F = None
  /\ requests F = (log ++ map url (drop i order))%list
  /\ (forall j inst', (i <= j)%nat -> order !! j = Some inst' ->
                      BROKEN_INSTANCES (registry F) !! inst' = Some now).
Proof.
  assert (length order = length avail) as Hlen by apply length_rotate.
  revert i broken log.
  induction remaining as [|n IH]; intros i broken log Hsum Hrej.
  - simpl. split; [done|]. split.
    + rewrite drop_ge by lia. by rewrite app_nil_r.
    + intros j inst' Hj Hj'. apply lookup_lt_Some in Hj'. lia.
  - assert (i < length avail)%nat as Hi by lia.
    destruct (lookup_lt_is_Some_2 order i) as [inst_i Hinst_i]; [lia|].
    simpl. rewrite rotation_lookup by done. fold order. rewrite Hinst_i.
    rewrite (drop_S _ _ _ Hinst_i).
    fold (url inst_i). rewrite (Hrej i inst_i) by (done || lia).
    destruct (IH (S i) (<[inst_i := now]> broken) (log ++ [url inst_i])%list)
      as (Hres & Hreq & Hbroken); try lia.
    { intros j inst' Hj. apply Hrej. lia. }
    split; [done|]. split.
    + rewrite Hreq. simpl. by rewrite <- app_assoc.
    + intros j inst' Hj Hj'. destruct (decide (j = i)) as [->|Hji].
      * assert (inst' = inst_i) as -> by congruence.
        apply attempt_keeps_mark. by rewrite lookup_insert_eq.
      * apply (Hbroken j); [lia | done].
Qed.
End Loop.

End PipedFacts.

Lemma attempt_requests_available net endpoint now instances avail start
    remaining i cursor broken log u :
  u ∈ Piped.requests (Piped.attempt net endpoint now instances avail start
                        remaining i cursor broken log) ->
  u ∈ log \/ exists inst, inst ∈ avail /\ u = inst +:+ endpoint.
Proof.
  revert i broken log.
  induction remaining as [|n IH]; intros i broken log; simpl; [by left|].
  destruct (avail !! _) as [inst|] eqn:E; [|by left].
  assert (inst ∈ avail) as Hin by (by eapply list_elem_of_lookup_2).
  destruct (Piped.judge _); simpl.
  - rewrite elem_of_app, list_elem_of_singleton. intros [?| ->]; [by left|].
    right. by exists inst.
  - intros Hu. apply IH in Hu as [Hu|?]; [|by right].
    apply elem_of_app in Hu as [?|Hu]; [by left|].
    apply list_elem_of_singleton in Hu as ->. right. by exists inst.
Qed.

Lemma pipedFetch_unfold net endpoint now reg :
  Piped.available reg now <> [] ->
  Piped.pipedFetch net endpoint now reg =
  Piped.attempt net endpoint now (Piped.PIPED_INSTANCES reg)
    (Piped.available reg now)
    (Piped.startIndex reg (Piped.available reg now))
    (length (Piped.available reg now)) 0
    (Piped.currentInstanceIndex reg) (Piped.BROKEN_INSTANCES reg) [].
Proof.
  intros Hne. unfold Piped.pipedFetch.
  by destruct (Piped.available reg now).
Qed.

Lemma pipedFetch_requests_available net endpoint now reg u :
  u ∈ Piped.requests (Piped.pipedFetch net endpoint now reg) ->
  exists inst, inst ∈ Piped.available reg now /\ u = inst +:+ endpoint.
Proof.
  destruct (decide (Piped.available reg now = [])) as [E|E].
  - unfold Piped.pipedFetch. rewrite E. simpl.
    intros Hu. by apply not_elem_of_nil in Hu.
  - rewrite pipedFetch_unfold by done.
    intros Hu. apply attempt_requests_available in Hu as [Hu|?]; [|done].
    by apply not_elem_of_nil in Hu.
Qed.

(** C1.  With a non-empty healthy subset, [pipedFetch] walks that subset in
    rotation order, starting at the cursor's instance when it is healthy and
    at the first healthy instance otherwise.  It returns the response of the
    first instance whose answer has a 2xx status and an [application/json]
    content type, after requesting exactly the instances up to that one and
    marking each earlier one broken at the time of the call.  A response it
    returns is never a redirect, never of another content type and never of
    a non-2xx status; when no instance answers that way the result is
    [null] and every instance tried is marked broken. *)
Theorem pipedFetch_first_acceptable net endpoint now reg :
  Piped.available reg now <> [] ->
  let F := Piped.pipedFetch net endpoint now reg in
  let order := Piped.rotation reg now in
  let url := fun inst : string => inst +:+ endpoint in
  (exists orig,
      Piped.PIPED_INSTANCES reg
        !! (Piped.currentInstanceIndex reg
            mod length (Piped.PIPED_INSTANCES reg))%nat = Some orig
      /\ head order =
         if Piped.healthy (Piped.BROKEN_INSTANCES reg) now orig
         then Some orig else head (Piped.available reg now))
  /\ (forall g inst r,
        order !! g = Some inst ->
        net g (url inst) = Piped.Answered r ->
        Piped.acceptable r ->
        (forall j inst', (j < g)%nat -> order !! j = Some inst' ->
                         ~ Piped.answers_well (net j (url inst'))) ->
        Piped.result F = Some r
        /\ Piped.requests F = map url (take (S g) order)
        /\ forall j inst', (j < g)%nat -> order !! j = Some inst' ->
             Piped.BROKEN_INSTANCES (Piped.registry F) !! inst' = Some now)
  /\ (forall r, Piped.result F = Some r ->
        (200 <= Piped.status r <= 299)
        /\ Piped.is_json r = true
        /\ ~ (300 <= Piped.status r < 400))
  /\ ((forall j inst', order !! j = Some inst' ->
                       ~ Piped.answers_well (net j (url inst'))) ->
      Piped.result F = None
      /\ Piped.requests F = map url order
      /\ forall j inst', order !! j = Some inst' ->
           Piped.BROKEN_INSTANCES (Piped.registry F) !! inst' = Some now).
Proof.
  intros Hne F order url.
  pose proof (startIndex_lt reg _ Hne) as Hstart.
  assert (head order = Piped.available reg now
                         !! Piped.startIndex reg (Piped.available reg now))
    as Hhead.
  { unfold order, Piped.rotation. rewrite head_lookup.
    rewrite <- rotation_lookup by lia.
    by rewrite Nat.add_0_r, Nat.mod_small. }
  subst F. rewrite pipedFetch_unfold by done.
  split; [|split; [|split]].
  - assert (Piped.PIPED_INSTANCES reg <> []) as Hinst.
    { intros Hnil. apply Hne. unfold Piped.available. by rewrite Hnil. }
    destruct (lookup_lt_is_Some_2 (Piped.PIPED_INSTANCES reg)
                (Piped.currentInstanceIndex reg
                 mod length (Piped.PIPED_INSTANCES reg))%nat) as [orig Horig].
    { apply Nat.mod_upper_bound. by destruct (Piped.PIPED_INSTANCES reg). }
    exists orig. split; [done|]. rewrite Hhead.
    destruct (Piped.healthy _ now orig) eqn:Hh.
    + by apply startIndex_healthy.
    + rewrite (startIndex_unhealthy reg now orig) by done.
      by rewrite head_lookup.
  - intros g inst r Hg Hnet Hacc Hbad.
    assert (Piped.judge (net g (inst +:+ endpoint)) = Piped.Accept r) as Hjudge.
    { apply judge_Accept. split; [exact Hnet | done]. }
    assert (forall j inst', (0 <= j < g)%nat ->
              rotate (Piped.startIndex reg (Piped.available reg now))
                     (Piped.available reg now) !! j = Some inst' ->
              Piped.judge (net j (inst' +:+ endpoint)) = Piped.Reject) as Hrej.
    { intros j inst' Hj Hj'. apply judge_Reject, (Hbad j); [lia | done]. }
    destruct (attempt_first_accepted net endpoint now
                (Piped.PIPED_INSTANCES reg) (Piped.available reg now)
                (Piped.startIndex reg (Piped.available reg now))
                (length (Piped.available reg now)) 0
                (Piped.currentInstanceIndex reg) (Piped.BROKEN_INSTANCES reg)
                [] g inst r eq_refl (Nat.le_0_l g) Hg Hjudge Hrej)
      as (Hres & Hreq & Hbroken).
    split; [done|]. split.
    + rewrite Hreq. by rewrite drop_0.
    + intros j inst' Hj. apply Hbroken. lia.
  - intros r Hres. apply attempt_result_accepted in Hres.
    destruct Hres as [Hst Hj]. split; [done|]. split; [done|]. lia.
  - intros Hbad.
    assert (forall j inst', (0 <= j)%nat ->
              rotate (Piped.startIndex reg (Piped.available reg now))
                     (Piped.available reg now) !! j = Some inst' ->
              Piped.judge (net j (inst' +:+ endpoint)) = Piped.Reject) as Hrej.
    { intros j inst' _ Hj'. by apply judge_Reject, (Hbad j). }
    destruct (attempt_all_rejected net endpoint now
                (Piped.PIPED_INSTANCES reg) (Piped.available reg now)
                (Piped.startIndex reg (Piped.available reg now))
                (length (Piped.available reg now)) 0
                (Piped.currentInstanceIndex reg) (Piped.BROKEN_INSTANCES reg)
                [] eq_refl Hrej) as (Hres & Hreq & Hbroken).
    split; [done|]. split.
    + rewrite Hreq. simpl. by rewrite drop_0.
    + intros j inst' Hj. apply (Hbroken j); [lia | done].
Qed.

(** C7.  An instance marked broken at time [T] is outside the healthy subset
    [pipedFetch] routes over, never requested by it, and not counted by
    [isAvailable], at every time up to and including [T + 5 minutes]; at
    every later time it is in the healthy subset again and [isAvailable]
    holds, on the very same registry (broken table and cursor untouched). *)
Theorem broken_window reg inst T now :
  Piped.BROKEN_INSTANCES reg !! inst = Some T ->
  inst ∈ Piped.PIPED_INSTANCES reg ->
  (inst ∈ Piped.available reg now <-> T + 1000 * 60 * 5 < now)
  /\ (now <= T + 1000 * 60 * 5 ->
      (forall net endpoint,
          inst +:+ endpoint
            ∉ Piped.requests (Piped.pipedFetch net endpoint now reg))
      /\ (Piped.isAvailable reg now = true <->
          exists other, other ∈ Piped.PIPED_INSTANCES reg /\ other <> inst
            /\ Piped.healthy (Piped.BROKEN_INSTANCES reg) now other = true))
  /\ (T + 1000 * 60 * 5 < now -> Piped.isAvailable reg now = true).
Proof.
  intros HT Hin.
  assert (Piped.healthy (Piped.BROKEN_INSTANCES reg) now inst = true
          <-> T + 1000 * 60 * 5 < now) as Hh.
  { rewrite (healthy_marked _ _ _ T) by done. unfold Piped.BROKEN_TIMEOUT. lia. }
  split; [|split].
  - rewrite elem_of_available. tauto.
  - intros Hnow. split.
    + intros net endpoint Hreq.
      apply pipedFetch_requests_available in Hreq as (inst' & Hav & Heq).
      apply append_inj_r in Heq. subst inst'.
      apply elem_of_available in Hav as [_ Hav]. apply Hh in Hav. lia.
    + rewrite isAvailable_true. split.
      * intros (other & Ho & Hho). exists other. split; [done|]. split; [|done].
        intros ->. apply Hh in Hho. lia.
      * intros (other & Ho & _ & Hho). by exists other.
  - intros Hnow. apply isAvailable_true. exists inst. split; [done|]. by apply Hh.
Qed.

(** C8.  When every instance of the pool is marked broken and the mark is
    not older than five minutes, [pipedFetch] returns [null], issues no
    request, and leaves the registry as it was. *)
Theorem pipedFetch_all_broken net endpoint now reg :
  (forall inst, inst ∈ Piped.PIPED_INSTANCES reg ->
     exists t, Piped.BROKEN_INSTANCES reg !! inst = Some t
               /\ now <= t + 1000 * 60 * 5) ->
  Piped.pipedFetch net endpoint now reg =
  {| Piped.result := None; Piped.registry := reg; Piped.requests := [] |}.
Proof.
  intros Hall.
  assert (Piped.available reg now = []) as Hnil.
  { destruct (Piped.available reg now) as [|inst rest] eqn:E; [done|].
    assert (inst ∈ Piped.available reg now) as Hin
      by (rewrite E; apply list_elem_of_here).
    apply elem_of_available in Hin as [Hin Hh].
    destruct (Hall inst Hin) as (t & Ht & Hnow).
    apply (healthy_marked _ _ _ t) in Hh; [|done].
    unfold Piped.BROKEN_TIMEOUT in Hh. lia. }
  unfold Piped.pipedFetch. by rewrite Hnil.
Qed.

Lemma pipedFetch_first_acceptable_witness :
  Piped.result (Piped.pipedFetch Piped.flaky "/streams/abc" 200000 Piped.pool)
  = Some Piped.stream_json.
Proof.
  assert (Piped.available Piped.pool 200000 <> []) as Hne
    by (vm_compute; discriminate).
  destruct (pipedFetch_first_acceptable Piped.flaky "/streams/abc" 200000
              Piped.pool Hne) as (_ & Hfirst & _).
  refine (proj1 (Hfirst 1%nat Piped.hypercrab Piped.stream_json _ _ _ _)).
  - vm_compute. reflexivity.
  - vm_compute. reflexivity.
  - split; [vm_compute; split; discriminate | vm_compute; reflexivity].
  - intros j inst' Hj Hlook (r & Hr & [Hst _]).
    destruct j as [|j]; [|lia].
    vm_compute in Hlook. injection Hlook as <-.
    vm_compute in Hr. injection Hr as <-.
    simpl in Hst. lia.
Defined.

Lemma broken_window_witness :
  (Piped.moomoo ∈ Piped.available Piped.pool 301000 <-> 1000 + 1000 * 60 * 5 < 301000)
  /\ (Piped.moomoo ∈ Piped.available Piped.pool 301001 <-> 1000 + 1000 * 60 * 5 < 301001)
  /\ Piped.isAvailable Piped.pool 301001 = true.
Proof.
  assert (Piped.BROKEN_INSTANCES Piped.pool !! Piped.moomoo = Some 1000) as HT
    by (vm_compute; reflexivity).
  assert (Piped.moomoo ∈ Piped.PIPED_INSTANCES Piped.pool) as Hin
    by (apply list_elem_of_here).
  split; [|split].
  - exact (proj1 (broken_window Piped.pool Piped.moomoo 1000 301000 HT Hin)).
  - exact (proj1 (broken_window Piped.pool Piped.moomoo 1000 301001 HT Hin)).
  - apply (proj2 (proj2 (broken_window Piped.pool Piped.moomoo 1000 301001 HT Hin))).
    lia.
Defined.

Lemma pipedFetch_all_broken_witness :
  Piped.pipedFetch Piped.flaky "/streams/abc" 200000 Piped.dead_pool =
  {| Piped.result := None; Piped.registry := Piped.dead_pool;
     Piped.requests := [] |}.
Proof.
  apply pipedFetch_all_broken.
  intros inst Hin. apply list_elem_of_In in Hin. simpl in Hin.
  destruct Hin as [<-|[<-|[<-|[]]]].
  - exists 1000. split; [vm_compute; reflexivity | lia].
  - exists 2000. split; [vm_compute; reflexivity | lia].
  - exists 3000. split; [vm_compute; reflexivity | lia].
Defined.

(** ** Aggregator *)

Section AggregateFacts.
Import Api.
Variable toLowerCase : string -> string.

(** The string a value stands for, [""] when it is none. *)
Let text (v : option Json) : string :=
  match v with
  | Some (JStr s) => s
  | _ => ""
  end.

(** The composite key of a record whose [name] and [artist] are strings. *)
Let key (song : Json) : string :=
  toLowerCase (text (get "name" (Some song))) +:+ "|"
  +:+ toLowerCase (text (get "artist" (Some song))).

Let typed (song : Json) : Prop :=
  exists n a, get "name" (Some song) = Some (JStr n)
              /\ get "artist" (Some song) = Some (JStr a).

Lemma key_of_typed song : typed song -> key_of toLowerCase song = Some (key song).
Proof.
  intros (n & a & Hn & Ha). unfold key_of, key, lowered.
  by rewrite Hn, Ha.
Qed.

Lemma key_of_untyped song : ~ typed song -> key_of toLowerCase song = None.
Proof.
  intros Hno. unfold key_of, lowered.
  destruct (get "name" (Some song)) as [[| | |n| |]|] eqn:Hn; try done.
  destruct (get "artist" (Some song)) as [[| | |a| |]|] eqn:Ha; try done.
  exfalso. apply Hno. by exists n, a.
Qed.

Lemma typed_dec song : typed song \/ ~ typed song.
Proof.
  unfold typed.
  destruct (get "name" (Some song)) as [[| | |n| |]|];
    try (right; intros (? & ? & ? & ?); congruence).
  destruct (get "artist" (Some song)) as [[| | |a| |]|];
    try (right; intros (? & ? & ? & ?); congruence).
  left. by exists n, a.
Qed.

Lemma has_spec k (uniqueMap : list (string * Json)) :
  has k uniqueMap = true <-> k ∈ map fst uniqueMap.
Proof.
  unfold has. rewrite existsb_exists, list_elem_of_fmap. split.
  - intros ([k' s] & Hin & Heq). apply String.eqb_eq in Heq. simpl in Heq.
    subst k'. exists (k, s). split; [done | by apply list_elem_of_In].
  - intros ([k' s] & -> & Hin). exists (k', s).
    split; [by apply list_elem_of_In | apply String.eqb_refl].
Qed.

(** On records that carry strings the loop runs through, and the
    insertion-ordered map, read back, is the list of first entries. *)
Lemma remember_typed (songs : list Json) (uniqueMap : list (string * Json)) :
  Forall typed songs ->
  exists uniqueMap',
    remember toLowerCase songs uniqueMap = Some uniqueMap'
    /\ map snd uniqueMap'
       = (map snd uniqueMap
          ++ first_of_each_key key (map fst uniqueMap) songs)%list.
Proof.
  revert uniqueMap. induction songs as [|song rest IH]; intros uniqueMap Hall.
  - exists uniqueMap. simpl. by rewrite app_nil_r.
  - apply Forall_cons in Hall as [Hsong Hrest]. cbn [remember first_of_each_key].
    rewrite (key_of_typed _ Hsong).
    destruct (has (key song) uniqueMap) eqn:Hhas.
    + apply has_spec in Hhas. rewrite bool_decide_eq_true_2 by done.
      by apply IH.
    + assert (key song ∉ map fst uniqueMap) as Hnot.
      { intros Hin. apply has_spec in Hin. congruence. }
      rewrite bool_decide_eq_false_2 by done.
      destruct (IH (uniqueMap ++ [(key song, song)])%list Hrest)
        as (uniqueMap' & Hrun & Hread).
      exists uniqueMap'. split; [done|]. rewrite Hread, !map_app. simpl.
      by rewrite <- app_assoc.
Qed.

(** A record whose [name] or [artist] is not a string stops the loop. *)
Lemma remember_untyped (songs : list Json) (uniqueMap : list (string * Json)) :
  ~ Forall typed songs -> remember toLowerCase songs uniqueMap = None.
Proof.
  revert uniqueMap. induction songs as [|song rest IH]; intros uniqueMap Hno.
  - exfalso. apply Hno. constructor.
  - cbn [remember]. destruct (typed_dec song) as [Hsong|Hsong].
    + rewrite (key_of_typed _ Hsong). apply IH. intros Hrest. apply Hno.
      by constructor.
    + by rewrite (key_of_untyped _ Hsong).
Qed.
End AggregateFacts.

Section FirstOfEachKey.
Import Api.
Variable key : Json -> string.

(** Every kept song is the first of the input with its key, and its key was
    not taken before. *)
Lemma first_of_each_key_first seen songs s :
  s ∈ first_of_each_key key seen songs ->
  (key s ∉ seen)
  /\ exists before after,
       songs = (before ++ s :: after)%list
       /\ forall x, x ∈ before -> key x <> key s.
Proof.
  revert seen. induction songs as [|song rest IH]; intros seen; simpl.
  - intros H. by apply not_elem_of_nil in H.
  - case_bool_decide as Hseen.
    + intros Hs. destruct (IH _ Hs) as (Hnot & before & after & -> & Hfirst).
      split; [done|]. exists (song :: before), after. split; [done|].
      intros x [->|Hx]%elem_of_cons; [|by apply Hfirst].
      intros Heq. apply Hnot. by rewrite <- Heq.
    + intros [->|Hs]%elem_of_cons.
      * split; [done|]. exists [], rest. split; [done|].
        intros x Hx. by apply not_elem_of_nil in Hx.
      * destruct (IH _ Hs) as (Hnot & before & after & -> & Hfirst).
        rewrite elem_of_app, list_elem_of_singleton in Hnot.
        split; [tauto|]. exists (song :: before), after. split; [done|].
        intros x [->|Hx]%elem_of_cons; [|by apply Hfirst].
        intros Heq. apply Hnot. right. done.
Qed.

Lemma first_of_each_key_NoDup seen songs :
  NoDup (map key (first_of_each_key key seen songs)).
Proof.
  revert seen. induction songs as [|song rest IH]; intros seen; simpl.
  - constructor.
  - case_bool_decide as Hseen; [apply IH|]. simpl. constructor; [|apply IH].
    intros Hin. apply list_elem_of_fmap in Hin as (s & Heq & Hs).
    apply first_of_each_key_first in Hs as [Hnot _]. apply Hnot.
    rewrite elem_of_app, list_elem_of_singleton. right. done.
Qed.

Lemma first_of_each_key_sublist seen songs :
  first_of_each_key key seen songs `sublist_of` songs.
Proof.
  revert seen. induction songs as [|song rest IH]; intros seen; simpl.
  - constructor.
  - case_bool_decide as Hseen.
    + apply sublist_cons, IH.
    + apply sublist_skip, IH.
Qed.

(** No key of the input is lost. *)
Lemma first_of_each_key_covers seen songs x :
  x ∈ songs -> key x ∉ seen ->
  exists s, s ∈ first_of_each_key key seen songs /\ key s = key x.
Proof.
  revert seen. induction songs as [|song rest IH]; intros seen Hx Hnot; simpl.
  - by apply not_elem_of_nil in Hx.
  - apply elem_of_cons in Hx as [->|Hx].
    + rewrite bool_decide_eq_false_2 by done. exists song.
      split; [apply list_elem_of_here | done].
    + case_bool_decide as Hseen; [by apply IH|].
      destruct (decide (key x = key song)) as [Heq|Hne].
      * exists song. split; [apply list_elem_of_here | done].
      * destruct (IH (seen ++ [key song])%list Hx) as (s & Hs & Hk).
        { rewrite elem_of_app, list_elem_of_singleton. intros [?|?]; done. }
        exists s. split; [by apply list_elem_of_further | done].
Qed.
End FirstOfEachKey.

Lemma NoDup_take {A} (l : list A) n : NoDup l -> NoDup (take n l).
Proof.
  intros H. eapply sublist_NoDup; [done|]. apply sublist_take.
Qed.

Lemma first_with_key_in_prefix {A} (key : A -> string) (yt pp before after : list A) s y :
  (yt ++ pp)%list = (before ++ s :: after)%list ->
  (forall x, x ∈ before -> key x <> key s) ->
  y ∈ yt -> key y = key s -> s ∈ yt.
Proof.
  revert before. induction yt as [|a yt IH]; intros before Heq Hfirst Hy Hk.
  - by apply not_elem_of_nil in Hy.
  - destruct before as [|b before]; simpl in Heq.
    + injection Heq as -> _. apply list_elem_of_here.
    + injection Heq as -> Heq. apply elem_of_cons in Hy as [->|Hy].
      * exfalso. apply (Hfirst b); [apply list_elem_of_here | done].
      * apply list_elem_of_further. apply (IH before); try done.
        intros x Hx. apply Hfirst. by apply list_elem_of_further.
Qed.

Example searchAggregate_example :
  Api.searchAggregate Api.lower Api.lyrical "beatles" 1
  = (Api.Fulfilled
       [Api.track "y1" (Api.JStr "YESTERDAY") (Api.JStr "the beatles") "youtube";
        Api.track "p2" (Api.JStr "Help!") (Api.JStr "The Beatles") "piped"],
     [Api.YoutubeSearch "beatles" 1; Api.PipedSearch "beatles"]).
Proof. vm_compute. reflexivity. Qed.

(** C4, as the claim states it, fails: when Piped reports a title that is
    not a string, [toLowerCase] throws on it and [searchAggregate] returns
    what a second YouTube search gives, as it is -- here two records that
    share the lower-cased [name|artist] key. *)
Lemma searchAggregate_numeric_title :
  Api.searchAggregate Api.lower Api.numeric_title "van halen" 1
  = (Api.Fulfilled
       [Api.track "y1" (Api.JStr "Jump") (Api.JStr "Van Halen") "youtube";
        Api.track "y2" (Api.JStr "JUMP") (Api.JStr "van halen") "youtube"],
     [Api.YoutubeSearch "van halen" 1; Api.PipedSearch "van halen";
      Api.YoutubeSearch "van halen" 1])
  /\ Api.key_of Api.lower
       (Api.track "y1" (Api.JStr "Jump") (Api.JStr "Van Halen") "youtube")
     = Some "jump|van halen"
  /\ Api.key_of Api.lower
       (Api.track "y2" (Api.JStr "JUMP") (Api.JStr "van halen") "youtube")
     = Some "jump|van halen".
Proof. repeat split; vm_compute; reflexivity. Qed.

(** C4, amended.  For every keyword (and every lower-casing function),
    write [yt] and [pp] for what the YouTube and the Piped search return,
    [[]] for a client that rejects.  When every record of [yt] and [pp]
    carries strings as [name] and [artist], [searchAggregate] makes the two
    searches and returns the first 50 of the records of [yt] followed by
    [pp] with later duplicates of a lower-cased [name|artist] key dropped:
    at most 50 records in the order of the input, no two of which share
    the key; each is the first one with its key, so a YouTube record is
    kept over a Piped one of the same key; and when one client rejects,
    the result is that of the other client's records alone.  When some
    record carries a [name] or an [artist] that is not a string,
    [searchAggregate] searches YouTube a second time and returns that
    search's promise as it is. *)
Theorem searchAggregate_deduplicated toLowerCase w keyword page :
  let yt := match Api.youtube_searchAudio w 0%nat keyword page with
            | Api.Fulfilled songs => songs
            | Api.Rejected => []
            end in
  let pp := match Api.piped_searchAudio w keyword with
            | Api.Fulfilled songs => songs
            | Api.Rejected => []
            end in
  let text v := match v with Some (Api.JStr s) => s | _ => "" end in
  let key song := toLowerCase (text (Api.get "name" (Some song))) +:+ "|"
                  +:+ toLowerCase (text (Api.get "artist" (Some song))) in
  let typed song := exists n a, Api.get "name" (Some song) = Some (Api.JStr n)
                                /\ Api.get "artist" (Some song) = Some (Api.JStr a) in
  (Forall typed (yt ++ pp)%list ->
   exists out,
     Api.searchAggregate toLowerCase w keyword page
     = (Api.Fulfilled out,
        [Api.YoutubeSearch keyword page; Api.PipedSearch keyword])
     /\ out = take 50 (Api.first_of_each_key key [] (yt ++ pp)%list)
     /\ (length out <= 50)%nat
     /\ NoDup (map key out)
     /\ out `sublist_of` (yt ++ pp)%list
     /\ (forall s, s ∈ out ->
           exists before after,
             (yt ++ pp)%list = (before ++ s :: after)%list
             /\ forall x, x ∈ before -> key x <> key s)
     /\ (forall s y, s ∈ out -> y ∈ yt -> key y = key s -> s ∈ yt)
     /\ (Api.youtube_searchAudio w 0%nat keyword page = Api.Rejected ->
         out = take 50 (Api.first_of_each_key key [] pp)
         /\ out `sublist_of` pp)
     /\ (Api.piped_searchAudio w keyword = Api.Rejected ->
         out = take 50 (Api.first_of_each_key key [] yt)
         /\ out `sublist_of` yt)
     /\ (forall x, x ∈ (yt ++ pp)%list ->
           (length (Api.first_of_each_key key [] (yt ++ pp)%list) <= 50)%nat ->
           exists s, s ∈ out /\ key s = key x))
  /\ (~ Forall typed (yt ++ pp)%list ->
      Api.searchAggregate toLowerCase w keyword page
      = (Api.youtube_searchAudio w 1%nat keyword page,
         [Api.YoutubeSearch keyword page; Api.PipedSearch keyword;
          Api.YoutubeSearch keyword page])).
Proof.
  intros yt pp text key typed. split.
  - intros Htyped.
    destruct (remember_typed toLowerCase (yt ++ pp)%list [] Htyped)
      as (uniqueMap & Hrun & Hread).
    simpl in Hread. fold text in Hread. fold key in Hread.
    set (out := take 50 (Api.first_of_each_key key [] (yt ++ pp)%list)).
    assert (forall s, s ∈ out ->
              exists before after,
                (yt ++ pp)%list = (before ++ s :: after)%list
                /\ forall x, x ∈ before -> key x <> key s) as Hfirst.
    { intros s Hs.
      apply (fun H => elem_of_sublist _ _ _ H (sublist_take _ _)) in Hs.
      by apply first_of_each_key_first in Hs as [_ ?]. }
    assert (out `sublist_of` (yt ++ pp)%list) as Hsub.
    { etrans; [apply sublist_take | apply first_of_each_key_sublist]. }
    exists out. split; [|split; [done|]].
    { unfold Api.searchAggregate, Api.bind, Api.call, Api.ret. cbn [fst snd].
      change (Api.or_empty (Api.youtube_searchAudio w 0%nat keyword page)) with yt.
      change (Api.or_empty (Api.piped_searchAudio w keyword)) with pp.
      rewrite Hrun. cbn [fst snd]. by rewrite Hread. }
    split; [unfold out; rewrite length_take; lia|].
    split; [unfold out; rewrite <- firstn_map;
            apply NoDup_take, first_of_each_key_NoDup|].
    split; [done|]. split; [done|]. split; [|split; [|split]].
    + intros s y Hs Hy Hk. destruct (Hfirst s Hs) as (before & after & Heq & Hb).
      by eapply (first_with_key_in_prefix key).
    + intros Hrej. assert (yt = []) as Hyt by (unfold yt; by rewrite Hrej).
      unfold out in *. rewrite Hyt in *. done.
    + intros Hrej. assert (pp = []) as Hpp by (unfold pp; by rewrite Hrej).
      unfold out in *. rewrite Hpp in *. rewrite app_nil_r in *. done.
    + intros x Hx Hlen.
      destruct (first_of_each_key_covers key [] _ x Hx) as (s & Hs & Hk).
      { apply not_elem_of_nil. }
      exists s. split; [|done]. unfold out. by rewrite take_ge.
  - intros Hno.
    unfold Api.searchAggregate, Api.bind, Api.call, Api.ret. cbn [fst snd].
    change (Api.or_empty (Api.youtube_searchAudio w 0%nat keyword page)) with yt.
    change (Api.or_empty (Api.piped_searchAudio w keyword)) with pp.
    by rewrite (remember_untyped toLowerCase (yt ++ pp)%list [] Hno).
Qed.

Lemma searchAggregate_deduplicated_witness :
  exists out,
    Api.searchAggregate Api.lower Api.lyrical "beatles" 1
    = (Api.Fulfilled out,
       [Api.YoutubeSearch "beatles" 1; Api.PipedSearch "beatles"])
    /\ (length out <= 50)%nat.
Proof.
  destruct (proj1 (searchAggregate_deduplicated Api.lower Api.lyrical "beatles" 1))
    as (out & Hrun & _ & Hlen & _).
  - repeat constructor; eexists _, _; split; reflexivity.
  - exists out. split; [exact Hrun | exact Hlen].
Defined.

(** ** Legacy resolution path *)

Lemma parseSongs_refuses_temp w ids platform quality :
  startsWith "temp_" ids = true ->
  Api.parseSongs w ids platform quality = (None, []).
Proof.
  intros Htemp. unfold Api.parseSongs. rewrite Htemp.
  by destruct (String.eqb ids "" || String.eqb platform "").
Qed.

(** An identifier that [normalizeSongs] had to make up carries the
    placeholder prefix. *)
Lemma normalizeItem_placeholder platform suffix item n :
  Api.normalizeItem platform suffix item = Api.Built n ->
  Api.n_isValidId n = false ->
  startsWith "temp_" (Api.n_id n) = true.
Proof.
  unfold Api.normalizeItem.
  destruct (negb _); [done|].
  destruct (Api.find_artist _); [|done].
  intros [= <-]. simpl.
  destruct (Api.findId _ platform) as [i|]; simpl.
  - done.
  - intros _. unfold startsWith. simpl. by destruct suffix.
Qed.

Lemma normalizeFrom_placeholder random i platform items ns n :
  Api.normalizeFrom random i platform items = Some ns ->
  n ∈ ns ->
  Api.n_isValidId n = false ->
  startsWith "temp_" (Api.n_id n) = true.
Proof.
  revert i ns. induction items as [|item rest IH]; intros i ns; simpl.
  - intros [= <-] Hn. by apply not_elem_of_nil in Hn.
  - destruct (Api.normalizeItem platform (random i) item) as [|m|] eqn:E.
    + apply IH.
    + destruct (Api.normalizeFrom random (S i) platform rest) as [ms|] eqn:E';
        simpl; [|done].
      intros [= <-] [->|Hn]%elem_of_cons Hinvalid.
      * by eapply normalizeItem_placeholder.
      * by eapply IH.
    + done.
Qed.

Lemma getLyrics_youtube w id : Api.getLyrics w id "youtube" = (Api.JStr "", []).
Proof. done. Qed.

(** For a Piped song with an ordinary identifier the legacy backend is
    asked. *)
Lemma getLyrics_piped_asks_backend w id :
  String_id id <> "" ->
  startsWith "temp_" (String_id id) = false ->
  (Api.getLyrics w id "piped").2
  = [Api.TuneHub (Api.storedApiBase w +:+ "/v1/parse")
       (Some (Api.parse_body "piped" (String_id id) "320k"))
       (if negb (String.eqb (Api.storedApiKey w) "")
        then Some (Api.storedApiKey w) else None)].
Proof.
  intros Hid Htemp. unfold Api.getLyrics, Api.parseSongs. simpl.
  apply String.eqb_neq in Hid. rewrite Hid, Htemp. simpl.
  unfold Api.bind, Api.tuneHubFetch, Api.bind, Api.call, Api.ret. simpl.
  destruct (negb (String.eqb (Api.storedApiKey w) "")); simpl;
    repeat match goal with
           | |- context [if ?b then _ else _] => destruct b; simpl
           | |- context [match ?x with _ => _ end] => destruct x; simpl
           end; reflexivity.
Qed.

(** C9, at the input where the code departs from it.  Asked for the lyrics
    of a Piped song, [getLyrics] posts the identifier to the legacy [/v1/parse]
    endpoint and returns the lyrics that backend sends. *)
Theorem getLyrics_piped_takes_legacy_path :
  Api.getLyrics Api.lyrical (IdString "abc") "piped"
  = (Api.JStr "la la",
     [Api.TuneHub "https://tunehub.sayqz.com/api/v1/parse"
        (Some (Api.parse_body "piped" "abc" "320k")) None]).
Proof. vm_compute. reflexivity. Qed.

(** C10.  Given an identifier that starts with [temp_], [parseSongs]
    returns [null] for every platform and quality without issuing any call,
    and so does [parseSongFull]; the identifiers [normalizeSongs] makes up
    (those with [isValidId = false]) all start with [temp_]; hence the
    callers that fall back to the legacy path, [getSongUrl] and
    [getLyrics], issue no call for them either. *)
Theorem temp_ids_never_resolved w ids :
  startsWith "temp_" ids = true ->
  (forall platform quality,
      Api.parseSongs w ids platform quality = (None, []))
  /\ (forall random checked stored cache platform quality,
        Api.parseSongFull w random checked stored cache (IdString ids)
          platform quality = ((Api.Fulfilled None, cache), []))
  /\ (forall random items platform ns n,
        Api.normalizeSongs random items platform = Some ns ->
        n ∈ ns -> Api.n_isValidId n = false ->
        startsWith "temp_" (Api.n_id n) = true)
  /\ (forall source quality,
        source <> "piped" -> source <> "youtube" ->
        Api.getSongUrl w (IdString ids) source quality = (None, []))
  /\ (forall source,
        source <> "youtube" ->
        Api.getLyrics w (IdString ids) source = (Api.JStr "", [])).
Proof.
  intros Htemp. split; [|split; [|split; [|split]]].
  - intros. by apply parseSongs_refuses_temp.
  - intros. unfold Api.parseSongFull. simpl. rewrite Htemp.
    by rewrite orb_true_r.
  - intros random items platform ns n. apply normalizeFrom_placeholder.
  - intros source quality Hp Hy. unfold Api.getSongUrl. simpl.
    apply String.eqb_neq in Hp, Hy. rewrite Hp, Hy.
    destruct (String.eqb source "" || String.eqb source "undefined"); [done|].
    by rewrite parseSongs_refuses_temp.
  - intros source Hy. unfold Api.getLyrics. simpl.
    apply String.eqb_neq in Hy. rewrite Hy.
    by rewrite parseSongs_refuses_temp.
Qed.

Lemma temp_ids_never_resolved_witness :
  Api.parseSongs Api.lyrical "temp_k3x9q" "netease" "320k" = (None, [])
  /\ Api.getLyrics Api.lyrical (IdString "temp_k3x9q") "piped" = (Api.JStr "", []).
Proof.
  assert (startsWith "temp_" "temp_k3x9q" = true) as Htemp by reflexivity.
  destruct (temp_ids_never_resolved Api.lyrical "temp_k3x9q" Htemp)
    as (Hparse & _ & _ & _ & Hlyrics).
  split; [apply Hparse | apply Hlyrics; discriminate].
Defined.

(** ** Playback engine *)

Section PlayerFacts.
Import Player.
Variable w : World.

(** On a loaded element [togglePlay] flips the play state and spawns
    nothing. *)
Lemma togglePlay_loaded st a c :
  audioRef st = Some a -> has_source w a = true -> currentSongRef st = Some c ->
  exists st',
    togglePlay w st = (st', None)
    /\ isPlaying st' = negb (isPlaying st)
    /\ audioRef st' = Some (if isPlaying st then audio_pause a else audio_play a)
    /\ effects st' =
       (effects st
        ++ match audioCtxRef st with Some suspended => [CtxResume] | _ => [] end
        ++ [if isPlaying st then AudioPause else AudioPlay]
        ++ if hasMediaSession w
           then [MediaSession c (negb (isPlaying st))] else [])%list
    /\ currentSong st' = currentSong st /\ queue st' = queue st
    /\ isLoading st' = isLoading st
    /\ currentSongRef st' = currentSongRef st /\ queueRef st' = queueRef st
    /\ retryCountRef st' = retryCountRef st.
Proof.
  intros Ha Hsrc Hc. unfold togglePlay. rewrite Ha, Hc, Hsrc. simpl.
  unfold resume_ctx, updateMediaSession, with_audio.
  destruct (audioCtxRef st) as [[]|] eqn:Hctx; simpl;
    destruct (isPlaying st) eqn:Hplaying; simpl;
    destruct (hasMediaSession w); simpl;
    rewrite ?Ha, ?Hplaying; simpl;
    eexists; (split; [reflexivity|]); simpl;
    rewrite ?Ha, <- ?app_assoc; simpl; repeat split; done.
Qed.
(** What a commit leaves alone, what it brings up to date, and what it
    adds to the log. *)
Lemma commit_state st :
  let st' := commit w st in
  currentSong st' = currentSong st /\ isPlaying st' = isPlaying st
  /\ isLoading st' = isLoading st /\ queue st' = queue st
  /\ audioRef st' = audioRef st /\ audioCtxRef st' = audioCtxRef st
  /\ audioCtxConnectedRef st' = audioCtxConnectedRef st
  /\ audioQuality st' = audioQuality st /\ playMode st' = playMode st
  /\ retryCountRef st' = retryCountRef st.
Proof.
  unfold commit, updateMediaSession.
  destruct (_ || _); [|done].
  destruct (currentSong st) eqn:E; [|by rewrite ?E].
  destruct (hasMediaSession w); simpl; by rewrite ?E.
Qed.

Lemma commit_refs st :
  let st' := commit w st in
  currentSongRef st' = currentSong st /\ queueRef st' = queue st
  /\ playModeRef st' = playMode st /\ audioQualityRef st' = audioQuality st
  /\ currentSongFresh st' = false /\ isPlayingRendered st' = isPlaying st.
Proof.
  unfold commit, updateMediaSession.
  destruct (_ || _); [|done].
  destruct (currentSong st) eqn:E; [|by rewrite ?E].
  destruct (hasMediaSession w); simpl; by rewrite ?E.
Qed.

Lemma commit_effects st :
  effects (commit w st)
  = (effects st
     ++ match currentSong st with
        | Some s =>
            if (currentSongFresh st
                || negb (Bool.eqb (isPlaying st) (isPlayingRendered st)))
               && hasMediaSession w
            then [MediaSession s (isPlaying st)] else []
        | None => []
        end)%list.
Proof.
  unfold commit, updateMediaSession.
  destruct (_ || _); cbn [andb].
  - destruct (currentSong st); [|by rewrite app_nil_r].
    destruct (hasMediaSession w); simpl; by rewrite ?app_nil_r.
  - destruct (currentSong st); by rewrite app_nil_r.
Qed.

(** A second commit with nothing in between does nothing more. *)
Lemma commit_commit st : commit w (commit w st) = commit w st.
Proof.
  destruct (commit_state st) as (Hp & _), (commit_refs st) as (_&_&_&_&Hf&Hr).
  cbv zeta in *. unfold commit at 1. rewrite Hf, Hr.
  destruct (commit_state st) as (_ & -> & _). rewrite Bool.eqb_reflx. cbn [negb orb].
  unfold commit, updateMediaSession.
  destruct (_ || _); [|done].
  destruct (currentSong st); [|done]. by destruct (hasMediaSession w).
Qed.

Lemma ask_state st e :
  let st' := ask w st e in
  currentSong st' = currentSong st /\ isPlaying st' = isPlaying st
  /\ isLoading st' = isLoading st /\ queue st' = queue st
  /\ audioRef st' = audioRef st /\ audioCtxRef st' = audioCtxRef st
  /\ audioCtxConnectedRef st' = audioCtxConnectedRef st
  /\ audioQuality st' = audioQuality st /\ playMode st' = playMode st
  /\ retryCountRef st' = retryCountRef st.
Proof.
  unfold ask. destruct (answer_to w e) as [[|r]|]; try done.
  apply (commit_state (emit e st)).
Qed.

(** Awaiting the resolution touches neither the state nor the element. *)
Lemma asking_state asked st :
  let st' := asking w asked st in
  currentSong st' = currentSong st /\ isPlaying st' = isPlaying st
  /\ isLoading st' = isLoading st /\ queue st' = queue st
  /\ audioRef st' = audioRef st /\ audioCtxRef st' = audioCtxRef st
  /\ audioCtxConnectedRef st' = audioCtxConnectedRef st
  /\ audioQuality st' = audioQuality st /\ playMode st' = playMode st
  /\ retryCountRef st' = retryCountRef st.
Proof.
  unfold asking. revert st. induction asked as [|e asked IH]; intros st;
    cbn [fold_left]; [done|].
  destruct (IH (ask w st e)) as (?&?&?&?&?&?&?&?&?&?).
  destruct (ask_state st e) as (?&?&?&?&?&?&?&?&?&?).
  cbv zeta in *. repeat split; congruence.
Qed.

(** The refs are those of the last render: brought up to date when React
    has rendered meanwhile, as they were otherwise. *)
Lemma asking_refs asked st :
  let st' := asking w asked st in
  if rendered w asked
  then currentSongRef st' = currentSong st /\ queueRef st' = queue st
       /\ playModeRef st' = playMode st /\ audioQualityRef st' = audioQuality st
  else currentSongRef st' = currentSongRef st /\ queueRef st' = queueRef st
       /\ playModeRef st' = playModeRef st
       /\ audioQualityRef st' = audioQualityRef st.
Proof.
  unfold asking. revert st. induction asked as [|e asked IH]; intros st;
    cbn [fold_left rendered existsb]; [done|].
  specialize (IH (ask w st e)). cbv zeta in IH. fold (rendered w asked).
  destruct (ask_state st e) as (Hc&_&_&Hq&_&_&_&Ha&Hm&_). cbv zeta in *.
  unfold ask in *.
  destruct (answer_to w e) as [[|r]|]; cbn [orb];
    try (destruct (rendered w asked); exact IH).
  destruct (commit_refs (emit e st)) as (Hcr & Hqr & Hmr & Har & _).
  cbv zeta in *.
  destruct (rendered w asked).
  - destruct IH as (-> & -> & -> & ->). by rewrite Hc, Hq, Hm, Ha.
  - destruct IH as (-> & -> & -> & ->). by rewrite Hcr, Hqr, Hmr, Har.
Qed.

End PlayerFacts.



(** The requests of a resolution are all it adds to the log. *)
Lemma resolve_only_asks w song e :
  e ∈ (Player.resolve w song).2 ->
  exists videoId, e = Player.ResolveYoutube videoId \/ e = Player.ResolvePiped videoId.
Proof.
  unfold Player.resolve.
  destruct (String.eqb _ _); simpl.
  - intros H%list_elem_of_singleton. eauto.
  - destruct (Player.settled (Player.youtube_getAudioUrl w _)) as [u|]; simpl.
    + destruct (Player.usable u); simpl.
      * intros H%list_elem_of_singleton. eauto.
      * intros [H|H%list_elem_of_singleton]%elem_of_cons; eauto.
    + intros H%list_elem_of_singleton. eauto.
Qed.


(** A URL comes from the network: React has rendered by the time the
    resolution yields one. *)
Lemma resolve_url_rendered w song u :
  (Player.resolve w song).1 = Api.Fulfilled (Some u) ->
  u <> "" ->
  Player.rendered w (Player.resolve w song).2 = true.
Proof.
  unfold Player.resolve, Player.rendered. intros Hres Hu.
  apply String.eqb_neq in Hu.
  destruct (String.eqb _ _); cbn [fst snd existsb Player.answer_to] in *.
  - by destruct (Player.piped_getAudioUrl w _).
  - destruct (Player.youtube_getAudioUrl w _) as [|[audioUrl|]] eqn:Hy;
      cbn [Player.settled] in *.
    + cbn [Player.usable fst snd existsb Player.answer_to] in *.
      destruct (Player.piped_getAudioUrl w _) as [|[fallback|]] eqn:Hp;
        cbn [Player.settled fst orb] in *; try done.
      by rewrite orb_true_r.
    + destruct (Player.usable audioUrl);
        cbn [fst snd existsb Player.answer_to orb]; by rewrite Hy.
    + done.
Qed.

(** What awaiting a resolution that yields a URL leaves alone, and the refs
    it finds brought up to date. *)
Lemma asking_resolved_frame w song u st :
  (Player.resolve w song).1 = Api.Fulfilled (Some u) ->
  u <> "" ->
  let st' := Player.asking w (Player.resolve w song).2 st in
  Player.audioRef st' = Player.audioRef st
  /\ Player.audioCtxConnectedRef st' = Player.audioCtxConnectedRef st
  /\ Player.currentSong st' = Player.currentSong st
  /\ Player.currentSongRef st' = Player.currentSong st
  /\ Player.queue st' = Player.queue st
  /\ Player.audioQuality st' = Player.audioQuality st
  /\ Player.audioQualityRef st' = Player.audioQuality st.
Proof.
  intros Hres Hu.
  destruct (asking_state w (Player.resolve w song).2 st)
    as (Hc & _ & _ & Hq & Ha & _ & Hconn & Hquality & _).
  pose proof (asking_refs w (Player.resolve w song).2 st) as Hrefs.
  rewrite (resolve_url_rendered w song u Hres Hu) in Hrefs.
  destruct Hrefs as (Href & _ & _ & Hqref). cbv zeta in *. done.
Qed.

(** The same once React has rendered in any case. *)
Lemma asking_commit_frame w asked st :
  let st' := Player.commit w (Player.asking w asked st) in
  Player.audioRef st' = Player.audioRef st
  /\ Player.audioCtxConnectedRef st' = Player.audioCtxConnectedRef st
  /\ Player.currentSong st' = Player.currentSong st
  /\ Player.currentSongRef st' = Player.currentSong st
  /\ Player.queue st' = Player.queue st
  /\ Player.audioQuality st' = Player.audioQuality st
  /\ Player.audioQualityRef st' = Player.audioQuality st.
Proof.
  destruct (asking_state w asked st)
    as (Hc & _ & _ & Hq & Ha & _ & Hconn & Hquality & _).
  destruct (commit_state w (Player.asking w asked st))
    as (Hc' & _ & _ & Hq' & Ha' & _ & Hconn' & Hquality' & _).
  destruct (commit_refs w (Player.asking w asked st))
    as (Href & _ & _ & Hqref & _).
  cbv zeta in *. repeat split; congruence.
Qed.

(** The state a call resumes on once its resolution has settled. *)
Lemma playSong_unfold_awaiting w fuel song forceQuality st st1 same different
    appended :
  Player.playSong_begin w song forceQuality st
  = (st1, Player.Awaiting song same different appended) ->
  Player.playSong w (S fuel) song forceQuality st
  = Some (Player.playSong_resume w song song same different appended
            (Player.resolve w song).1
            (Player.asking w (Player.resolve w song).2 st1)).
Proof.
  intros Hb. cbn [Player.playSong]. rewrite Hb.
  by destruct (Player.resolve w song).
Qed.

(** The synchronous part of a call that goes on to resolve. *)
Lemma playSong_begin_awaiting w song forceQuality st a :
  Player.audioRef st = Some a ->
  Player.already_loaded w song forceQuality st a = false ->
  exists st1 appended,
    Player.playSong_begin w song forceQuality st
    = (st1, Player.Awaiting song (Player.isSameSong song st)
                     (Player.isDifferentQuality forceQuality st) appended)
    /\ Player.audioRef st1 = Some a
    /\ Player.audioCtxRef st1 = Player.audioCtxRef st
    /\ Player.audioCtxConnectedRef st1 = Player.audioCtxConnectedRef st
    /\ Player.currentSong st1 = Some song
    /\ Player.queue st1 = Player.enqueue song (Player.queue st)
    /\ Player.audioQuality st1 = Player.audioQuality st
    /\ Player.effects st1 = Player.effects st
    /\ Player.isPlaying st1 = Player.isPlaying st
    /\ Player.isLoading st1 = true
    /\ Player.currentSongRef st1 = Player.currentSongRef st
    /\ Player.retryCountRef st1
       = (if Player.forced forceQuality then Player.retryCountRef st else 0).
Proof.
  intros Ha Hfresh. unfold Player.playSong_begin. rewrite Ha, Hfresh.
  eexists _, _. split; [reflexivity|].
  destruct (Player.forced forceQuality); simpl; by rewrite ?Ha.
Qed.




(** When every client answers at once the call resumes before React has
    rendered: on [ended], with a Piped song next in the queue and no
    healthy instance, the guard meets the song that has just ended and the
    call returns there. *)
Example playSong_resumes_before_render :
  exists st',
    Player.dispatch Player.no_instance 1 (Player.EvEnded (fun _ => 0%Q))
      (Player.playing Player.song_b [Player.song_b; Player.song_c] Player.sequence)
    = Some st'
    /\ Player.currentSong st' = Some Player.song_c
    /\ Player.isLoading st' = true
    /\ Player.isPlaying st' = true
    /\ Player.effects st'
       = [Player.ResolvePiped "c"; Player.MediaSession Player.song_c true].
Proof. eexists. split; [vm_compute; reflexivity|]. repeat split. Qed.

(** *** Retry on playback error *)

(** A call with a forced quality never takes the toggle shortcut. *)
Lemma forced_not_already_loaded w song q st a :
  Player.forced (Some q) = true ->
  Player.already_loaded w song (Some q) st a = false.
Proof.
  intros Hq. unfold Player.already_loaded. rewrite Hq. simpl.
  by rewrite andb_false_r.
Qed.

(** No step of the audio pipeline writes the retry counter. *)
Lemma retryCount_resume_ctx st :
  Player.retryCountRef (Player.resume_ctx st) = Player.retryCountRef st.
Proof. unfold Player.resume_ctx. by destruct (Player.audioCtxRef st) as [[]|]. Qed.

Lemma retryCount_updateMediaSession w song playing st :
  Player.retryCountRef (Player.updateMediaSession w song playing st)
  = Player.retryCountRef st.
Proof.
  unfold Player.updateMediaSession.
  destruct song; [|done]. by destruct (Player.hasMediaSession w).
Qed.

Lemma retryCount_createAudioElement withCors st :
  Player.retryCountRef (Player.createAudioElement withCors st)
  = Player.retryCountRef st.
Proof.
  unfold Player.createAudioElement.
  destruct (Player.audioRef st); simpl; by destruct (Player.audioCtxRef st).
Qed.

Lemma retryCount_initAudioContext w st :
  Player.retryCountRef (Player.initAudioContext w st) = Player.retryCountRef st.
Proof.
  unfold Player.initAudioContext. destruct (Player.isIOS w); [done|].
  destruct (Player.audioCtxRef st); [done|].
  destruct (Player.audioRef st); [|done]. by destruct (Player.webAudio w).
Qed.

Lemma retryCount_settle_play w fullSong st :
  Player.retryCountRef (Player.settle_play w fullSong st) = Player.retryCountRef st.
Proof.
  unfold Player.settle_play.
  destruct (Player.playStart w); try done. apply retryCount_updateMediaSession.
Qed.

(** Nothing after the first [await] writes the retry counter. *)
Lemma playSong_resume_retryCount w song fullSong same different appended resolved st :
  Player.retryCountRef
    (Player.playSong_resume w song fullSong same different appended resolved st)
  = Player.retryCountRef st.
Proof.
  unfold Player.playSong_resume.
  destruct resolved as [audioUrl|]; [|done].
  destruct (negb _); [done|].
  destruct (Player.usable audioUrl) as [u|]; [|done].
  destruct (if same && different then _ else _) as [resumeTime|]; [|done].
  set (st1 := Player.write_url u fullSong appended st).
  assert (Player.retryCountRef st1 = Player.retryCountRef st) as <- by done.
  set (st2 := if negb (Player.audioCtxConnectedRef st1)
              then Player.createAudioElement true st1 else st1).
  assert (Player.retryCountRef st2 = Player.retryCountRef st1) as <-.
  { unfold st2. destruct (negb _); [apply retryCount_createAudioElement | done]. }
  rewrite <- (retryCount_initAudioContext w st2).
  generalize (Player.initAudioContext w st2). intros st3.
  destruct (Player.audioRef st3); [|done].
  rewrite retryCount_settle_play. simpl.
  set (st4 := if negb (Qle_bool resumeTime 0) then _ else _).
  rewrite retryCount_resume_ctx.
  unfold st4. by destruct (negb (Qle_bool resumeTime 0)).
Qed.

(** A forced-quality call runs to completion and keeps the retry counter. *)
Lemma playSong_forced_retryCount w fuel song q st :
  Player.forced (Some q) = true ->
  exists st', Player.playSong w (S fuel) song (Some q) st = Some st'
              /\ Player.retryCountRef st' = Player.retryCountRef st.
Proof.
  intros Hq. simpl. unfold Player.playSong_begin.
  destruct (Player.audioRef st) as [a|] eqn:Ha; [|by eexists].
  rewrite forced_not_already_loaded by done. rewrite Hq. simpl.
  destruct (Player.resolve w song) as [resolved asked].
  eexists. split; [reflexivity|].
  rewrite playSong_resume_retryCount.
  match goal with
  | |- context [Player.asking w asked ?s] =>
      destruct (asking_state w asked s) as (_&_&_&_&_&_&_&_&_&->)
  end.
  done.
Qed.

(** *** A successful call *)

(** What the steps of the audio pipeline leave alone. *)
Lemma resume_ctx_frame st :
  Player.audioRef (Player.resume_ctx st) = Player.audioRef st
  /\ Player.currentSong (Player.resume_ctx st) = Player.currentSong st
  /\ Player.isLoading (Player.resume_ctx st) = Player.isLoading st
  /\ Player.isPlaying (Player.resume_ctx st) = Player.isPlaying st
  /\ forall e, e ∈ Player.effects st -> e ∈ Player.effects (Player.resume_ctx st).
Proof.
  unfold Player.resume_ctx. destruct (Player.audioCtxRef st) as [[]|]; simpl;
    repeat split; try done.
  intros e He. apply elem_of_app. by left.
Qed.

Lemma updateMediaSession_frame w song playing st :
  let st' := Player.updateMediaSession w song playing st in
  Player.audioRef st' = Player.audioRef st
  /\ Player.currentSong st' = Player.currentSong st
  /\ Player.isLoading st' = Player.isLoading st
  /\ Player.isPlaying st' = Player.isPlaying st
  /\ forall e, e ∈ Player.effects st -> e ∈ Player.effects st'.
Proof.
  unfold Player.updateMediaSession. destruct song; [|by repeat split].
  destruct (Player.hasMediaSession w); simpl; repeat split; try done.
  intros e He. apply elem_of_app. by left.
Qed.

Lemma createAudioElement_frame withCors st :
  let st' := Player.createAudioElement withCors st in
  is_Some (Player.audioRef st')
  /\ Player.currentSong st' = Player.currentSong st
  /\ forall e, e ∈ Player.effects st -> e ∈ Player.effects st'.
Proof.
  unfold Player.createAudioElement.
  destruct (Player.audioRef st); simpl;
    destruct (Player.audioCtxRef st); simpl; repeat split; try (by eexists);
    intros e He; rewrite ?elem_of_app; tauto.
Qed.

Lemma initAudioContext_frame w st :
  let st' := Player.initAudioContext w st in
  Player.audioRef st' = Player.audioRef st
  /\ Player.currentSong st' = Player.currentSong st
  /\ forall e, e ∈ Player.effects st -> e ∈ Player.effects st'.
Proof.
  unfold Player.initAudioContext. destruct (Player.isIOS w); [by repeat split|].
  destruct (Player.audioCtxRef st); [by repeat split|].
  destruct (Player.audioRef st) eqn:Ha; [|by repeat split].
  destruct (Player.webAudio w); simpl; repeat split; try done.
  intros e He. apply elem_of_app. by left.
Qed.

Lemma settle_play_frame w fullSong st :
  let st' := Player.settle_play w fullSong st in
  Player.audioRef st' = Player.audioRef st
  /\ Player.currentSong st' = Player.currentSong st
  /\ (Player.isLoading st = false -> Player.isLoading st' = false)
  /\ (Player.isPlaying st = true ->
      Player.isPlaying st' =
      match Player.playStart w with Player.NotAllowedError => false | _ => true end)
  /\ forall e, e ∈ Player.effects st -> e ∈ Player.effects st'.
Proof.
  unfold Player.settle_play.
  destruct (Player.playStart w); try (by simpl; repeat split).
  destruct (updateMediaSession_frame w (Some fullSong) true st)
    as (Ha & Hc & Hl & Hp & He).
  cbv zeta in *. split; [done|]. split; [done|].
  split; [intros; congruence|]. split; [intros; congruence | exact He].
Qed.

(** The part of [playSong] that follows a resolved URL, on an element that
    exists. *)
Lemma playSong_resume_resolved w song fullSong same different appended u st a :
  u <> "" ->
  Player.audioRef st = Some a ->
  id <$> Player.currentSongRef st = Some (id song) ->
  Player.currentSong st = Some fullSong ->
  let st' := Player.playSong_resume w song fullSong same different appended
               (Api.Fulfilled (Some u)) st in
  exists a',
    Player.audioRef st' = Some a'
    /\ Player.src a' = u
    /\ Player.paused a' = false
    /\ Player.currentSong st' = Some (Player.with_url u fullSong)
    /\ Player.isLoading st' = false
    /\ Player.isPlaying st' =
       match Player.playStart w with Player.NotAllowedError => false | _ => true end
    /\ Player.AudioLoad u ∈ Player.effects st'
    /\ Player.AudioPlay ∈ Player.effects st'.
Proof.
  intros Hu Ha Hcur Hsong. unfold Player.playSong_resume.
  rewrite bool_decide_eq_true_2 by done. cbn [negb].
  unfold Player.usable. apply String.eqb_neq in Hu. rewrite Hu.
  set (st1 := Player.write_url u fullSong appended st).
  assert (Player.audioRef st1 = Some a) as Ha1 by done.
  assert (Player.currentSong st1 = Some (Player.with_url u fullSong)) as Hc1.
  { simpl. rewrite Hsong. by rewrite bool_decide_eq_true_2. }
  assert (exists resumeTime,
             (if same && different
              then Player.a_currentTime <$> Player.audioRef st1 else Some 0%Q)
             = Some resumeTime) as [resumeTime ->].
  { rewrite Ha1. destruct (same && different); by eexists. }
  clearbody st1.
  set (st2 := if negb (Player.audioCtxConnectedRef st1)
              then Player.createAudioElement true st1 else st1).
  assert (is_Some (Player.audioRef st2)
          /\ Player.currentSong st2 = Some (Player.with_url u fullSong)) as [Ha2 Hc2].
  { unfold st2. destruct (negb _).
    - destruct (createAudioElement_frame true st1) as (? & ? & _).
      split; [done | congruence].
    - split; [by eexists | done]. }
  clearbody st2.
  destruct (initAudioContext_frame w st2) as (Ha3 & Hc3 & _).
  set (st3 := Player.initAudioContext w st2) in *. clearbody st3.
  destruct Ha2 as [x Hx]. rewrite Ha3, Hx.
  set (st4 := Player.emit (Player.AudioLoad u)
                (Player.with_audio (Player.audio_load u) st3)).
  assert (Player.audioRef st4 = Some (Player.audio_load u x)) as Ha4.
  { simpl. by rewrite Ha3, Hx. }
  assert (Player.currentSong st4 = Some (Player.with_url u fullSong)) as Hc4
    by (simpl; congruence).
  assert (Player.AudioLoad u ∈ Player.effects st4) as He4.
  { simpl. apply elem_of_app. right. apply list_elem_of_here. }
  clearbody st4.
  set (st5 := if negb (Qle_bool resumeTime 0)
              then Player.with_audio (Player.audio_seek resumeTime) st4 else st4).
  assert (exists a5, Player.audioRef st5 = Some a5 /\ Player.src a5 = u) as (a5 & Ha5 & Hsrc).
  { unfold st5. destruct (negb _); simpl; rewrite ?Ha4; by eexists. }
  assert (Player.currentSong st5 = Some (Player.with_url u fullSong)) as Hc5
    by (unfold st5; by destruct (negb _)).
  assert (Player.AudioLoad u ∈ Player.effects st5) as He5
    by (unfold st5; by destruct (negb _)).
  clearbody st5.
  destruct (resume_ctx_frame st5) as (Ha6 & Hc6 & _ & _ & He6).
  set (st6 := Player.resume_ctx st5) in *. clearbody st6.
  set (st8 := Player.emit Player.AudioPlay
                (Player.with_audio Player.audio_play
                   (Player.set_isLoading false (Player.set_isPlaying true st6)))).
  destruct (settle_play_frame w (Player.with_url u fullSong) st8)
    as (Ha9 & Hc9 & Hl9 & Hp9 & He9).
  exists (Player.audio_play a5).
  split; [rewrite Ha9; simpl; by rewrite Ha6, Ha5|].
  split; [done|]. split; [done|].
  split; [rewrite Hc9; simpl; congruence|].
  split; [by apply Hl9|]. split; [by apply Hp9|]. split.
  - apply He9. simpl. apply elem_of_app. left. by apply He6.
  - apply He9. simpl. apply elem_of_app. right. apply list_elem_of_here.
Qed.

(** A call that goes on to resolve and obtains a URL loads it into the
    element and starts it; the play state is set at once and withdrawn only
    when the browser refuses to start ([NotAllowedError]). *)
Lemma playSong_resolved w song forceQuality st a fuel u :
  Player.audioRef st = Some a ->
  Player.already_loaded w song forceQuality st a = false ->
  (Player.resolve w song).1 = Api.Fulfilled (Some u) ->
  u <> "" ->
  exists st' a',
    Player.playSong w (S fuel) song forceQuality st = Some st'
    /\ Player.audioRef st' = Some a'
    /\ Player.src a' = u
    /\ Player.paused a' = false
    /\ Player.currentSong st' = Some (Player.with_url u song)
    /\ Player.isLoading st' = false
    /\ Player.isPlaying st' =
       match Player.playStart w with Player.NotAllowedError => false | _ => true end
    /\ Player.AudioLoad u ∈ Player.effects st'
    /\ Player.AudioPlay ∈ Player.effects st'.
Proof.
  intros Ha Hfresh Hres Hu.
  destruct (playSong_begin_awaiting w song forceQuality st a Ha Hfresh)
    as (st1 & appended & Hb & Ha1 & _ & _ & Hsong1 & _).
  rewrite (playSong_unfold_awaiting _ _ _ _ _ _ _ _ _ Hb), Hres.
  destruct (asking_state w (Player.resolve w song).2 st1)
    as (Hc2 & _ & _ & _ & Ha2 & _).
  pose proof (asking_refs w (Player.resolve w song).2 st1) as Hrefs.
  rewrite (resolve_url_rendered w song u Hres Hu) in Hrefs.
  destruct Hrefs as (Href2 & _). cbv zeta in *.
  set (st2 := Player.asking w (Player.resolve w song).2 st1) in *.
  clearbody st2.
  destruct (playSong_resume_resolved w song song (Player.isSameSong song st)
              (Player.isDifferentQuality forceQuality st) appended u st2 a Hu)
    as (a' & Hfacts).
  - congruence.
  - by rewrite Href2, Hsong1.
  - congruence.
  - eexists _, a'. split; [reflexivity | exact Hfacts].
Qed.

(** *** Queue advancement *)

Lemma findIndex_range c q :
  Player.findIndex c q = -1
  \/ 0 <= Player.findIndex c q < Z.of_nat (length q).
Proof.
  induction q as [|s q IH]; simpl; [by left|].
  destruct (String.eqb _ _); [right; lia|].
  destruct (Z.eqb_spec (Player.findIndex c q) (-1)) as [E|E]; [by left|].
  right. lia.
Qed.

(** [Math.floor(Math.random() * len)] is an index of a queue of [len]
    songs. *)
Lemma floor_random_range (r : Q) (len : nat) :
  (0 <= r)%Q -> (r < 1)%Q -> (0 < len)%nat ->
  0 <= Qfloor (r * inject_Z (Z.of_nat len)) < Z.of_nat len.
Proof.
  intros H0 H1 Hlen.
  assert (0 < inject_Z (Z.of_nat len))%Q as Hpos.
  { change 0%Q with (inject_Z 0). rewrite <- Zlt_Qlt. lia. }
  split.
  - rewrite <- (Qfloor_Z 0). apply Qfloor_resp_le.
    apply Qmult_le_0_compat; [done | by apply Qlt_le_weak].
  - rewrite Zlt_Qlt.
    eapply Qle_lt_trans; [apply Qfloor_le|].
    rewrite <- (Qmult_1_l (inject_Z (Z.of_nat len))) at 2.
    by apply Qmult_lt_compat_r.
Qed.

Lemma shuffle_pick_differs random fuel k len current n :
  (1 < len)%nat ->
  Player.shuffle_pick random fuel k len current = Some n ->
  n <> current.
Proof.
  intros Hlen. revert k.
  induction fuel as [|fuel IH]; intros k; cbn [Player.shuffle_pick]; [done|].
  rewrite bool_decide_eq_true_2 by done. cbn [andb].
  destruct (Z.eqb_spec (Qfloor (random k * inject_Z (Z.of_nat len))) current)
    as [E|E]; [apply IH|].
  by intros [= <-].
Qed.

Lemma shuffle_pick_draw random fuel k len current n :
  Player.shuffle_pick random fuel k len current = Some n ->
  exists j, n = Qfloor (random j * inject_Z (Z.of_nat len)).
Proof.
  revert k. induction fuel as [|fuel IH]; intros k; cbn [Player.shuffle_pick];
    [done|].
  destruct (_ && _); [apply IH|]. intros [= <-]. by exists k.
Qed.

(** The loop ends as soon as a draw differs from the current index. *)
Lemma shuffle_pick_terminates random len current d :
  forall fuel k,
    (d < fuel)%nat ->
    Qfloor (random (k + d)%nat * inject_Z (Z.of_nat len)) <> current ->
    exists n, Player.shuffle_pick random fuel k len current = Some n.
Proof.
  induction d as [|d IH]; intros [|fuel] k Hfuel Hdraw; try lia;
    cbn [Player.shuffle_pick].
  - rewrite Nat.add_0_r in Hdraw. apply Z.eqb_neq in Hdraw.
    rewrite Hdraw, andb_false_r. by eexists.
  - destruct (_ && _); [|by eexists].
    apply IH; [lia|]. by replace (S k + d)%nat with (k + S d)%nat by lia.
Qed.

Lemma playNext_unfold random fuel force st s q' :
  Player.queueRef st = s :: q' ->
  Player.playNext random fuel force st =
  if negb force && bool_decide (Player.playModeRef st = Player.loop)
  then Some (match Player.audioRef st with
             | Some _ =>
                 Player.emit Player.AudioPlay
                   (Player.with_audio
                      (fun a => Player.audio_play (Player.audio_seek 0%Q a)) st)
             | None => st
             end, None)
  else match Player.next_index random fuel st with
       | None => None
       | Some nextIndex =>
           Some (st, (fun s => Player.CallPlaySong s None)
                       <$> Player.at_index (Player.queueRef st) nextIndex)
       end.
Proof. intros Hq. unfold Player.playNext. by rewrite Hq. Qed.

Lemma sequence_index (i len : nat) :
  (i < len)%nat ->
  0 <= Z.rem (Z.of_nat i + 1) (Z.of_nat len)
  /\ Z.to_nat (Z.rem (Z.of_nat i + 1) (Z.of_nat len)) = ((i + 1) mod len)%nat.
Proof.
  intros Hi. rewrite Z.rem_mod_nonneg by lia.
  replace (Z.of_nat i + 1) with (Z.of_nat (i + 1)) by lia.
  rewrite <- Nat2Z.inj_mod. split; [lia | apply Nat2Z.id].
Qed.

(** In [sequence] mode [ended] hands [playSong] the entry that follows the
    current song in the queue, the first entry after the last. *)
Lemma ended_sequence_call random st c i :
  Player.queueRef st <> [] ->
  Player.currentSongRef st = Some c ->
  Player.findIndex c (Player.queueRef st) = Z.of_nat i ->
  Player.playModeRef st = Player.sequence ->
  exists next,
    Player.queueRef st !! ((i + 1) mod length (Player.queueRef st))%nat = Some next
    /\ forall fuel, Player.handlers_ended random fuel st
                    = Some (st, Some (Player.CallPlaySong next None)).
Proof.
  intros Hq Hc Hi Hmode.
  destruct (Player.queueRef st) as [|s q'] eqn:Eq; [done|].
  set (q := s :: q') in *.
  assert (i < length q)%nat as Hlt.
  { destruct (findIndex_range c q) as [E|E]; lia. }
  destruct (sequence_index i (length q) Hlt) as [Hpos Hnat].
  destruct (lookup_lt_is_Some_2 q ((i + 1) mod length q)%nat) as [next Hn].
  { apply Nat.mod_upper_bound. lia. }
  exists next. split; [done|]. intros fuel.
  unfold Player.handlers_ended.
  rewrite (playNext_unfold random fuel false st s q' Eq), Hmode. simpl negb.
  rewrite bool_decide_eq_false_2 by done. cbn [andb].
  unfold Player.next_index. rewrite Hmode, Eq, Hc. fold q.
  cbn [Player.currentIndex_of]. rewrite Hi.
  unfold Player.at_index. rewrite bool_decide_eq_true_2 by done.
  by rewrite Hnat, Hn.
Qed.

(** C3, where the code departs from it.  In [sequence] mode, when the
    entry at index [(i + 1) mod length] carries the identifier of the song
    that has just ended -- as it does in a queue of one song -- [ended]
    hands that entry to [playSong], which takes it for the song that is
    loaded already and toggles: the engine pauses the element and marks
    itself paused; nothing is resolved, loaded or played. *)
Theorem ended_same_song_pauses w random fuel st c next a i :
  Player.currentSongRef st = Some c ->
  Player.findIndex c (Player.queueRef st) = Z.of_nat i ->
  Player.playModeRef st = Player.sequence ->
  Player.queueRef st !! ((i + 1) mod length (Player.queueRef st))%nat = Some next ->
  id next = id c ->
  Player.audioRef st = Some a ->
  Player.has_source w a = true ->
  Player.isPlaying st = true ->
  exists st',
    Player.dispatch w (S fuel) (Player.EvEnded random) st = Some st'
    /\ Player.isPlaying st' = false
    /\ Player.audioRef st' = Some (Player.audio_pause a)
    /\ Player.currentSong st' = Player.currentSong st
    /\ Player.AudioPause ∈ Player.effects st'
    /\ forall e, e ∈ Player.effects st' ->
         e ∈ Player.effects st \/ e = Player.CtxResume \/ e = Player.AudioPause
         \/ Player.is_session_update e = true.
Proof.
  intros Hc Hi Hmode Hnext Hid Ha Hsrc Hplaying.
  assert (Player.queueRef st <> []) as Hq by (by intros E; rewrite E in Hnext).
  destruct (ended_sequence_call random st c i Hq Hc Hi Hmode)
    as (next' & Hnext' & Hcall).
  rewrite Hnext in Hnext'. injection Hnext' as <-.
  destruct (togglePlay_loaded w st a c Ha Hsrc Hc)
    as (st1 & Htoggle & Hp1 & Ha1 & He1 & Hc1 & _).
  rewrite Hplaying in *. cbn [negb] in *.
  assert (Player.playSong w (S fuel) next None st = Some st1) as Hrun.
  { cbn [Player.playSong]. unfold Player.playSong_begin. rewrite Ha.
    assert (Player.already_loaded w next None st a = true) as ->.
    { unfold Player.already_loaded, Player.isSameSong, Player.isDifferentQuality.
      rewrite Hc, Hsrc. simpl. rewrite Hid. by rewrite bool_decide_eq_true_2. }
    by rewrite Htoggle. }
  exists (Player.commit w st1). split.
  { unfold Player.dispatch. rewrite Hcall.
    cbv beta iota delta [mbind option_bind Player.finish
                           Player.call_song Player.call_forceQuality].
    unfold Player.AudioQuality in *. by rewrite Hrun. }
  destruct (commit_state w st1) as (Hcs & Hps & _ & _ & Has & _).
  cbv zeta in *. rewrite Hps, Has, Hcs, commit_effects.
  split; [done|]. split; [done|]. split; [done|]. split.
  - apply elem_of_app. left. rewrite He1. rewrite !elem_of_app.
    right. right. left. apply list_elem_of_here.
  - intros e [He|He]%elem_of_app.
    + rewrite He1 in He. rewrite !elem_of_app in He.
      destruct He as [?|[He|[He|He]]]; [by left|..].
      * right. left. destruct (Player.audioCtxRef st) as [[]|];
          [by apply list_elem_of_singleton in He
          | by apply not_elem_of_nil in He..].
      * right. right. left. by apply list_elem_of_singleton in He.
      * right. right. right. destruct (Player.hasMediaSession w);
          [apply list_elem_of_singleton in He; by subst
          | by apply not_elem_of_nil in He].
    + right. right. right. destruct (Player.currentSong st1); [|by apply not_elem_of_nil in He].
      destruct (_ && _); [apply list_elem_of_singleton in He; by subst
                         | by apply not_elem_of_nil in He].
Qed.

Lemma ended_same_song_pauses_witness :
  exists st',
    Player.dispatch Player.online 1 (Player.EvEnded (fun _ => 0%Q))
      (Player.playing Player.song_a [Player.song_a] Player.sequence) = Some st'
    /\ Player.isPlaying st' = false
    /\ Player.effects st'
       = [Player.AudioPause; Player.MediaSession Player.song_a false;
          Player.MediaSession Player.song_a false].
Proof.
  destruct (ended_same_song_pauses Player.online (fun _ => 0%Q) 0
              (Player.playing Player.song_a [Player.song_a] Player.sequence)
              Player.song_a Player.song_a
              {| Player.src := "https://cdn/current"; Player.a_currentTime := 42%Q;
                 Player.a_duration := 180%Q; Player.paused := false;
                 Player.crossOrigin := true |}
              0%nat eq_refl eq_refl eq_refl eq_refl eq_refl eq_refl eq_refl eq_refl)
    as (st' & Hrun & Hplaying & _).
  exists st'. split; [exact Hrun|]. split; [exact Hplaying|].
  vm_compute in Hrun. injection Hrun as <-. reflexivity.
Defined.

(** X28.  On the natural end of the track at index [i] of a non-empty
    queue: in [sequence] mode the engine calls [playSong], without forced
    quality, on the song at index [(i + 1) mod length], and when that song
    is not the current one and a URL is resolved for it the call loads and
    plays it; in [shuffle] mode with more than one song the index it
    settles on is never [i], and it does settle as soon as a draw differs
    from [i]; in [loop] mode it makes no [playSong] call, hence no stream
    resolution, and restarts the element in place: position 0, same source,
    playing. *)
Theorem ended_advances w random fuel st c i :
  Player.queueRef st <> [] ->
  Player.currentSongRef st = Some c ->
  Player.findIndex c (Player.queueRef st) = Z.of_nat i ->
  let q := Player.queueRef st in
  (Player.playModeRef st = Player.sequence ->
     exists next,
       q !! ((i + 1) mod length q)%nat = Some next
       /\ Player.handlers_ended random fuel st
          = Some (st, Some (Player.CallPlaySong next None))
       /\ forall a u,
            id next <> id c ->
            Player.audioRef st = Some a ->
            (Player.resolve w next).1 = Api.Fulfilled (Some u) ->
            u <> "" ->
            exists st' a',
              Player.dispatch w (S fuel) (Player.EvEnded random) st = Some st'
              /\ Player.audioRef st' = Some a'
              /\ Player.src a' = u
              /\ Player.paused a' = false
              /\ Player.currentSong st' = Some (Player.with_url u next)
              /\ Player.isPlaying st' =
                 match Player.playStart w with
                 | Player.NotAllowedError => false
                 | _ => true
                 end)
  /\ (Player.playModeRef st = Player.shuffle -> (1 < length q)%nat ->
      (forall st' spawned,
          Player.handlers_ended random fuel st = Some (st', spawned) ->
          st' = st
          /\ exists n, n <> Z.of_nat i
               /\ spawned = (fun s => Player.CallPlaySong s None)
                              <$> Player.at_index q n)
      /\ ((forall k, (0 <= random k)%Q /\ (random k < 1)%Q) ->
          forall d, (d < fuel)%nat ->
            Qfloor (random d * inject_Z (Z.of_nat (length q))) <> Z.of_nat i ->
            exists n next,
              Player.handlers_ended random fuel st
              = Some (st, Some (Player.CallPlaySong next None))
              /\ q !! n = Some next /\ n <> i))
  /\ (Player.playModeRef st = Player.loop ->
      exists st',
        Player.handlers_ended random fuel st = Some (st', None)
        /\ Player.audioRef st'
           = (fun a => {| Player.src := Player.src a;
                          Player.a_currentTime := 0%Q;
                          Player.a_duration := Player.a_duration a;
                          Player.paused := false;
                          Player.crossOrigin := Player.crossOrigin a |})
               <$> Player.audioRef st
        /\ Player.effects st'
           = (Player.effects st
              ++ match Player.audioRef st with
                 | Some _ => [Player.AudioPlay]
                 | None => []
                 end)%list
        /\ Player.currentSong st' = Player.currentSong st
        /\ Player.queue st' = Player.queue st
        /\ Player.isPlaying st' = Player.isPlaying st
        /\ Player.isLoading st' = Player.isLoading st).
Proof.
  intros Hq Hc Hi q.
  destruct (Player.queueRef st) as [|s q'] eqn:Eq; [done|].
  assert (forall fuel', Player.handlers_ended random fuel' st =
            if negb false && bool_decide (Player.playModeRef st = Player.loop)
            then Some (match Player.audioRef st with
                       | Some _ =>
                           Player.emit Player.AudioPlay
                             (Player.with_audio
                                (fun a => Player.audio_play
                                            (Player.audio_seek 0%Q a)) st)
                       | None => st
                       end, None)
            else match Player.next_index random fuel' st with
                 | None => None
                 | Some nextIndex =>
                     Some (st, (fun s => Player.CallPlaySong s None)
                                 <$> Player.at_index q nextIndex)
                 end) as Hnext.
  { intros fuel'. unfold Player.handlers_ended.
    rewrite (playNext_unfold random fuel' false st s q' Eq). by rewrite Eq. }
  fold q in Hi.
  assert (i < length q)%nat as Hlt.
  { destruct (findIndex_range c q) as [E|E]; lia. }
  assert (Player.currentIndex_of (Player.currentSongRef st) q = Z.of_nat i)
    as Hcur by (by rewrite Hc).
  split; [|split].
  - intros Hmode.
    destruct (sequence_index i (length q) Hlt) as [Hpos Hnat].
    destruct (lookup_lt_is_Some_2 q ((i + 1) mod length q)%nat) as [next Hn].
    { apply Nat.mod_upper_bound. lia. }
    assert (forall fuel', Player.handlers_ended random fuel' st
                          = Some (st, Some (Player.CallPlaySong next None)))
      as Hcall.
    { intros fuel'. rewrite Hnext, Hmode. simpl negb.
      rewrite bool_decide_eq_false_2 by done. cbn [andb].
      unfold Player.next_index. rewrite Hmode, Eq. fold q. rewrite Hcur.
      unfold Player.at_index. rewrite bool_decide_eq_true_2 by done.
      by rewrite Hnat, Hn. }
    exists next. split; [done|]. split; [apply Hcall|].
    intros a u Hid Ha Hres Hu.
    assert (Player.already_loaded w next None st a = false) as Hfresh.
    { unfold Player.already_loaded, Player.isSameSong. rewrite Hc. simpl.
      rewrite bool_decide_eq_false_2; [done|]. intros [= E]. by apply Hid. }
    destruct (playSong_resolved w next None st a fuel u Ha Hfresh Hres Hu)
      as (st' & a' & Hrun & Haudio & Hsrc & Hpaused & Hsong & _ & Hplaying & _).
    exists (Player.commit w st'), a'. split.
    { unfold Player.dispatch. rewrite Hcall.
      cbv beta iota delta [mbind option_bind Player.finish
                             Player.call_song Player.call_forceQuality].
      unfold Player.AudioQuality in *. by rewrite Hrun. }
    destruct (commit_state w st') as (-> & -> & _ & _ & -> & _). done.
  - intros Hmode Hlen. rewrite Hnext, Hmode. simpl negb.
    rewrite bool_decide_eq_false_2 by done. cbn [andb].
    unfold Player.next_index. rewrite Hmode, Eq. fold q. rewrite Hcur.
    split.
    + intros st' spawned.
      destruct (Player.shuffle_pick random fuel 0 (length q) (Z.of_nat i))
        as [n|] eqn:Hpick; [|done].
      intros [= <- <-]. split; [done|]. exists n. split; [|done].
      by eapply shuffle_pick_differs.
    + intros Hrandom d Hd Hdraw.
      destruct (shuffle_pick_terminates random (length q) (Z.of_nat i) d
                  fuel 0%nat Hd Hdraw) as [n Hpick].
      rewrite Hpick.
      destruct (shuffle_pick_draw _ _ _ _ _ _ Hpick) as [j ->].
      destruct (Hrandom j) as [H0 H1].
      pose proof (floor_random_range (random j) (length q) H0 H1) as Hrange.
      pose proof (shuffle_pick_differs _ _ _ _ _ _ Hlen Hpick) as Hne.
      set (n := Qfloor (random j * inject_Z (Z.of_nat (length q)))) in *.
      destruct (lookup_lt_is_Some_2 q (Z.to_nat n)) as [next Hn]; [lia|].
      exists (Z.to_nat n), next. split; [|split; [done | lia]].
      unfold Player.at_index. rewrite bool_decide_eq_true_2 by lia.
      by rewrite Hn.
  - intros Hmode. rewrite Hnext, Hmode. simpl negb.
    rewrite bool_decide_eq_true_2 by done. cbn [andb].
    eexists. split; [reflexivity|].
    destruct (Player.audioRef st) as [a|] eqn:Ha; simpl.
    + rewrite Ha. simpl. repeat split.
    + rewrite Ha, app_nil_r. repeat split.
Qed.

Lemma ended_advances_witness :
  let abc := [Player.song_a; Player.song_b; Player.song_c] in
  (exists st' a',
      Player.dispatch Player.online 1 (Player.EvEnded (fun _ => 0%Q))
        (Player.playing Player.song_a abc Player.sequence) = Some st'
      /\ Player.audioRef st' = Some a'
      /\ Player.src a' = "https://cdn/b"
      /\ Player.paused a' = false
      /\ Player.isPlaying st' = true)
  /\ (exists n next,
        Player.handlers_ended Player.half_then_zero 5
          (Player.playing Player.song_b abc Player.shuffle)
        = Some (Player.playing Player.song_b abc Player.shuffle,
                Some (Player.CallPlaySong next None))
        /\ abc !! n = Some next /\ n <> 1%nat)
  /\ exists st',
       Player.handlers_ended (fun _ => 0%Q) 5
         (Player.playing Player.song_b abc Player.loop) = Some (st', None)
       /\ Player.effects st' = [Player.AudioPlay].
Proof.
  intros abc.
  assert (abc <> []) as Hne by discriminate.
  split; [|split].
  - destruct (ended_advances Player.online (fun _ => 0%Q) 0
                (Player.playing Player.song_a abc Player.sequence)
                Player.song_a 0%nat Hne eq_refl eq_refl) as (Hseq & _).
    destruct (Hseq eq_refl) as (next & Hnext & _ & Hplays).
    vm_compute in Hnext. injection Hnext as <-.
    destruct (Hplays {| Player.src := "https://cdn/current";
                        Player.a_currentTime := 42%Q;
                        Player.a_duration := 180%Q; Player.paused := false;
                        Player.crossOrigin := true |}
                "https://cdn/b") as (st' & a' & Hrun & Ha & Hsrc & Hp & _ & Hpl).
    + discriminate.
    + reflexivity.
    + reflexivity.
    + discriminate.
    + exists st', a'. repeat split; done.
  - destruct (ended_advances Player.online Player.half_then_zero 5
                (Player.playing Player.song_b abc Player.shuffle)
                Player.song_b 1%nat Hne eq_refl eq_refl) as (_ & Hshuffle & _).
    assert (1 < length abc)%nat as Hlen by (simpl; lia).
    destruct (Hshuffle eq_refl Hlen) as (_ & Hprogress).
    apply (Hprogress (fun k => match k with
                               | O => conj (Qle_bool_imp_le 0 (1 # 2) eq_refl) eq_refl
                               | S _ => conj (Qle_refl 0) eq_refl
                               end) 1%nat).
    + lia.
    + vm_compute. discriminate.
  - destruct (ended_advances Player.online (fun _ => 0%Q) 5
                (Player.playing Player.song_b abc Player.loop)
                Player.song_b 1%nat Hne eq_refl eq_refl) as (_ & _ & Hloop).
    destruct (Hloop eq_refl) as (st' & Hrun & _ & Heff & _).
    exists st'. split; [exact Hrun | exact Heff].
Defined.

(** * Further properties *)

(** ** Piped client: what one call does to the registry *)

Section RegistryFacts.
Import Piped.
Variable net : nat -> string -> FetchOutcome.
Variable endpoint : string.
Variable now : Z.
Variables instances avail : list string.
Variable start : nat.

Lemma attempt_requests_length remaining i cursor broken log :
  (length (requests (attempt net endpoint now instances avail start
                       remaining i cursor broken log))
   <= length log + remaining)%nat.
Proof.
  revert i broken log.
  induction remaining as [|n IH]; intros i broken log; simpl; [lia|].
  destruct (avail !! _) as [inst|]; [|simpl; lia].
  destruct (judge _); simpl.
  - rewrite length_app. simpl. lia.
  - etrans; [apply IH|]. rewrite length_app. simpl. lia.
Qed.

(** An iteration that finds its instance sends a request. *)
Lemma attempt_requests_grow remaining i cursor broken log :
  is_Some (avail !! ((start + i) mod length avail)%nat) ->
  (length log
   < length (requests (attempt net endpoint now instances avail start
                         (S remaining) i cursor broken log)))%nat.
Proof.
  intros [inst Hinst]. simpl. rewrite Hinst.
  destruct (judge _); simpl.
  - rewrite length_app. simpl. lia.
  - assert (forall n i broken log,
              (length log
               <= length (requests (attempt net endpoint now instances avail
                                      start n i cursor broken log)))%nat) as Hmono.
    { clear. induction n as [|n IH]; intros i broken log; simpl; [lia|].
      destruct (avail !! _); [|simpl; lia].
      destruct (judge _); simpl.
      - rewrite length_app. simpl. lia.
      - etrans; [|apply IH]. rewrite length_app. simpl. lia. }
    eapply Nat.lt_le_trans; [|apply Hmono]. rewrite length_app. simpl. lia.
Qed.

(** The table after the loop: old marks are kept or restamped with [now],
    and every new value is [now]. *)
Lemma attempt_marks remaining i cursor broken log x :
  let broken' := BROKEN_INSTANCES
                   (registry (attempt net endpoint now instances avail start
                                remaining i cursor broken log)) in
  (forall t, broken !! x = Some t ->
             broken' !! x = Some t \/ broken' !! x = Some now)
  /\ (forall t, broken' !! x = Some t ->
                broken !! x = Some t \/ (t = now /\ x ∈ avail)).
Proof.
  revert i broken log.
  induction remaining as [|n IH]; intros i broken log; simpl.
  - split; intros t Ht; by left.
  - destruct (avail !! _) as [inst|] eqn:Hinst; [|split; intros t Ht; by left].
    destruct (judge _); [split; intros t Ht; by left|].
    destruct (IH (S i) (<[inst := now]> broken) (log ++ [inst +:+ endpoint])%list)
      as [Hold Hnew].
    split.
    + intros t Ht. destruct (decide (inst = x)) as [->|Hne].
      * right. destruct (Hold now) as [?|?]; [by rewrite lookup_insert_eq|done..].
      * apply Hold. by rewrite lookup_insert_ne.
    + intros t Ht. destruct (Hnew t Ht) as [Hin|?]; [|by right].
      destruct (decide (inst = x)) as [->|Hne].
      * rewrite lookup_insert_eq in Hin. injection Hin as <-. right.
        split; [done|]. by eapply list_elem_of_lookup_2.
      * left. by rewrite lookup_insert_ne in Hin.
Qed.

(** Where the cursor lands when an instance wins. *)
Lemma attempt_winner remaining i cursor broken log r :
  result (attempt net endpoint now instances avail start
            remaining i cursor broken log) = Some r ->
  exists g inst,
    avail !! ((start + g) mod length avail)%nat = Some inst
    /\ net g (inst +:+ endpoint) = Answered r
    /\ currentInstanceIndex
         (registry (attempt net endpoint now instances avail start
                      remaining i cursor broken log))
       = match indexOf instances inst with
         | Some origIdx => ((origIdx + 1) mod length instances)%nat
         | None => cursor
         end.
Proof.
  revert i broken log.
  induction remaining as [|n IH]; intros i broken log; simpl; [done|].
  destruct (avail !! _) as [inst|] eqn:Hinst; [|done].
  destruct (judge _) as [r'|] eqn:Hj.
  - simpl. intros [= <-]. exists i, inst. split; [done|]. split; [|done].
    by apply judge_Accept in Hj as [? _].
  - apply IH.
Qed.

(** When nothing is returned, every position of the healthy subset from
    iteration [i] on has been stamped. *)
Lemma attempt_none_marks remaining i cursor broken log :
  (i + remaining = length avail)%nat ->
  result (attempt net endpoint now instances avail start
            remaining i cursor broken log) = None ->
  forall j inst, (i <= j < length avail)%nat ->
    avail !! ((start + j) mod length avail)%nat = Some inst ->
    BROKEN_INSTANCES
      (registry (attempt net endpoint now instances avail start
                   remaining i cursor broken log)) !! inst = Some now.
Proof.
  revert i broken log.
  induction remaining as [|n IH]; intros i broken log Hsum Hnone j inst Hj Hlook.
  - lia.
  - simpl in *.
    destruct (avail !! ((start + i) mod length avail)%nat) as [inst_i|] eqn:Hi.
    2:{ apply lookup_ge_None in Hi.
        pose proof (Nat.mod_upper_bound (start + i) (length avail)). lia. }
    destruct (judge _); [done|].
    destruct (decide (j = i)) as [->|Hne].
    + assert (inst = inst_i) as -> by congruence.
      apply attempt_keeps_mark. by rewrite lookup_insert_eq.
    + assert (S i + n = length avail)%nat as Hsum' by lia.
      apply (IH (S i) _ _ Hsum' Hnone j inst); [lia | done].
Qed.
End RegistryFacts.

Section RequestOrder.
Import Piped.
Variable net : nat -> string -> FetchOutcome.
Variable endpoint : string.
Variable now : Z.
Variables instances avail : list string.
Variable start : nat.

(** The requests of the loop are the log followed by a stretch of the
    rotated healthy subset, one request per position. *)
Lemma attempt_requests_stretch remaining i cursor broken log :
  (i + remaining = length avail)%nat ->
  exists n, (n <= remaining)%nat
    /\ requests (attempt net endpoint now instances avail start
                   remaining i cursor broken log)
       = (log ++ map (fun inst => inst +:+ endpoint)
                     (take n (drop i (rotate start avail))))%list.
Proof.
  revert i broken log.
  induction remaining as [|k IH]; intros i broken log Hsum; simpl.
  - exists 0%nat. split; [done|]. simpl. by rewrite app_nil_r.
  - rewrite rotation_lookup by lia.
    destruct (rotate start avail !! i) as [inst|] eqn:Hinst.
    2:{ exists 0%nat. split; [lia|]. simpl. by rewrite app_nil_r. }
    rewrite (drop_S _ _ _ Hinst).
    destruct (judge _).
    + exists 1%nat. split; [lia|]. simpl. by rewrite ?take_0.
    + destruct (IH (S i) (<[inst := now]> broken)
                  (log ++ [inst +:+ endpoint])%list) as (n & Hn & ->); [lia|].
      exists (S n). split; [lia|]. simpl. by rewrite <- app_assoc.
Qed.
End RequestOrder.

Lemma rotation_head reg now :
  Piped.available reg now <> [] ->
  head (Piped.rotation reg now)
  = Piped.available reg now !! Piped.startIndex reg (Piped.available reg now).
Proof.
  intros Hne. pose proof (startIndex_lt reg _ Hne) as Hstart.
  unfold Piped.rotation. rewrite head_lookup.
  rewrite <- rotation_lookup by lia.
  by rewrite Nat.add_0_r, Nat.mod_small.
Qed.

(** X1.  Whatever the network does, the requests of one [pipedFetch] call
    are an initial stretch of the rotation of the healthy subset, each
    instance's URL followed by the endpoint: no instance outside the healthy
    subset is contacted, none is contacted out of turn, and there are never
    more requests than healthy instances. *)
Theorem pipedFetch_requests_prefix net endpoint now reg :
  exists n, (n <= length (Piped.available reg now))%nat
    /\ Piped.requests (Piped.pipedFetch net endpoint now reg)
       = map (fun inst => inst +:+ endpoint) (take n (Piped.rotation reg now)).
Proof.
  destruct (decide (Piped.available reg now = [])) as [E|E].
  - exists 0%nat. split; [lia|]. unfold Piped.pipedFetch. by rewrite E.
  - rewrite pipedFetch_unfold by done.
    destruct (attempt_requests_stretch net endpoint now
                (Piped.PIPED_INSTANCES reg) (Piped.available reg now)
                (Piped.startIndex reg (Piped.available reg now))
                (length (Piped.available reg now)) 0
                (Piped.currentInstanceIndex reg) (Piped.BROKEN_INSTANCES reg)
                [] eq_refl) as (n & Hn & ->).
    exists n. split; [done|]. by rewrite drop_0.
Qed.

(** X2.  [isAvailable] predicts [pipedFetch] exactly: it is [true] at a time
    if and only if a [pipedFetch] at that time sends at least one request,
    whatever the endpoint and the network; when it is [false] the call
    returns [null] and touches neither the cursor nor the broken table. *)
Theorem isAvailable_iff_requests net endpoint now reg :
  (Piped.isAvailable reg now = true
   <-> Piped.requests (Piped.pipedFetch net endpoint now reg) <> [])
  /\ (Piped.isAvailable reg now = false
      <-> Piped.pipedFetch net endpoint now reg
          = {| Piped.result := None; Piped.registry := reg;
               Piped.requests := [] |}).
Proof.
  assert (Piped.available reg now <> [] ->
          Piped.requests (Piped.pipedFetch net endpoint now reg) <> []) as Hsome.
  { intros Hne. rewrite pipedFetch_unfold by done.
    pose proof (startIndex_lt reg _ Hne) as Hstart.
    destruct (length (Piped.available reg now)) as [|k] eqn:Hlen; [lia|].
    rewrite <- Hlen.
    pose proof (attempt_requests_grow net endpoint now
                  (Piped.PIPED_INSTANCES reg) (Piped.available reg now)
                  (Piped.startIndex reg (Piped.available reg now))
                  k 0 (Piped.currentInstanceIndex reg)
                  (Piped.BROKEN_INSTANCES reg) []) as Hgrow.
    rewrite Hlen. intros Hnil. rewrite Hnil in Hgrow. simpl in Hgrow.
    enough (0 < 0)%nat by lia. apply Hgrow.
    apply lookup_lt_is_Some_2, Nat.mod_upper_bound. lia. }
  assert (Piped.available reg now = [] ->
          Piped.pipedFetch net endpoint now reg
          = {| Piped.result := None; Piped.registry := reg;
               Piped.requests := [] |}) as Hnone.
  { intros E. unfold Piped.pipedFetch. by rewrite E. }
  split.
  - rewrite isAvailable_available. split; [done|].
    intros Hreq E. apply Hreq. by rewrite (Hnone E).
  - rewrite <- not_true_iff_false, isAvailable_available. split.
    + intros Hn. apply Hnone.
      by destruct (decide (Piped.available reg now = [])); [|exfalso; auto].
    + intros HF Hne. apply (Hsome Hne). by rewrite HF.
Qed.

(** Marks survive a call. *)
Lemma pipedFetch_marks_frame net endpoint now reg :
  let reg' := Piped.registry (Piped.pipedFetch net endpoint now reg) in
  Piped.PIPED_INSTANCES reg' = Piped.PIPED_INSTANCES reg
  /\ (forall inst t, Piped.BROKEN_INSTANCES reg !! inst = Some t ->
        Piped.BROKEN_INSTANCES reg' !! inst = Some t
        \/ Piped.BROKEN_INSTANCES reg' !! inst = Some now).
Proof.
  destruct (decide (Piped.available reg now = [])) as [E|E].
  - unfold Piped.pipedFetch. rewrite E. simpl.
    split; [done|]. intros inst t Ht; by left.
  - rewrite pipedFetch_unfold by done. cbv zeta.
    split; [apply attempt_instances|].
    intros inst t; apply attempt_marks.
Qed.

(** X3.  A [pipedFetch] call never changes the instance list and never
    clears a broken mark, not even the expired mark of the instance that
    answers: a mark present before is present after, with its old time or
    restamped with the time of the call; every mark that is new or changed
    carries the time of the call and belongs to an instance that was healthy
    when the call began. *)
Theorem pipedFetch_marks_only_added net endpoint now reg :
  let reg' := Piped.registry (Piped.pipedFetch net endpoint now reg) in
  Piped.PIPED_INSTANCES reg' = Piped.PIPED_INSTANCES reg
  /\ (forall inst t, Piped.BROKEN_INSTANCES reg !! inst = Some t ->
        Piped.BROKEN_INSTANCES reg' !! inst = Some t
        \/ Piped.BROKEN_INSTANCES reg' !! inst = Some now)
  /\ (forall inst t, Piped.BROKEN_INSTANCES reg' !! inst = Some t ->
        Piped.BROKEN_INSTANCES reg !! inst = Some t
        \/ (t = now /\ inst ∈ Piped.available reg now)).
Proof.
  destruct (pipedFetch_marks_frame net endpoint now reg) as [Hsame Hold].
  split; [exact Hsame|]. split; [exact Hold|].
  destruct (decide (Piped.available reg now = [])) as [E|E].
  - unfold Piped.pipedFetch. rewrite E. simpl. intros inst t Ht; by left.
  - rewrite pipedFetch_unfold by done. intros inst t. apply attempt_marks.
Qed.

(** X4.  When [pipedFetch] returns a response, the cursor is left one past
    the position of the answering instance in the full instance list (the
    first position holding that URL), wrapping at the end, so it is again a
    valid index; and if the instance at that position is healthy when the
    next call is made, that call starts with it. *)
Theorem pipedFetch_cursor_after_success net endpoint now reg r :
  Piped.result (Piped.pipedFetch net endpoint now reg) = Some r ->
  let reg' := Piped.registry (Piped.pipedFetch net endpoint now reg) in
  let n := length (Piped.PIPED_INSTANCES reg) in
  exists k winner,
    Piped.PIPED_INSTANCES reg !! k = Some winner
    /\ (forall j other, (j < k)%nat ->
          Piped.PIPED_INSTANCES reg !! j = Some other -> other <> winner)
    /\ Piped.healthy (Piped.BROKEN_INSTANCES reg) now winner = true
    /\ (exists g, net g (winner +:+ endpoint) = Piped.Answered r)
    /\ Piped.currentInstanceIndex reg' = ((k + 1) mod n)%nat
    /\ (Piped.currentInstanceIndex reg' < n)%nat
    /\ forall now' next,
         Piped.PIPED_INSTANCES reg !! ((k + 1) mod n)%nat = Some next ->
         Piped.healthy (Piped.BROKEN_INSTANCES reg') now' next = true ->
         head (Piped.rotation reg' now') = Some next.
Proof.
  intros Hres reg' n.
  destruct (decide (Piped.available reg now = [])) as [E|E].
  { unfold Piped.pipedFetch in Hres. by rewrite E in Hres. }
  assert (Piped.PIPED_INSTANCES reg' = Piped.PIPED_INSTANCES reg) as Hsame.
  { subst reg'. rewrite pipedFetch_unfold by done. apply attempt_instances. }
  subst reg'. revert Hres Hsame. rewrite pipedFetch_unfold by done.
  intros Hres Hsame.
  destruct (attempt_winner _ _ _ _ _ _ _ _ _ _ _ _ Hres)
    as (g & winner & Hlook & Hnet & Hcur).
  apply list_elem_of_lookup_2 in Hlook.
  apply elem_of_available in Hlook as [Hin Hh].
  destruct (Piped.indexOf (Piped.PIPED_INSTANCES reg) winner) as [k|] eqn:Hk.
  2:{ apply indexOf_None in Hk. done. }
  apply indexOf_Some in Hk as [Hk Hfirst].
  assert (0 < n)%nat as Hn by (apply lookup_lt_Some in Hk; subst n; lia).
  exists k, winner.
  split; [done|]. split; [done|]. split; [done|]. split; [by exists g|].
  split; [done|]. split; [rewrite Hcur; apply Nat.mod_upper_bound; lia|].
  intros now' next Hnext Hhn.
  set (reg' := Piped.registry _) in *.
  assert (next ∈ Piped.available reg' now') as Hav.
  { apply elem_of_available. split; [|done]. rewrite Hsame.
    by eapply list_elem_of_lookup_2. }
  rewrite rotation_head by (intros Hnil; rewrite Hnil in Hav;
                            by apply not_elem_of_nil in Hav).
  apply startIndex_healthy; [|done].
  rewrite Hsame, Hcur. fold n. by rewrite Nat.Div0.mod_mod.
Qed.

Lemma pipedFetch_cursor_after_success_witness :
  exists k winner,
    Piped.PIPED_INSTANCES Piped.pool !! k = Some winner
    /\ Piped.currentInstanceIndex
         (Piped.registry
            (Piped.pipedFetch Piped.flaky "/streams/abc" 200000 Piped.pool))
       = ((k + 1) mod 3)%nat.
Proof.
  destruct (pipedFetch_cursor_after_success Piped.flaky "/streams/abc" 200000
              Piped.pool Piped.stream_json)
    as (k & winner & Hk & _ & _ & _ & Hcur & _).
  - vm_compute. reflexivity.
  - exists k, winner. split; [exact Hk | exact Hcur].
Defined.

(** X5.  When [pipedFetch] finds healthy instances and still returns [null],
    every instance that was healthy is marked with the time of the call and
    stays out of the healthy subset until five minutes after it; a further
    call at the time of the first one sends no request at all. *)
Theorem pipedFetch_failed_round net endpoint now reg :
  Piped.result (Piped.pipedFetch net endpoint now reg) = None ->
  let reg' := Piped.registry (Piped.pipedFetch net endpoint now reg) in
  (forall inst, inst ∈ Piped.available reg now ->
     Piped.BROKEN_INSTANCES reg' !! inst = Some now
     /\ forall now', now' <= now + 1000 * 60 * 5 ->
          inst ∉ Piped.available reg' now')
  /\ Piped.isAvailable reg' now = false
  /\ forall net' endpoint',
       Piped.pipedFetch net' endpoint' now reg'
       = {| Piped.result := None; Piped.registry := reg';
            Piped.requests := [] |}.
Proof.
  intros Hres reg'.
  assert (forall inst, inst ∈ Piped.available reg now ->
            Piped.BROKEN_INSTANCES reg' !! inst = Some now) as Hmark.
  { intros inst Hin.
    assert (Piped.available reg now <> []) as E
      by (intros E; rewrite E in Hin; by apply not_elem_of_nil in Hin).
    subst reg'. revert Hres. rewrite pipedFetch_unfold by done. intros Hres.
    apply (elem_of_rotate _ (Piped.startIndex reg (Piped.available reg now)))
      in Hin.
    apply list_elem_of_lookup_1 in Hin as [j Hj].
    assert (j < length (Piped.available reg now))%nat as Hlt
      by (apply lookup_lt_Some in Hj; by rewrite length_rotate in Hj).
    rewrite <- rotation_lookup in Hj by done.
    eapply (attempt_none_marks _ _ _ _ _ _ _ 0%nat _ _ _ eq_refl Hres j);
      [lia | done]. }
  assert (forall inst, inst ∈ Piped.PIPED_INSTANCES reg' ->
            Piped.healthy (Piped.BROKEN_INSTANCES reg') now inst = false)
    as Hdead.
  { intros inst Hin.
    destruct (pipedFetch_marks_frame net endpoint now reg)
      as (Hsame & Hold). fold reg' in Hsame, Hold.
    rewrite Hsame in Hin.
    destruct (Piped.healthy (Piped.BROKEN_INSTANCES reg) now inst) eqn:Hh.
    - assert (inst ∈ Piped.available reg now) as Hav
        by (by apply elem_of_available).
      apply Hmark in Hav. apply not_true_iff_false.
      rewrite (healthy_marked _ _ _ now) by done.
      unfold Piped.BROKEN_TIMEOUT. lia.
    - unfold Piped.healthy in Hh.
      destruct (Piped.BROKEN_INSTANCES reg !! inst) as [t|] eqn:Ht; [|done].
      apply bool_decide_eq_false in Hh. apply not_true_iff_false.
      destruct (Hold inst t Ht) as [Ht'|Ht'];
        rewrite (healthy_marked _ _ _ _ Ht');
        unfold Piped.BROKEN_TIMEOUT in *; lia. }
  assert (Piped.available reg' now = []) as Hnil.
  { destruct (Piped.available reg' now) as [|inst rest] eqn:E; [done|].
    assert (inst ∈ Piped.available reg' now) as Hin
      by (rewrite E; apply list_elem_of_here).
    apply elem_of_available in Hin as [Hin Hh].
    rewrite (Hdead inst Hin) in Hh. done. }
  split; [|split].
  - intros inst Hin. split; [by apply Hmark|].
    intros now' Hnow' Hav. apply elem_of_available in Hav as [_ Hh].
    apply (healthy_marked _ _ _ now) in Hh; [|by apply Hmark].
    unfold Piped.BROKEN_TIMEOUT in Hh. lia.
  - apply not_true_iff_false. rewrite isAvailable_available. by intros [].
  - intros net' endpoint'. unfold Piped.pipedFetch. by rewrite Hnil.
Qed.

Lemma pipedFetch_failed_round_witness :
  Piped.isAvailable
    (Piped.registry (Piped.pipedFetch Piped.down "/streams/abc" 400000 Piped.pool))
    400000 = false
  /\ Piped.isAvailable Piped.pool 400000 = true.
Proof.
  split.
  - apply (pipedFetch_failed_round Piped.down "/streams/abc" 400000 Piped.pool).
    vm_compute. reflexivity.
  - vm_compute. reflexivity.
Defined.

(** ** Aggregator: the legacy path *)

Section LegacyFacts.
Import Api.

(** What [fixUrl] returns is never left on plain http and never
    protocol-relative. *)
Lemma fixUrl_https v :
  startsWith "http://" (fixUrl v) = false /\ startsWith "//" (fixUrl v) = false.
Proof.
  destruct v as [[| | |url| |]|]; simpl; try done.
  destruct (String.eqb url ""); [done|].
  destruct (startsWith "//" (trim url)) eqn:E1; [done|].
  destruct (startsWith "http://" (trim url)) eqn:E2; [done|].
  by rewrite E1.
Qed.

Lemma normalizeItem_Built platform suffix item n :
  normalizeItem platform suffix item = Built n ->
  truthy (Some item) = true
  /\ n_source n = platform
  /\ n_raw n = (if truthy (get "data" (Some item))
                then get "data" (Some item) else Some item)
  /\ n_pic n = fixUrl (Some (JStr (findImage (n_raw n)))).
Proof.
  unfold normalizeItem.
  destruct (truthy (Some item)) eqn:Hitem; simpl; [|done].
  destruct (find_artist _); [|done].
  by intros [= <-].
Qed.

Lemma normalizeItem_Dropped platform suffix item :
  normalizeItem platform suffix item = Dropped <-> truthy (Some item) = false.
Proof.
  unfold normalizeItem.
  destruct (truthy (Some item)) eqn:Hitem; simpl; [|done].
  by destruct (find_artist _).
Qed.

(** The outcome of the mapping does not depend on the random suffixes,
    except inside the placeholder ids. *)
Lemma normalizeFrom_pics random random' i i' platform items :
  (map n_pic <$> normalizeFrom random i platform items)
  = (map n_pic <$> normalizeFrom random' i' platform items).
Proof.
  revert i i'. induction items as [|item rest IH]; intros i i'; simpl; [done|].
  unfold normalizeItem.
  destruct (truthy (Some item)); simpl; [|apply IH].
  destruct (find_artist _); simpl; [|done].
  specialize (IH (S i) (S i')).
  destruct (normalizeFrom random (S i) platform rest),
           (normalizeFrom random' (S i') platform rest);
    simpl in *; congruence.
Qed.

Lemma legacy_full_random random random' data platform :
  legacy_full random data platform = legacy_full random' data platform.
Proof.
  unfold legacy_full, normalizeSongs.
  pose proof (normalizeFrom_pics random random' 0 0 platform data) as H.
  destruct (normalizeFrom random 0 platform data) as [songs|],
           (normalizeFrom random' 0 platform data) as [songs'|];
    simpl in H; try done.
  injection H as H. do 3 f_equal.
  destruct songs, songs'; simpl in *; congruence.
Qed.

Lemma legacy_full_not_null random data platform :
  legacy_full random data platform <> Fulfilled None.
Proof. unfold legacy_full. by destruct (normalizeSongs _ _ _). Qed.

Lemma normalizeFrom_shape random i platform items songs :
  normalizeFrom random i platform items = Some songs ->
  Forall2 (fun item n =>
             n_source n = platform
             /\ n_raw n = (if truthy (get "data" (Some item))
                           then get "data" (Some item) else Some item)
             /\ n_pic n = fixUrl (Some (JStr (findImage (n_raw n)))))
          (List.filter (fun item => truthy (Some item)) items) songs.
Proof.
  revert i songs. induction items as [|item rest IH]; intros i songs;
    cbn [normalizeFrom List.filter].
  - intros [= <-]. constructor.
  - destruct (normalizeItem platform (random i) item) as [|n|] eqn:E; [| |done].
    + apply normalizeItem_Dropped in E. rewrite E. apply IH.
    + apply normalizeItem_Built in E as (Hitem & Hrest). rewrite Hitem.
      destruct (normalizeFrom random (S i) platform rest) as [ns|] eqn:E';
        [|done].
      simpl. intros [= <-]. constructor; [done | by eapply IH].
Qed.
End LegacyFacts.

(** X6.  When [normalizeSongs] returns, it has built one record for each
    item that is not falsy, in the order of the input; each record is tagged
    with the platform asked for, spreads the item (or the item's [data]
    when that is truthy), and its picture address never begins with
    [http://] or [//]. *)
Theorem normalizeSongs_shape random items platform songs :
  Api.normalizeSongs random items platform = Some songs ->
  Forall2 (fun item n =>
             Api.n_source n = platform
             /\ Api.n_raw n = (if Api.truthy (Api.get "data" (Some item))
                               then Api.get "data" (Some item) else Some item)
             /\ startsWith "http://" (Api.n_pic n) = false
             /\ startsWith "//" (Api.n_pic n) = false)
          (List.filter (fun item => Api.truthy (Some item)) items) songs.
Proof.
  intros H. apply normalizeFrom_shape in H.
  eapply Forall2_impl; [exact H|]. cbv beta.
  intros item n (Hs & Hr & Hp). split; [done|]. split; [done|].
  rewrite Hp. apply fixUrl_https.
Qed.

Lemma normalizeSongs_shape_witness :
  Forall2 (fun item n =>
             Api.n_source n = "netease"
             /\ Api.n_raw n = (if Api.truthy (Api.get "data" (Some item))
                               then Api.get "data" (Some item) else Some item)
             /\ startsWith "http://" (Api.n_pic n) = false
             /\ startsWith "//" (Api.n_pic n) = false)
          (List.filter (fun item => Api.truthy (Some item))
             [Api.JNull;
              Api.JObj [("id", Api.JNum 7);
                        ("pic", Api.JStr "//img.example.com/a.jpg")]])
          (default []
             (Api.normalizeSongs (fun _ => "r")
                [Api.JNull;
                 Api.JObj [("id", Api.JNum 7);
                           ("pic", Api.JStr "//img.example.com/a.jpg")]]
                "netease")).
Proof.
  apply (normalizeSongs_shape (fun _ => "r")). vm_compute. reflexivity.
Defined.

Section CacheFacts.
Import Api.

Lemma bind_ret_r {A B} (m : Eff A) (f : A -> B) :
  bind m (fun x => ret (f x)) = (f m.1, m.2).
Proof. unfold bind, ret. simpl. by rewrite app_nil_r. Qed.

Lemma tuneHubFetch_one_call w endpoint body :
  exists c, (tuneHubFetch w endpoint body).2 = [c].
Proof. unfold tuneHubFetch, bind, call, ret. simpl. eauto. Qed.

(** [parseSongs] asks the backend unless the guards at its top refuse. *)
Lemma parseSongs_calls w ids platform quality :
  (parseSongs w ids platform quality).2 =
  if String.eqb ids "" || String.eqb platform "" || startsWith "temp_" ids
  then []
  else (tuneHubFetch w "/v1/parse" (Some (parse_body platform ids quality))).2.
Proof.
  unfold parseSongs.
  generalize (tuneHubFetch w "/v1/parse" (Some (parse_body platform ids quality))).
  intros [res calls].
  destruct (String.eqb ids "" || String.eqb platform ""); simpl; [done|].
  destruct (startsWith "temp_" ids); simpl; [done|].
  unfold bind, ret.
  destruct (negb _ || negb _); simpl; by rewrite app_nil_r.
Qed.

(** The legacy branch of [parseSongFull], with the calls spelled out. *)
Lemma parseSongFull_legacy w random checked stored cache id platform quality :
  id_truthy id = true ->
  startsWith "temp_" (String_id id) = false ->
  platform <> "piped" -> platform <> "youtube" ->
  parseSongFull w random checked stored cache id platform quality =
  let cacheKey := platform +:+ ":" +:+ String_id id +:+ ":" +:+ quality in
  let fetched := parseSongs w (String_id id) platform quality in
  match cache !! cacheKey with
  | Some (data, timestamp) =>
      if bool_decide (checked - timestamp < PARSE_CACHE_TTL)
      then ((legacy_full random data platform, cache), [])
      else match fetched.1 with
           | None | Some [] => ((Fulfilled None, cache), fetched.2)
           | Some data' =>
               ((legacy_full random data' platform,
                 <[cacheKey := (data', stored)]> cache), fetched.2)
           end
  | None =>
      match fetched.1 with
      | None | Some [] => ((Fulfilled None, cache), fetched.2)
      | Some data' =>
          ((legacy_full random data' platform,
            <[cacheKey := (data', stored)]> cache), fetched.2)
      end
  end.
Proof.
  intros Hid Htemp Hp Hy. unfold parseSongFull.
  rewrite Hid, Htemp. simpl negb. cbv iota. simpl orb. cbv iota.
  apply String.eqb_neq in Hp, Hy. rewrite Hp, Hy.
  cbv zeta.
  assert (forall (m : Eff (option (list Json))) key,
            bind m (fun data =>
              match data with
              | None | Some [] => ret (Fulfilled None, cache)
              | Some data' =>
                  ret (legacy_full random data' platform,
                       <[key := (data', stored)]> cache)
              end)
            = match m.1 with
              | None | Some [] => ((Fulfilled None, cache), m.2)
              | Some data' =>
                  ((legacy_full random data' platform,
                    <[key := (data', stored)]> cache), m.2)
              end) as Hbind.
  { intros [[[|x l]|] calls] key; unfold bind, ret; simpl;
      by rewrite app_nil_r. }
  destruct (cache !! _) as [[data timestamp]|]; [|apply Hbind].
  destruct (bool_decide _); [done | apply Hbind].
Qed.
End CacheFacts.

Lemma parseSongFull_guard w random checked stored cache id platform quality :
  (Api.parseSongFull w random checked stored cache id platform quality).2 <> [] ->
  id_truthy id = true /\ startsWith "temp_" (String_id id) = false.
Proof.
  unfold Api.parseSongFull.
  destruct (id_truthy id), (startsWith "temp_" (String_id id)); simpl; done.
Qed.

(** X7.  [parseSongFull] memoises the legacy backend for five minutes.
    After a call for a legacy platform that asked the backend and did not
    return [null], the same call repeated within five minutes of the moment
    the answer was stored issues no request, settles the same way with the
    same record and leaves the cache as it is, whatever the backend would
    answer by then; repeated later than that, it asks the backend again. *)
Theorem parseSongFull_memo w random checked stored cache id platform quality
    r1 cache1 calls1 :
  platform <> "piped" -> platform <> "youtube" ->
  Api.parseSongFull w random checked stored cache id platform quality
  = ((r1, cache1), calls1) ->
  calls1 <> [] ->
  r1 <> Api.Fulfilled None ->
  forall w' random' checked' stored',
    (checked' - stored < Api.PARSE_CACHE_TTL ->
     Api.parseSongFull w' random' checked' stored' cache1 id platform quality
     = ((r1, cache1), []))
    /\ (Api.PARSE_CACHE_TTL <= checked' - stored ->
        (Api.parseSongFull w' random' checked' stored' cache1 id platform
           quality).2 <> []).
Proof.
  intros Hp Hy H1 Hcalls Hr w' random' checked' stored'.
  destruct (parseSongFull_guard w random checked stored cache id platform quality)
    as [Hid Htemp]; [by rewrite H1|].
  rewrite parseSongFull_legacy in H1 by done. cbv zeta in H1.
  rewrite parseSongFull_legacy by done. cbv zeta.
  set (key := platform +:+ ":" +:+ String_id id +:+ ":" +:+ quality) in *.
  assert (exists data, cache1 = <[key := (data, stored)]> cache
                       /\ r1 = Api.legacy_full random data platform
                       /\ calls1 = (Api.parseSongs w (String_id id) platform quality).2)
    as (data & -> & -> & ->).
  { destruct (cache !! key) as [[data timestamp]|].
    - destruct (bool_decide _); [by injection H1 as _ _ <-|].
      destruct (Api.parseSongs w _ _ _).1 as [[|x l]|];
        injection H1 as <- <- <-; try done. by exists (x :: l).
    - destruct (Api.parseSongs w _ _ _).1 as [[|x l]|];
        injection H1 as <- <- <-; try done. by exists (x :: l). }
  rewrite lookup_insert_eq. split.
  - intros Hfresh. rewrite bool_decide_eq_true_2 by done.
    by rewrite (legacy_full_random random' random).
  - intros Hstale. rewrite bool_decide_eq_false_2 by lia.
    rewrite parseSongs_calls in Hcalls.
    assert ((Api.parseSongs w' (String_id id) platform quality).2 <> []) as Hagain.
    { rewrite parseSongs_calls.
      destruct (String.eqb _ "" || String.eqb platform "" || startsWith _ _);
        [done|].
      destruct (tuneHubFetch_one_call w' "/v1/parse"
                  (Some (Api.parse_body platform (String_id id) quality)))
        as [c ->]. done. }
    by destruct (Api.parseSongs w' _ _ _).1 as [[|x l]|].
Qed.

Lemma parseSongFull_memo_witness :
  Api.parseSongFull Api.lyrical (fun _ => "r") 400000 400001
    (<["netease:7:320k" :=
         ([Api.JObj [("id", Api.JNum 7); ("name", Api.JStr "A");
                     ("url", Api.JStr "  http://cdn.example.com/a.mp3 ");
                     ("pic", Api.JStr "//img.example.com/a.jpg")]], 100001)]> ∅)
    (IdNumber 7) "netease" "320k"
  = ((Api.Fulfilled
        (Some {| Api.f_url := Some "https://cdn.example.com/a.mp3";
                 Api.f_lrc := Api.JStr "";
                 Api.f_pic := "https://img.example.com/a.jpg" |}),
      <["netease:7:320k" :=
         ([Api.JObj [("id", Api.JNum 7); ("name", Api.JStr "A");
                     ("url", Api.JStr "  http://cdn.example.com/a.mp3 ");
                     ("pic", Api.JStr "//img.example.com/a.jpg")]], 100001)]> ∅),
     []).
Proof.
  refine (proj1 (parseSongFull_memo Api.plain_http (fun _ => "q") 100000 100001 ∅
                   (IdNumber 7) "netease" "320k" _ _
                   [Api.TuneHub "https://tunehub.sayqz.com/api/v1/parse"
                      (Some (Api.parse_body "netease" "7" "320k")) None]
                   _ _ _ _ _ Api.lyrical (fun _ => "r") 400000 400001) _).
  - discriminate.
  - discriminate.
  - vm_compute. reflexivity.
  - discriminate.
  - discriminate.
  - vm_compute. reflexivity.
Defined.

(** X8.  [parseSongFull] writes its cache only when the legacy backend has
    just answered with at least one item, and then only the entry of the
    platform, id and quality it was called with (even when building the
    result from that answer throws).  Calls for Piped or YouTube tracks,
    refused ids, cache hits and [null] results leave the cache as it was,
    so a failed lookup is asked again by the next call. *)
Theorem parseSongFull_cache_write w random checked stored cache id platform
    quality r cache' calls :
  Api.parseSongFull w random checked stored cache id platform quality
  = ((r, cache'), calls) ->
  cache' <> cache ->
  platform <> "piped" /\ platform <> "youtube"
  /\ r <> Api.Fulfilled None
  /\ exists data,
       (Api.parseSongs w (String_id id) platform quality).1 = Some data
       /\ data <> []
       /\ calls = (Api.parseSongs w (String_id id) platform quality).2
       /\ calls <> []
       /\ cache' = <[platform +:+ ":" +:+ String_id id +:+ ":" +:+ quality
                     := (data, stored)]> cache.
Proof.
  intros H Hneq.
  destruct (id_truthy id) eqn:Hid.
  2:{ unfold Api.parseSongFull in H. rewrite Hid in H. simpl in H.
      injection H as _ <- _. done. }
  destruct (startsWith "temp_" (String_id id)) eqn:Htemp.
  { unfold Api.parseSongFull in H. rewrite Hid, Htemp in H. simpl in H.
    injection H as _ <- _. done. }
  destruct (decide (platform = "piped")) as [->|Hp].
  { unfold Api.parseSongFull in H. rewrite Hid, Htemp in H. simpl in H.
    injection H as _ <- _. done. }
  destruct (decide (platform = "youtube")) as [->|Hy].
  { unfold Api.parseSongFull in H. rewrite Hid, Htemp in H. simpl in H.
    injection H as _ <- _. done. }
  rewrite parseSongFull_legacy in H by done. cbv zeta in H.
  set (key := platform +:+ ":" +:+ String_id id +:+ ":" +:+ quality) in *.
  split; [done|]. split; [done|].
  assert (match (Api.parseSongs w (String_id id) platform quality).1 with
          | None | Some [] =>
              ((Api.Fulfilled None, cache),
               (Api.parseSongs w (String_id id) platform quality).2)
          | Some data' =>
              ((Api.legacy_full random data' platform,
                <[key := (data', stored)]> cache),
               (Api.parseSongs w (String_id id) platform quality).2)
          end = ((r, cache'), calls)) as H'.
  { destruct (cache !! key) as [[data timestamp]|]; [|done].
    destruct (bool_decide _); [|done]. injection H as _ <- _. done. }
  clear H.
  destruct (Api.parseSongs w (String_id id) platform quality).1
    as [[|x l]|] eqn:E; injection H' as <- <- <-; try done.
  split; [apply legacy_full_not_null|].
  exists (x :: l). split; [done|]. split; [done|]. split; [done|].
  split; [|done].
  intros Hnil. rewrite parseSongs_calls in Hnil.
  destruct (String.eqb (String_id id) "" || String.eqb platform "") eqn:G.
  { unfold Api.parseSongs in E. rewrite G in E. done. }
  cbn [orb] in Hnil. rewrite Htemp in Hnil.
  destruct (tuneHubFetch_one_call w "/v1/parse"
              (Some (Api.parse_body platform (String_id id) quality)))
    as [c Hc]. rewrite Hc in Hnil. done.
Qed.

Lemma parseSongFull_cache_write_witness :
  exists data,
    (Api.parseSongs Api.plain_http "7" "netease" "320k").1 = Some data
    /\ (Api.parseSongFull Api.plain_http (fun _ => "q") 100000 100001 ∅
          (IdNumber 7) "netease" "320k").1.2
       = <["netease:7:320k" := (data, 100001)]> ∅.
Proof.
  destruct (parseSongFull_cache_write Api.plain_http (fun _ => "q") 100000 100001 ∅
              (IdNumber 7) "netease" "320k"
              (Api.parseSongFull Api.plain_http (fun _ => "q") 100000 100001 ∅
                 (IdNumber 7) "netease" "320k").1.1
              (Api.parseSongFull Api.plain_http (fun _ => "q") 100000 100001 ∅
                 (IdNumber 7) "netease" "320k").1.2
              (Api.parseSongFull Api.plain_http (fun _ => "q") 100000 100001 ∅
                 (IdNumber 7) "netease" "320k").2)
    as (_ & _ & _ & data & Hdata & _ & _ & _ & Hcache).
  - vm_compute. reflexivity.
  - intros H.
    apply (f_equal (fun m : gmap string (list Api.Json * Z) =>
                      m !! "netease:7:320k")) in H.
    vm_compute in H. discriminate.
  - exists data. split; [exact Hdata | exact Hcache].
Defined.

(** X9.  For a legacy platform (any source other than Piped and YouTube),
    an address resolved by [getSongUrl] or [parseSongFull] is never empty
    and never begins with [http://] or [//], and neither does the picture
    address [parseSongFull] reports: what the backend sends is trimmed and
    moved to https before the player sees it. *)
Theorem legacy_urls_https w random checked stored cache id platform quality :
  platform <> "piped" -> platform <> "youtube" ->
  (forall u, (Api.getSongUrl w id platform quality).1 = Some u ->
     u <> "" /\ startsWith "http://" u = false /\ startsWith "//" u = false)
  /\ (forall full cache',
        (Api.parseSongFull w random checked stored cache id platform quality).1
        = (Api.Fulfilled (Some full), cache') ->
        (forall u, Api.f_url full = Some u ->
           u <> "" /\ startsWith "http://" u = false /\ startsWith "//" u = false)
        /\ startsWith "http://" (Api.f_pic full) = false
        /\ startsWith "//" (Api.f_pic full) = false).
Proof.
  intros Hp Hy.
  assert (forall v u,
            (if String.eqb (Api.fixUrl v) "" then None else Some (Api.fixUrl v))
            = Some u ->
            u <> "" /\ startsWith "http://" u = false /\ startsWith "//" u = false)
    as Hfix.
  { intros v u. destruct (String.eqb (Api.fixUrl v) "") eqn:E; [done|].
    intros [= <-]. apply String.eqb_neq in E. split; [done|].
    apply fixUrl_https. }
  assert (forall random data full,
            Api.legacy_full random data platform = Api.Fulfilled (Some full) ->
            (forall u, Api.f_url full = Some u ->
               u <> "" /\ startsWith "http://" u = false
               /\ startsWith "//" u = false)
            /\ startsWith "http://" (Api.f_pic full) = false
            /\ startsWith "//" (Api.f_pic full) = false) as Hfull.
  { intros rnd data full. unfold Api.legacy_full, Api.normalizeSongs.
    destruct (Api.normalizeFrom rnd 0 platform data) as [songs|] eqn:E; [|done].
    intros [= <-]. cbn [Api.f_url Api.f_pic]. split; [apply Hfix|].
    apply normalizeFrom_shape in E.
    destruct E as [|item n items ns (_ & _ & Hpic) _]; simpl; [done|].
    rewrite Hpic. apply fixUrl_https. }
  split.
  - intros u. unfold Api.getSongUrl.
    destruct (String.eqb platform "" || String.eqb platform "undefined");
      [done|].
    apply String.eqb_neq in Hp, Hy. rewrite Hp, Hy.
    rewrite bind_ret_r. cbn [fst]. apply Hfix.
  - intros full cache' H.
    destruct (id_truthy id) eqn:Hid.
    2:{ unfold Api.parseSongFull in H. rewrite Hid in H. simpl in H. done. }
    destruct (startsWith "temp_" (String_id id)) eqn:Htemp.
    { unfold Api.parseSongFull in H. rewrite Hid, Htemp in H. simpl in H. done. }
    rewrite parseSongFull_legacy in H by done. cbv zeta in H.
    destruct (cache !! _) as [[data timestamp]|].
    + destruct (bool_decide _).
      * injection H as H _. by eapply Hfull.
      * destruct (Api.parseSongs w _ _ _).1 as [[|x l]|];
          injection H as H _; try done. by eapply Hfull.
    + destruct (Api.parseSongs w _ _ _).1 as [[|x l]|];
        injection H as H _; try done. by eapply Hfull.
Qed.

Lemma legacy_urls_https_witness :
  (Api.getSongUrl Api.plain_http (IdNumber 7) "netease" "320k").1
  = Some "https://cdn.example.com/a.mp3"
  /\ startsWith "http://" "https://cdn.example.com/a.mp3" = false.
Proof.
  split; [vm_compute; reflexivity|].
  refine (proj1 (proj2 (proj1 (legacy_urls_https Api.plain_http (fun _ => "q")
                                 100000 100001 ∅ (IdNumber 7) "netease" "320k"
                                 _ _) "https://cdn.example.com/a.mp3" _))).
  - discriminate.
  - discriminate.
  - vm_compute. reflexivity.
Defined.

(** ** Invariants of a session *)

(** A property of the provider's state that every elementary update keeps
    is kept by [playSong], by every event and control, and so by every
    session. *)
Section Invariant.
Import Player Controls.
Variable w : World.
Variable I : Player -> Prop.

Hypothesis I_currentSong : forall v st, I st -> I (set_currentSong v st).
Hypothesis I_isPlaying : forall v st, I st -> I (set_isPlaying v st).
Hypothesis I_isLoading : forall v st, I st -> I (set_isLoading v st).
Hypothesis I_duration : forall v st, I st -> I (set_duration v st).
Hypothesis I_currentTime : forall v st, I st -> I (set_currentTime v st).
Hypothesis I_playMode : forall v st, I st -> I (set_playMode v st).
Hypothesis I_audioQuality : forall v st, I st -> I (set_audioQuality v st).
Hypothesis I_retryCountRef : forall v st, I st -> I (set_retryCountRef v st).
Hypothesis I_audioRef : forall v st, I st -> I (set_audioRef v st).
Hypothesis I_emit :
  forall e st, e <> CtxCreate -> e <> CtxClose -> I st -> I (emit e st).
Hypothesis I_enqueue :
  forall s st, I st -> I (set_queue (enqueue s (queue st)) st).
Hypothesis I_remove : forall songId st, I st -> I (removeFromQueue songId st).
Hypothesis I_clear : forall st, I st -> I (clearQueue st).
Hypothesis I_write_url : forall u f ap st, I st -> I (write_url u f ap st).
Hypothesis I_resume_ctx : forall st, I st -> I (resume_ctx st).
Hypothesis I_create : forall b st, I st -> I (createAudioElement b st).
Hypothesis I_init : forall st, I st -> I (initAudioContext w st).
Hypothesis I_persist : forall st, I st -> I (persist st).

Lemma inv_with_audio f st : I st -> I (with_audio f st).
Proof. unfold with_audio. apply I_audioRef. Qed.

Lemma inv_updateMediaSession song playing st :
  I st -> I (updateMediaSession w song playing st).
Proof.
  intros H. unfold updateMediaSession. destruct song; [|done].
  destruct (hasMediaSession w); [|done]. by apply I_emit.
Qed.

Lemma inv_commit st : I st -> I (commit w st).
Proof.
  intros H. unfold commit.
  destruct (_ || _); [apply inv_updateMediaSession|]; by apply I_persist.
Qed.

Lemma inv_settle_play fullSong st : I st -> I (settle_play w fullSong st).
Proof.
  intros H. unfold settle_play. destruct (playStart w); try done.
  - by apply inv_updateMediaSession.
  - by apply I_isLoading, I_isPlaying.
Qed.

Lemma inv_asking asked st :
  (forall e, e ∈ asked -> e <> CtxCreate /\ e <> CtxClose) ->
  I st -> I (asking w asked st).
Proof.
  unfold asking. revert st.
  induction asked as [|e asked IH]; intros st Hes H; cbn [fold_left]; [done|].
  apply IH.
  - intros e' He'. apply Hes. by right.
  - assert (I (emit e st)) as He
      by (apply I_emit; [apply Hes; by left | apply Hes; by left | done]).
    unfold ask. destruct (answer_to w e) as [[|r]|]; try done.
    by apply inv_commit.
Qed.

Lemma inv_togglePlay st : I st -> I (togglePlay w st).1.
Proof.
  intros H. unfold togglePlay.
  destruct (audioRef st); [|done]. destruct (currentSongRef st); [|done].
  destruct (negb _); [done|].
  destruct (isPlaying (resume_ctx st)); cbn [fst];
    apply inv_updateMediaSession, I_isPlaying, I_emit; try done;
    by apply inv_with_audio, I_resume_ctx.
Qed.

Lemma inv_playSong_begin song forceQuality st :
  I st -> I (playSong_begin w song forceQuality st).1.
Proof.
  intros H. unfold playSong_begin.
  destruct (audioRef st); [|done].
  destruct (already_loaded _ _ _ _ _).
  - pose proof (inv_togglePlay st H) as Ht.
    by destruct (togglePlay w st).
  - cbn [fst]. apply I_enqueue, I_currentSong.
    destruct (negb _); [apply I_retryCountRef|]; by apply I_isLoading.
Qed.

Lemma inv_playSong_resume song fullSong same different appended resolved st :
  I st ->
  I (playSong_resume w song fullSong same different appended resolved st).
Proof.
  intros H. unfold playSong_resume.
  destruct resolved as [audioUrl|]; [|by apply I_isLoading].
  destruct (negb _); [done|].
  destruct (usable audioUrl) as [u|]; [|by apply I_isPlaying, I_isLoading].
  pose proof (I_write_url u fullSong appended st H) as H1.
  set (st1 := write_url u fullSong appended st) in *. clearbody st1.
  destruct (if same && different then _ else _) as [resumeTime|];
    [|by apply I_isLoading].
  assert (I (if negb (audioCtxConnectedRef st1)
             then createAudioElement true st1 else st1)) as H2
    by (destruct (negb _); [by apply I_create | done]).
  set (st2 := if negb (audioCtxConnectedRef st1)
              then createAudioElement true st1 else st1) in *. clearbody st2.
  pose proof (I_init st2 H2) as H3.
  set (st3 := initAudioContext w st2) in *. clearbody st3.
  destruct (audioRef st3); [|by apply I_isLoading].
  apply inv_settle_play, I_emit; [done..|].
  apply inv_with_audio, I_isLoading, I_isPlaying, I_resume_ctx.
  destruct (negb _); [apply inv_with_audio|];
    by apply I_emit; [..|apply inv_with_audio].
Qed.

Lemma inv_playSong fuel song forceQuality st st' :
  I st -> playSong w fuel song forceQuality st = Some st' -> I st'.
Proof.
  revert song forceQuality st.
  induction fuel as [|fuel IH]; intros song forceQuality st H; simpl; [done|].
  pose proof (inv_playSong_begin song forceQuality st H) as Hb.
  destruct (playSong_begin w song forceQuality st) as [st1 [[c|]|full s d ap]];
    cbn [fst] in Hb.
  - by apply IH.
  - by intros [= <-].
  - pose proof (resolve_only_asks w song) as Hasks.
    destruct (resolve w song) as [resolved asked]. intros [= <-].
    apply inv_playSong_resume, inv_asking; [|done].
    intros e He. by destruct (Hasks e He) as [videoId [-> | ->]].
Qed.

Lemma inv_finish fuel r st' :
  I r.1 -> finish w fuel r = Some st' -> I st'.
Proof.
  destruct r as [st [c|]]; unfold finish; cbn [fst]; intros H.
  - destruct (playSong w fuel _ _ st) as [st1|] eqn:E; [|done].
    intros [= <-]. apply inv_commit. by eapply inv_playSong.
  - intros [= <-]. by apply inv_commit.
Qed.

Lemma inv_playNext random fuel force st r :
  I st -> playNext random fuel force st = Some r -> I r.1.
Proof.
  intros H. unfold playNext.
  destruct (queueRef st); [by intros [= <-]|].
  destruct (negb force && _).
  - intros [= <-]. cbn [fst]. destruct (audioRef st); [|done].
    by apply I_emit; [..|apply inv_with_audio].
  - destruct (next_index random fuel st); [|done]. by intros [= <-].
Qed.

Lemma inv_handlers_error st : I st -> I (handlers_error st).1.
Proof.
  intros H. unfold handlers_error.
  destruct (currentSongRef st);
    [destruct (negb _ && _)|]; cbn [fst];
    repeat first [apply I_retryCountRef | apply I_isPlaying | apply I_isLoading];
    done.
Qed.

Lemma inv_dispatch fuel ev st st' :
  I st -> dispatch w fuel ev st = Some st' -> I st'.
Proof.
  intros H. destruct ev as [song fq| |q| | |random]; cbn [dispatch].
  - destruct (playSong w fuel song fq st) as [st1|] eqn:E; [|done].
    intros [= <-]. apply inv_commit. by eapply inv_playSong.
  - apply inv_finish. by apply inv_togglePlay.
  - apply inv_finish. cbn [setAudioQuality fst]. by apply I_audioQuality.
  - apply inv_finish. by apply inv_handlers_error.
  - intros [= <-]. apply inv_commit. unfold handlers_loadedmetadata.
    by apply I_retryCountRef, I_isLoading, I_duration.
  - unfold handlers_ended.
    destruct (playNext random fuel false st) as [r|] eqn:E; [|done].
    cbn [mbind option_bind]. apply inv_finish. by eapply inv_playNext.
Qed.

Lemma inv_perform fuel act st st' :
  I st -> perform w fuel act st = Some st' -> I st'.
Proof.
  intros H. destruct act; cbn [perform].
  - by apply inv_dispatch.
  - destruct (playNext random fuel true st) as [r|] eqn:E; [|done].
    cbn [mbind option_bind]. apply inv_finish. by eapply inv_playNext.
  - apply inv_finish. unfold playPrev. by destruct (queueRef st).
  - intros [= <-]. apply inv_commit. unfold seek.
    destruct (audioRef st); [|done]. by apply I_currentTime, inv_with_audio.
  - intros [= <-]. by apply inv_commit, I_enqueue.
  - intros [= <-]. by apply inv_commit, I_remove.
  - intros [= <-]. by apply inv_commit, I_clear.
  - intros [= <-]. by apply inv_commit, I_playMode.
  - intros [= <-]. apply inv_commit. unfold handlers_timeupdate.
    destruct (audioRef st); [|done]. by apply I_currentTime.
  - intros [= <-]. by apply inv_commit, I_isLoading.
  - intros [= <-]. by apply inv_commit, I_isLoading.
Qed.

Lemma inv_session fuel acts st st' :
  I st -> session w fuel acts st = Some st' -> I st'.
Proof.
  revert st. induction acts as [|act acts IH]; intros st H; simpl.
  - by intros [= <-].
  - destruct (perform w fuel act st) as [st1|] eqn:E; [|done].
    cbn [mbind option_bind]. apply IH. by eapply inv_perform.
Qed.
End Invariant.

(** *** The queue *)

Section QueueFacts.
Import Player Controls.

Lemma in_queue_ids song q :
  in_queue song q = true <-> String_id (id song) ∈ queue_ids q.
Proof.
  unfold in_queue, queue_ids. rewrite existsb_exists, list_elem_of_fmap.
  split.
  - intros (s & Hin & Heq). apply String.eqb_eq in Heq.
    exists s. split; [done | by apply list_elem_of_In].
  - intros (s & Heq & Hin). exists s. split; [by apply list_elem_of_In|].
    by apply String.eqb_eq.
Qed.

Lemma enqueue_NoDup song q :
  NoDup (queue_ids q) -> NoDup (queue_ids (enqueue song q)).
Proof.
  intros H. unfold enqueue. destruct (in_queue song q) eqn:E; [done|].
  unfold queue_ids. rewrite map_app. simpl.
  apply NoDup_app. split; [done|]. split; [|apply NoDup_singleton].
  intros k Hk Hk'. apply list_elem_of_singleton in Hk'. subst k.
  apply in_queue_ids in Hk. congruence.
Qed.

Lemma filter_ids_NoDup (keep : Song -> bool) q :
  NoDup (queue_ids q) -> NoDup (queue_ids (List.filter keep q)).
Proof.
  induction q as [|s q IH]; simpl; [done|].
  intros [Hs Hq]%NoDup_cons. destruct (keep s); simpl; [|by apply IH].
  apply NoDup_cons. split; [|by apply IH].
  intros Hin. apply Hs. unfold queue_ids in *.
  apply list_elem_of_fmap in Hin as (s' & Heq & Hin).
  apply list_elem_of_fmap. exists s'. split; [done|].
  apply list_elem_of_In in Hin. apply filter_In in Hin as [Hin _].
  by apply list_elem_of_In.
Qed.

Lemma patch_last_ids u fullSong (appended : bool) q :
  queue_ids (if appended && bool_decide (last q = Some fullSong)
             then (removelast q ++ [with_url u fullSong])%list else q)
  = queue_ids q.
Proof.
  destruct appended; simpl; [|done]. case_bool_decide as Hlast; [|done].
  apply last_Some in Hlast as [q' ->]. rewrite removelast_last.
  unfold queue_ids. by rewrite !map_app.
Qed.

Lemma write_url_queue_ids u fullSong appended st :
  queue_ids (queue (write_url u fullSong appended st)) = queue_ids (queue st)
  /\ queue_ids (queueRef (write_url u fullSong appended st))
     = queue_ids (queueRef st).
Proof. split; apply patch_last_ids. Qed.

Lemma resume_ctx_queue st :
  queue (resume_ctx st) = queue st /\ queueRef (resume_ctx st) = queueRef st.
Proof. unfold resume_ctx. by destruct (audioCtxRef st) as [[]|]. Qed.

Lemma createAudioElement_queue b st :
  queue (createAudioElement b st) = queue st
  /\ queueRef (createAudioElement b st) = queueRef st.
Proof.
  unfold createAudioElement.
  destruct (audioRef st); simpl; by destruct (audioCtxRef st).
Qed.

Lemma initAudioContext_queue w st :
  queue (initAudioContext w st) = queue st
  /\ queueRef (initAudioContext w st) = queueRef st.
Proof.
  unfold initAudioContext. destruct (isIOS w); [done|].
  destruct (audioCtxRef st); [done|]. destruct (audioRef st); [|done].
  by destruct (webAudio w).
Qed.
End QueueFacts.

(** X10.  The queue never holds a track twice.  If no two entries of the
    queue share an identifier (compared as [String(id)], the way the
    provider compares them) when a session starts, none do after any
    sequence of plays, toggles, quality changes, audio events, skips, seeks
    and queue edits, whatever the sources answer. *)
Theorem session_queue_unique w fuel acts st st' :
  NoDup (Controls.queue_ids (Player.queue st)) ->
  NoDup (Controls.queue_ids (Player.queueRef st)) ->
  Controls.session w fuel acts st = Some st' ->
  NoDup (Controls.queue_ids (Player.queue st'))
  /\ NoDup (Controls.queue_ids (Player.queueRef st')).
Proof.
  intros Hq Hr Hs.
  eapply (inv_session w
            (fun st => NoDup (Controls.queue_ids (Player.queue st))
                       /\ NoDup (Controls.queue_ids (Player.queueRef st))));
    [.. | split; [exact Hq | exact Hr] | exact Hs];
    try (intros; done).
  - intros s st0 [H1 H2]. split; [|done]. by apply enqueue_NoDup.
  - intros songId st0 [H1 H2]. split; [|done]. by apply filter_ids_NoDup.
  - intros st0 [H1 H2]. split; [apply NoDup_nil_2 | done].
  - intros u f ap st0 [H1 H2].
    destruct (write_url_queue_ids u f ap st0) as [-> ->]. done.
  - intros st0. by destruct (resume_ctx_queue st0) as [-> ->].
  - intros b st0. by destruct (createAudioElement_queue b st0) as [-> ->].
  - intros st0. by destruct (initAudioContext_queue w st0) as [-> ->].
  - intros st0 [H1 H2]. done.
Qed.

Lemma session_queue_unique_witness :
  exists st',
    Controls.session Player.online 3
      [Controls.AddToQueue Player.song_a;
       Controls.Engine (Player.EvPlaySong Player.song_a None);
       Controls.AddToQueue Player.song_b;
       Controls.Engine (Player.EvPlaySong Player.song_b None);
       Controls.AddToQueue Player.song_a;
       Controls.RemoveFromQueue (IdString "b");
       Controls.PlayPrev Player.half_then_zero]
      Controls.mounted = Some st'
    /\ NoDup (Controls.queue_ids (Player.queue st')).
Proof.
  destruct (Controls.session Player.online 3
              [Controls.AddToQueue Player.song_a;
               Controls.Engine (Player.EvPlaySong Player.song_a None);
               Controls.AddToQueue Player.song_b;
               Controls.Engine (Player.EvPlaySong Player.song_b None);
               Controls.AddToQueue Player.song_a;
               Controls.RemoveFromQueue (IdString "b");
               Controls.PlayPrev Player.half_then_zero]
              Controls.mounted) as [st'|] eqn:E.
  - exists st'. split; [reflexivity|].
    refine (proj1 (session_queue_unique Player.online 3 _ Controls.mounted st'
                     _ _ E)).
    + apply NoDup_nil_2.
    + apply NoDup_nil_2.
  - vm_compute in E. discriminate E.
Defined.

(** *** The audio context *)

Section ContextFacts.
Import Player Controls.

Lemma contexts_created_emit e es :
  contexts_created (es ++ [e])
  = (contexts_created es + match e with CtxCreate => 1 | _ => 0 end)%nat.
Proof.
  unfold contexts_created. rewrite List.filter_app, length_app.
  by destruct e.
Qed.

Lemma contexts_closed_emit e es :
  contexts_closed (es ++ [e])
  = (contexts_closed es + match e with CtxClose => 1 | _ => 0 end)%nat.
Proof.
  unfold contexts_closed. rewrite List.filter_app, length_app.
  by destruct e.
Qed.
End ContextFacts.

(** X11.  On iOS, and in a browser without Web Audio, the provider never
    creates an audio context: through any session that starts without one,
    [audioCtxRef] stays empty, the element is never marked as routed
    through a context, and the effect log gains no context creation. *)
Theorem session_without_context w fuel acts st st' :
  Player.isIOS w = true \/ Player.webAudio w = None ->
  Player.audioCtxRef st = None ->
  Player.audioCtxConnectedRef st = false ->
  Controls.session w fuel acts st = Some st' ->
  Player.audioCtxRef st' = None
  /\ Player.audioCtxConnectedRef st' = false
  /\ Controls.contexts_created (Player.effects st')
     = Controls.contexts_created (Player.effects st).
Proof.
  intros Hw Hctx Hconn Hs.
  eapply (inv_session w
            (fun s => Player.audioCtxRef s = None
                      /\ Player.audioCtxConnectedRef s = false
                      /\ Controls.contexts_created (Player.effects s)
                         = Controls.contexts_created (Player.effects st)));
    [.. | split; [exact Hctx | split; [exact Hconn | reflexivity]] | exact Hs];
    try (intros; done).
  - intros e st0 He _ (H1 & H2 & H3). split; [done|]. split; [done|].
    simpl. rewrite contexts_created_emit, <- H3. destruct e; try done; lia.
  - intros st0 (H1 & H2 & H3). unfold Player.resume_ctx. by rewrite H1.
  - intros b st0 (H1 & H2 & H3). unfold Player.createAudioElement.
    destruct (Player.audioRef st0); simpl; rewrite H1; simpl;
      (split; [done|]; split; [done|]);
      rewrite ?contexts_created_emit, <- H3; lia.
  - intros st0 (H1 & H2 & H3). unfold Player.initAudioContext.
    destruct Hw as [-> | Hw]; [done|].
    destruct (Player.isIOS w); [done|]. rewrite H1, Hw.
    by destruct (Player.audioRef st0).
Qed.

Lemma session_without_context_witness :
  exists st',
    Controls.session Controls.iphone 3
      [Controls.Engine (Player.EvPlaySong Player.song_a None);
       Controls.Engine (Player.EvPlaySong Player.song_c None);
       Controls.Engine Player.EvTogglePlay]
      Controls.mounted = Some st'
    /\ Player.audioCtxRef st' = None
    /\ Controls.contexts_created (Player.effects st') = 0%nat.
Proof.
  destruct (Controls.session Controls.iphone 3
              [Controls.Engine (Player.EvPlaySong Player.song_a None);
               Controls.Engine (Player.EvPlaySong Player.song_c None);
               Controls.Engine Player.EvTogglePlay]
              Controls.mounted) as [st'|] eqn:E.
  - exists st'. split; [reflexivity|].
    destruct (session_without_context Controls.iphone 3 _ Controls.mounted st'
                (or_introl eq_refl) eq_refl eq_refl E) as (H1 & _ & H3).
    split; [exact H1 | exact H3].
  - vm_compute in E. discriminate E.
Defined.

(** X12.  The provider holds at most one audio context and leaks none of
    those it sets up.  Through any session, the contexts that
    [initAudioContext] has set up so far number exactly the contexts closed
    plus the one held in [audioCtxRef], if any, and the element is marked
    as routed through a context exactly while one is held. *)
Theorem session_one_context w fuel acts st st' :
  (Controls.contexts_created (Player.effects st)
   = Controls.contexts_closed (Player.effects st)
     + match Player.audioCtxRef st with Some _ => 1 | None => 0 end)%nat ->
  (Player.audioCtxConnectedRef st = true <-> is_Some (Player.audioCtxRef st)) ->
  Controls.session w fuel acts st = Some st' ->
  (Controls.contexts_created (Player.effects st')
   = Controls.contexts_closed (Player.effects st')
     + match Player.audioCtxRef st' with Some _ => 1 | None => 0 end)%nat
  /\ (Player.audioCtxConnectedRef st' = true <-> is_Some (Player.audioCtxRef st')).
Proof.
  intros Hcount Hconn Hs.
  eapply (inv_session w
            (fun s =>
               (Controls.contexts_created (Player.effects s)
                = Controls.contexts_closed (Player.effects s)
                  + match Player.audioCtxRef s with Some _ => 1 | None => 0 end)%nat
               /\ (Player.audioCtxConnectedRef s = true
                   <-> is_Some (Player.audioCtxRef s))));
    [.. | split; [exact Hcount | exact Hconn] | exact Hs];
    try (intros; done).
  - intros e st0 He He' [H1 H2]. split; [|done]. simpl.
    rewrite contexts_created_emit, contexts_closed_emit, H1.
    destruct e; try done; lia.
  - intros st0 [H1 H2]. unfold Player.resume_ctx.
    destruct (Player.audioCtxRef st0) as [[]|] eqn:E; try (by rewrite ?E).
    simpl. rewrite contexts_created_emit, contexts_closed_emit, H1.
    split; [lia|]. rewrite H2. split; by eexists.
  - intros b st0 [H1 H2]. unfold Player.createAudioElement.
    destruct (Player.audioRef st0); simpl;
      destruct (Player.audioCtxRef st0) eqn:E; simpl;
      rewrite ?contexts_created_emit, ?contexts_closed_emit, ?E, H1;
      (split; [lia|]); try done;
      split; try done; by intros [? ?].
  - intros st0 [H1 H2]. unfold Player.initAudioContext.
    destruct (Player.isIOS w); [done|].
    destruct (Player.audioCtxRef st0) eqn:E; [by rewrite E|].
    destruct (Player.audioRef st0); [|by rewrite E].
    destruct (Player.webAudio w); [|by rewrite E].
    simpl. rewrite contexts_created_emit, contexts_closed_emit, H1.
    split; [lia|]. split; by eexists.
Qed.

Lemma session_one_context_witness :
  exists st',
    Controls.session Player.online 3
      [Controls.Engine (Player.EvPlaySong Player.song_a None);
       Controls.Engine (Player.EvPlaySong Player.song_b None)]
      Controls.mounted = Some st'
    /\ (Controls.contexts_created (Player.effects st')
        = Controls.contexts_closed (Player.effects st')
          + match Player.audioCtxRef st' with Some _ => 1 | None => 0 end)%nat.
Proof.
  destruct (Controls.session Player.online 3
              [Controls.Engine (Player.EvPlaySong Player.song_a None);
               Controls.Engine (Player.EvPlaySong Player.song_b None)]
              Controls.mounted) as [st'|] eqn:E.
  - exists st'. split; [reflexivity|].
    refine (proj1 (session_one_context Player.online 3 _ Controls.mounted st'
                     _ _ E)).
    + reflexivity.
    + split; [discriminate | by intros [? ?]].
  - vm_compute in E. discriminate E.
Defined.

(** *** The element after a successful call *)

Section ResumeFacts.
Import Player.

Lemma createAudioElement_audio withCors st :
  audioRef (createAudioElement withCors st)
  = Some {| src := ""; a_currentTime := 0%Q; a_duration := 0%Q;
            paused := true; crossOrigin := withCors |}.
Proof.
  unfold createAudioElement.
  destruct (audioRef st); simpl; by destruct (audioCtxRef st).
Qed.

(** The element [playSong] leaves behind once a URL [u] has been resolved:
    loaded with [u], moved to the resume position when there is one, and
    started.  A new element (with CORS) has replaced the old one unless the
    old one is routed through an audio context. *)
Lemma playSong_resume_audio w song fullSong same different appended u st a :
  u <> "" ->
  audioRef st = Some a ->
  id <$> currentSongRef st = Some (id song) ->
  audioRef (playSong_resume w song fullSong same different appended
              (Api.Fulfilled (Some u)) st)
  = Some {| src := u;
            a_currentTime :=
              (let resumeTime :=
                 if same && different then a_currentTime a else 0%Q in
               if Qle_bool resumeTime 0 then 0%Q else resumeTime);
            a_duration := 0%Q;
            paused := false;
            crossOrigin :=
              if audioCtxConnectedRef st then crossOrigin a else true |}.
Proof.
  intros Hu Ha Hcur. unfold playSong_resume.
  rewrite bool_decide_eq_true_2 by done. cbn [negb].
  unfold usable. apply String.eqb_neq in Hu. rewrite Hu.
  set (st1 := write_url u fullSong appended st).
  assert (audioRef st1 = Some a) as Ha1 by done.
  assert (audioCtxConnectedRef st1 = audioCtxConnectedRef st) as Hc1 by done.
  clearbody st1.
  set (resumeTime := if same && different then a_currentTime a else 0%Q).
  assert ((if same && different
           then a_currentTime <$> audioRef st1 else Some 0%Q) = Some resumeTime)
    as ->.
  { rewrite Ha1. unfold resumeTime. by destruct (same && different). }
  set (base := {| src := ""; a_currentTime := 0%Q; a_duration := 0%Q;
                  paused := true;
                  crossOrigin := if audioCtxConnectedRef st
                                 then crossOrigin a else true |}).
  set (st2 := if negb (audioCtxConnectedRef st1)
              then createAudioElement true st1 else st1).
  assert (exists x, audioRef st2 = Some x
                    /\ crossOrigin x = crossOrigin base) as (x & Hx & Hcors).
  { unfold st2, base. rewrite Hc1.
    destruct (audioCtxConnectedRef st); cbn [negb].
    - by exists a.
    - rewrite createAudioElement_audio. by eexists. }
  clearbody st2.
  destruct (initAudioContext_frame w st2) as (Ha3 & _ & _).
  set (st3 := initAudioContext w st2) in *. clearbody st3.
  rewrite Ha3, Hx.
  set (st4 := emit (AudioLoad u) (with_audio (audio_load u) st3)).
  assert (audioRef st4 = Some (audio_load u x)) as Ha4
    by (simpl; by rewrite Ha3, Hx).
  clearbody st4.
  set (st5 := if negb (Qle_bool resumeTime 0)
              then with_audio (audio_seek resumeTime) st4 else st4).
  assert (audioRef st5
          = Some (if Qle_bool resumeTime 0 then audio_load u x
                  else audio_seek resumeTime (audio_load u x))) as Ha5.
  { unfold st5. destruct (Qle_bool resumeTime 0); simpl; by rewrite ?Ha4. }
  clearbody st5.
  destruct (resume_ctx_frame st5) as (Ha6 & _).
  set (st6 := resume_ctx st5) in *. clearbody st6.
  set (st8 := emit AudioPlay
                (with_audio audio_play
                   (set_isLoading false (set_isPlaying true st6)))).
  destruct (settle_play_frame w (with_url u fullSong) st8) as (Ha9 & _).
  rewrite Ha9. simpl. rewrite Ha6, Ha5. simpl.
  unfold audio_play, audio_seek, audio_load.
  destruct (Qle_bool resumeTime 0); simpl; by rewrite Hcors.
Qed.

Lemma playSong_resume_stale w song fullSong same different appended resolved st :
  id <$> currentSongRef st <> Some (id song) ->
  playSong_resume w song fullSong same different appended resolved st
  = match resolved with
    | Api.Fulfilled _ => st
    | Api.Rejected => set_isLoading false st
    end.
Proof.
  intros Hcur. unfold playSong_resume. destruct resolved; [|done].
  by rewrite bool_decide_eq_false_2.
Qed.
End ResumeFacts.

Section PlayFacts.
Import Player Controls.

Lemma enqueue_elem song q : String_id (id song) ∈ queue_ids (enqueue song q).
Proof.
  unfold enqueue. destruct (in_queue song q) eqn:E.
  - by apply in_queue_ids.
  - unfold queue_ids. rewrite map_app. apply elem_of_app. right.
    apply list_elem_of_here.
Qed.

End PlayFacts.

(** X13.  A [playSong] call that goes on to resolve and obtains a URL loads
    it and starts playback: the element holds the URL, positioned at zero
    (at the old position when the same song is reloaded for another
    quality) and is not paused; a fresh CORS element has replaced the old
    one unless that one is routed through an audio context.  The song, with
    its URL, is the current song and is in the queue; loading is over and
    the play state is set, withdrawn only when the browser refuses to start
    ([NotAllowedError]). *)
Theorem playSong_starts_playback w song forceQuality st a fuel u :
  Player.audioRef st = Some a ->
  Player.already_loaded w song forceQuality st a = false ->
  (Player.resolve w song).1 = Api.Fulfilled (Some u) ->
  u <> "" ->
  exists st',
    Player.playSong w (S fuel) song forceQuality st = Some st'
    /\ Player.audioRef st'
       = Some {| Player.src := u;
                 Player.a_currentTime :=
                   (let resumeTime :=
                      if Player.isSameSong song st
                         && Player.isDifferentQuality forceQuality st
                      then Player.a_currentTime a else 0%Q in
                    if Qle_bool resumeTime 0 then 0%Q else resumeTime);
                 Player.a_duration := 0%Q;
                 Player.paused := false;
                 Player.crossOrigin :=
                   if Player.audioCtxConnectedRef st
                   then Player.crossOrigin a else true |}
    /\ Player.currentSong st' = Some (Player.with_url u song)
    /\ String_id (id song) ∈ Controls.queue_ids (Player.queue st')
    /\ Player.isLoading st' = false
    /\ Player.isPlaying st' =
       match Player.playStart w with
       | Player.NotAllowedError => false
       | _ => true
       end
    /\ Player.AudioLoad u ∈ Player.effects st'
    /\ Player.AudioPlay ∈ Player.effects st'.
Proof.
  intros Ha Hfresh Hres Hu.
  destruct (playSong_begin_awaiting w song forceQuality st a Ha Hfresh)
    as (st1 & appended & Hb & Ha1 & _ & Hconn1 & Hsong1 & Hq1 & _ & _).
  rewrite (playSong_unfold_awaiting _ _ _ _ _ _ _ _ _ Hb), Hres.
  destruct (asking_resolved_frame w song u st1 Hres Hu)
    as (Ha2 & Hconn2 & Hsong2 & Href2 & Hq2 & _).
  set (st2 := Player.asking w _ st1) in *. clearbody st2.
  eexists. split; [reflexivity|].
  split.
  { rewrite (playSong_resume_audio w song song _ _ appended u st2 a); try done.
    - by rewrite Hconn2, Hconn1.
    - congruence.
    - rewrite Href2, Hsong1. done. }
  destruct (playSong_resume_resolved w song song
              (Player.isSameSong song st)
              (Player.isDifferentQuality forceQuality st) appended u st2 a Hu)
    as (a' & _ & _ & _ & Hcs & Hld & Hpl & He1 & He2).
  { congruence. }
  { rewrite Href2, Hsong1. done. }
  { congruence. }
  split; [exact Hcs|]. split; [|done].
  apply (inv_playSong_resume w
           (fun s => String_id (id song) ∈ Controls.queue_ids (Player.queue s)));
    try (intros; done).
  - intros u' f ap s Hin.
    by destruct (write_url_queue_ids u' f ap s) as [-> _].
  - intros s. by destruct (resume_ctx_queue s) as [-> _].
  - intros b s. by destruct (createAudioElement_queue b s) as [-> _].
  - intros s. by destruct (initAudioContext_queue w s) as [-> _].
  - rewrite Hq2, Hq1. apply enqueue_elem.
Qed.

Lemma playSong_starts_playback_witness :
  exists st',
    Player.playSong Player.online 1 Player.song_b None
      (Player.playing Player.song_a [Player.song_a] Player.sequence) = Some st'
    /\ Player.currentSong st' = Some (Player.with_url "https://cdn/b" Player.song_b)
    /\ Player.isPlaying st' = true.
Proof.
  destruct (playSong_starts_playback Player.online Player.song_b None
              (Player.playing Player.song_a [Player.song_a] Player.sequence)
              {| Player.src := "https://cdn/current"; Player.a_currentTime := 42%Q;
                 Player.a_duration := 180%Q; Player.paused := false;
                 Player.crossOrigin := true |}
              0%nat "https://cdn/b" eq_refl eq_refl eq_refl)
    as (st' & Hrun & _ & Hsong & _ & _ & Hplaying & _).
  - discriminate.
  - exists st'. split; [exact Hrun|]. split; [exact Hsong | exact Hplaying].
Defined.



(** X15.  The last call wins.  When [playSong] is called for a second song
    while the resolution of a first one is still awaited, and the second
    resolves to a URL, the element ends up loaded with the second song's
    URL and started, and the second song is the current song, in whichever
    order the two resolutions settle and whatever the first one yields: a
    resolution that comes back for a song that is no longer current is
    dropped. *)
Theorem overlapped_last_call_wins w first second order st a u :
  Player.audioRef st = Some a ->
  id first <> id second ->
  Player.already_loaded w first None st a = false ->
  (Player.resolve w second).1 = Api.Fulfilled (Some u) ->
  u <> "" ->
  exists st' a',
    Controls.overlapped w first second order st = Some st'
    /\ Player.audioRef st' = Some a'
    /\ Player.src a' = u
    /\ Player.paused a' = false
    /\ Player.currentSong st' = Some (Player.with_url u second)
    /\ Player.isLoading st' = false
    /\ Player.isPlaying st' =
       match Player.playStart w with
       | Player.NotAllowedError => false
       | _ => true
       end.
Proof.
  intros Ha Hne Hfresh Hres Hu. unfold Controls.overlapped.
  destruct (playSong_begin_awaiting w first None st a Ha Hfresh)
    as (st1 & appended1 & -> & Ha1 & _ & _ & Hsong1 & _).
  destruct (Player.resolve w first) as [resolved1 asked1].
  destruct (asking_commit_frame w asked1 st1) as (Ha1' & _ & _ & Href1' & _).
  cbv zeta in Ha1', Href1'.
  set (st1' := Player.commit w (Player.asking w asked1 st1)) in *.
  clearbody st1'.
  assert (Player.already_loaded w second None st1' a = false) as Hfresh2.
  { unfold Player.already_loaded, Player.isSameSong.
    rewrite Href1', Hsong1. cbn [fmap option_fmap option_map].
    rewrite bool_decide_eq_false_2; [done|]. by intros [= ?]. }
  destruct (playSong_begin_awaiting w second None st1' a) as
    (st2 & appended2 & -> & Ha2 & _ & _ & Hsong2 & _);
    [congruence | done |].
  destruct (Player.resolve w second) as [resolved2 asked2].
  cbn [fst] in Hres. subst resolved2.
  destruct (asking_commit_frame w asked2 st2) as (Ha2' & _ & Hcs2' & Href2' & _).
  cbv zeta in Ha2', Hcs2', Href2'.
  set (st2' := Player.commit w (Player.asking w asked2 st2)) in *.
  clearbody st2'.
  set (same1 := Player.isSameSong first st).
  set (different1 := Player.isDifferentQuality None st).
  set (same2 := Player.isSameSong second st1').
  set (different2 := Player.isDifferentQuality None st1').
  destruct order.
  - (* the first resolution settles last *)
    destruct (playSong_resume_resolved w second second same2 different2
                appended2 u st2' a Hu)
      as (a' & Haud & Hsrc & Hpaused & Hcs & Hld & Hpl & _).
    { congruence. }
    { by rewrite Href2', Hsong2. }
    { congruence. }
    set (st3 := Player.playSong_resume w second second same2 different2
                  appended2 (Api.Fulfilled (Some u)) st2') in *.
    clearbody st3.
    destruct (commit_state w st3) as (Hc4 & Hp4 & Hl4 & _ & Ha4 & _).
    destruct (commit_refs w st3) as (Hr4 & _).
    cbv zeta in Hc4, Hp4, Hl4, Ha4, Hr4.
    set (st4 := Player.commit w st3) in *. clearbody st4.
    rewrite (playSong_resume_stale w first first same1 different1 appended1
               resolved1 st4).
    2:{ rewrite Hr4, Hcs.
        cbn [fmap option_fmap option_map Player.with_url id].
        intros [= ?]. congruence. }
    eexists _, a'. split; [reflexivity|].
    match goal with
    | |- context [Player.commit w ?R] =>
        destruct (commit_state w R) as (-> & -> & -> & _ & -> & _)
    end.
    destruct resolved1; cbn [Player.set_isLoading Player.audioRef
      Player.currentSong Player.isLoading Player.isPlaying];
      repeat split; congruence.
  - (* the first resolution settles first *)
    rewrite (playSong_resume_stale w first first same1 different1 appended1
               resolved1 st2').
    2:{ rewrite Href2', Hsong2. cbn [fmap option_fmap option_map].
        intros [= ?]. congruence. }
    set (st3 := Player.commit w
                  (match resolved1 with
                   | Api.Fulfilled _ => st2'
                   | Api.Rejected => Player.set_isLoading false st2'
                   end)).
    assert (Player.audioRef st3 = Some a
            /\ id <$> Player.currentSongRef st3 = Some (id second)
            /\ Player.currentSong st3 = Some second) as (Ha3 & Hr3 & Hc3).
    { unfold st3.
      match goal with
      | |- context [Player.commit w ?R] =>
          destruct (commit_state w R) as (-> & _ & _ & _ & -> & _),
                   (commit_refs w R) as (-> & _)
      end.
      destruct resolved1; cbn [Player.set_isLoading Player.audioRef
        Player.currentSong]; rewrite Hcs2', Hsong2; repeat split; congruence. }
    clearbody st3.
    destruct (playSong_resume_resolved w second second same2 different2
                appended2 u st3 a Hu)
      as (a' & Haud & Hsrc & Hpaused & Hcs & Hld & Hpl & _); try done.
    eexists _, a'. split; [reflexivity|].
    match goal with
    | |- context [Player.commit w ?R] =>
        destruct (commit_state w R) as (-> & -> & -> & _ & -> & _)
    end.
    done.
Qed.

Lemma overlapped_last_call_wins_witness :
  exists st' a',
    Controls.overlapped Player.online Player.song_a Player.song_b true
      Controls.mounted = Some st'
    /\ Player.audioRef st' = Some a'
    /\ Player.src a' = "https://cdn/b".
Proof.
  destruct (overlapped_last_call_wins Player.online Player.song_a Player.song_b
              true Controls.mounted
              {| Player.src := ""; Player.a_currentTime := 0%Q;
                 Player.a_duration := 0%Q; Player.paused := true;
                 Player.crossOrigin := false |}
              "https://cdn/b" eq_refl)
    as (st' & a' & Hrun & Ha' & Hsrc & _).
  - discriminate.
  - reflexivity.
  - reflexivity.
  - discriminate.
  - exists st', a'. split; [exact Hrun|]. split; [exact Ha' | exact Hsrc].
Defined.

(** *** Skipping back and forth *)

Section SkipFacts.
Import Player Controls.

Lemma findIndex_lookup q i c :
  NoDup (queue_ids q) -> q !! i = Some c -> findIndex c q = Z.of_nat i.
Proof.
  revert i. induction q as [|s q IH]; intros i Hnd Hi; [done|].
  simpl in Hnd. apply NoDup_cons in Hnd as [Hs Hnd].
  destruct i as [|i]; simpl in *.
  - injection Hi as ->. by rewrite String.eqb_refl.
  - destruct (String.eqb_spec (String_id (id s)) (String_id (id c))) as [E|E].
    + exfalso. apply Hs. rewrite E. apply list_elem_of_fmap.
      exists c. split; [done|]. by eapply list_elem_of_lookup_2.
    + rewrite (IH i Hnd Hi).
      destruct (Z.eqb_spec (Z.of_nat i) (-1)); lia.
Qed.

Lemma findIndex_absent q c :
  String_id (id c) ∉ queue_ids q -> findIndex c q = -1.
Proof.
  induction q as [|s q IH]; simpl; [done|].
  intros [Hs Hq]%not_elem_of_cons.
  destruct (String.eqb_spec (String_id (id s)) (String_id (id c))) as [E|E];
    [congruence|].
  by rewrite (IH Hq).
Qed.

Lemma playNext_forced random fuel st :
  queueRef st <> [] -> playModeRef st <> shuffle ->
  playNext random fuel true st
  = Some (st, (fun s => CallPlaySong s None)
                <$> at_index (queueRef st)
                      (Z.rem (currentIndex_of (currentSongRef st) (queueRef st) + 1)
                             (Z.of_nat (length (queueRef st))))).
Proof.
  intros Hq Hmode. unfold playNext, next_index.
  destruct (queueRef st) as [|s q']; [done|]. cbn [negb andb].
  by destruct (playModeRef st).
Qed.

Lemma playPrev_ordered random st :
  queueRef st <> [] -> playModeRef st <> shuffle ->
  playPrev random st
  = (st, (fun s => CallPlaySong s None)
           <$> at_index (queueRef st)
                 (Z.rem (currentIndex_of (currentSongRef st) (queueRef st) - 1
                         + Z.of_nat (length (queueRef st)))
                        (Z.of_nat (length (queueRef st))))).
Proof.
  intros Hq Hmode. unfold playPrev, prev_index.
  destruct (queueRef st) as [|s q']; [done|].
  by destruct (playModeRef st).
Qed.

Lemma at_index_nat (q : list Song) (i : nat) : at_index q (Z.of_nat i) = q !! i.
Proof.
  unfold at_index. rewrite bool_decide_eq_true_2 by lia. by rewrite Nat2Z.id.
Qed.

Lemma next_of (i n : nat) :
  (i < n)%nat ->
  Z.rem (Z.of_nat i + 1) (Z.of_nat n) = Z.of_nat ((i + 1) mod n).
Proof.
  intros Hi. rewrite Z.rem_mod_nonneg by lia.
  replace (Z.of_nat i + 1) with (Z.of_nat (i + 1)) by lia.
  by rewrite <- Nat2Z.inj_mod.
Qed.

Lemma prev_of (i n : nat) :
  (i < n)%nat ->
  Z.rem (Z.of_nat i - 1 + Z.of_nat n) (Z.of_nat n)
  = Z.of_nat ((i + n - 1) mod n).
Proof.
  intros Hi. rewrite Z.rem_mod_nonneg by lia.
  replace (Z.of_nat i - 1 + Z.of_nat n) with (Z.of_nat (i + n - 1)) by lia.
  by rewrite <- Nat2Z.inj_mod.
Qed.

Lemma prev_next (i n : nat) :
  (i < n)%nat -> (((i + 1) mod n + n - 1) mod n = i)%nat.
Proof.
  intros Hi. destruct (decide (i + 1 = n)%nat) as [E|E].
  - rewrite E, Nat.Div0.mod_same. replace (0 + n - 1)%nat with i by lia.
    by apply Nat.mod_small.
  - rewrite (Nat.mod_small (i + 1)) by lia.
    replace (i + 1 + n - 1)%nat with (i + 1 * n)%nat by lia.
    rewrite Nat.Div0.mod_add. by apply Nat.mod_small.
Qed.

Lemma next_prev (i n : nat) :
  (i < n)%nat -> (((i + n - 1) mod n + 1) mod n = i)%nat.
Proof.
  intros Hi. destruct i as [|i].
  - replace (0 + n - 1)%nat with (n - 1)%nat by lia.
    rewrite (Nat.mod_small (n - 1)) by lia.
    replace (n - 1 + 1)%nat with n by lia. apply Nat.Div0.mod_same.
  - replace (S i + n - 1)%nat with (i + 1 * n)%nat by lia.
    rewrite Nat.Div0.mod_add, (Nat.mod_small i) by lia.
    replace (i + 1)%nat with (S i) by lia. by apply Nat.mod_small.
Qed.
End SkipFacts.

(** [findIndex] looks at nothing but [String(id)]. *)
Lemma findIndex_by_id (c c' : Song) q :
  String_id (id c) = String_id (id c') ->
  Player.findIndex c q = Player.findIndex c' q.
Proof.
  intros E. induction q as [|s q IH]; simpl; [done|]. by rewrite E, IH.
Qed.

(** X16.  Outside shuffle mode, when the queue of [n] distinct tracks holds
    at position [i] the entry whose [String(id)] is that of the current
    song (the current song itself may differ from the entry, as it does
    once it carries its stream URL), [playNext()] hands [playSong] the
    track at position [(i + 1) mod n] and [playPrev()] the one at
    [(i + n - 1) mod n], leaving the state alone; each undoes the other:
    once the next track is current, [playPrev()] goes back to the entry at
    [i], and once the previous track is current, [playNext()] does. *)
Theorem playPrev_undoes_playNext random random' fuel st c entry i :
  NoDup (Controls.queue_ids (Player.queueRef st)) ->
  Player.queueRef st !! i = Some entry ->
  Player.currentSongRef st = Some c ->
  String_id (id c) = String_id (id entry) ->
  Player.playModeRef st <> Player.shuffle ->
  let q := Player.queueRef st in
  let n := length q in
  exists next prev,
    q !! ((i + 1) mod n)%nat = Some next
    /\ q !! ((i + n - 1) mod n)%nat = Some prev
    /\ Player.playNext random fuel true st
       = Some (st, Some (Player.CallPlaySong next None))
    /\ Controls.playPrev random' st = (st, Some (Player.CallPlaySong prev None))
    /\ forall st2 c2,
         Player.queueRef st2 = q ->
         Player.playModeRef st2 <> Player.shuffle ->
         Player.currentSongRef st2 = Some c2 ->
         (String_id (id c2) = String_id (id next) ->
          Controls.playPrev random' st2
          = (st2, Some (Player.CallPlaySong entry None)))
         /\ (String_id (id c2) = String_id (id prev) ->
             Player.playNext random fuel true st2
             = Some (st2, Some (Player.CallPlaySong entry None))).
Proof.
  intros Hnd Hi Hc Hid Hmode q n.
  change (q !! i = Some entry) in Hi.
  change (NoDup (Controls.queue_ids q)) in Hnd.
  assert (i < n)%nat as Hlt by (by apply lookup_lt_Some in Hi).
  assert (q <> []) as Hq by (intros E; unfold n in Hlt; rewrite E in Hlt;
                             simpl in Hlt; lia).
  destruct (lookup_lt_is_Some_2 q ((i + 1) mod n)%nat) as [next Hnext];
    [apply Nat.mod_upper_bound; lia|].
  destruct (lookup_lt_is_Some_2 q ((i + n - 1) mod n)%nat) as [prev Hprev];
    [apply Nat.mod_upper_bound; lia|].
  exists next, prev. split; [done|]. split; [done|].
  split; [|split].
  - rewrite playNext_forced by done. rewrite Hc. cbn [Player.currentIndex_of].
    rewrite (findIndex_by_id c entry) by done.
    rewrite (findIndex_lookup _ i) by done. fold q. fold n.
    by rewrite next_of, at_index_nat, Hnext.
  - rewrite playPrev_ordered by done. rewrite Hc. cbn [Player.currentIndex_of].
    rewrite (findIndex_by_id c entry) by done.
    rewrite (findIndex_lookup _ i) by done. fold q. fold n.
    by rewrite prev_of, at_index_nat, Hprev.
  - intros st2 c2 Hq2 Hmode2 Hc2. split; intros Hid2.
    + rewrite playPrev_ordered by (by rewrite ?Hq2). rewrite Hc2, Hq2.
      cbn [Player.currentIndex_of].
      rewrite (findIndex_by_id c2 next) by done.
      rewrite (findIndex_lookup _ ((i + 1) mod n)) by done. fold n.
      rewrite prev_of by (apply Nat.mod_upper_bound; lia).
      by rewrite prev_next, at_index_nat, Hi.
    + rewrite playNext_forced by (by rewrite ?Hq2). rewrite Hc2, Hq2.
      cbn [Player.currentIndex_of].
      rewrite (findIndex_by_id c2 prev) by done.
      rewrite (findIndex_lookup _ ((i + n - 1) mod n)) by done. fold n.
      rewrite next_of by (apply Nat.mod_upper_bound; lia).
      by rewrite next_prev, at_index_nat, Hi.
Qed.

Lemma playPrev_undoes_playNext_witness :
  Controls.playPrev Player.half_then_zero
    (Player.playing (Player.with_url "https://cdn/a" Player.song_a)
       [Player.song_a; Player.song_b; Player.song_c] Player.sequence)
  = (Player.playing (Player.with_url "https://cdn/a" Player.song_a)
       [Player.song_a; Player.song_b; Player.song_c] Player.sequence,
     Some (Player.CallPlaySong Player.song_c None)).
Proof.
  destruct (playPrev_undoes_playNext Player.half_then_zero Player.half_then_zero
              1 (Player.playing (Player.with_url "https://cdn/a" Player.song_a)
                   [Player.song_a; Player.song_b; Player.song_c] Player.sequence)
              (Player.with_url "https://cdn/a" Player.song_a) Player.song_a 0)
    as (next & prev & _ & Hprev & _ & Hcall & _).
  - apply (bool_decide_unpack _). vm_compute. exact I.
  - reflexivity.
  - reflexivity.
  - reflexivity.
  - discriminate.
  - injection Hprev as <-. exact Hcall.
Defined.

(** X17.  When the current song is not in the queue (it was removed, or
    nothing is current), outside shuffle mode [playNext()] starts the queue
    from its first track, while [playPrev()] goes to the last track but one
    of a queue of two or more, not to the last. *)
Theorem playPrev_from_outside random fuel st :
  Player.currentIndex_of (Player.currentSongRef st) (Player.queueRef st) = -1 ->
  Player.playModeRef st <> Player.shuffle ->
  (2 <= length (Player.queueRef st))%nat ->
  exists first_track before_last,
    Player.queueRef st !! 0%nat = Some first_track
    /\ Player.queueRef st !! (length (Player.queueRef st) - 2)%nat
       = Some before_last
    /\ Player.playNext random fuel true st
       = Some (st, Some (Player.CallPlaySong first_track None))
    /\ Controls.playPrev random st
       = (st, Some (Player.CallPlaySong before_last None)).
Proof.
  intros Hidx Hmode Hlen.
  assert (Player.queueRef st <> []) as Hq
    by (intros E; rewrite E in Hlen; simpl in Hlen; lia).
  destruct (lookup_lt_is_Some_2 (Player.queueRef st) 0) as [x Hx]; [lia|].
  destruct (lookup_lt_is_Some_2 (Player.queueRef st)
              (length (Player.queueRef st) - 2)) as [y Hy]; [lia|].
  exists x, y. split; [done|]. split; [done|]. split.
  - rewrite playNext_forced by done. rewrite Hidx.
    replace (-1 + 1) with 0 by lia. rewrite Z.rem_0_l by lia.
    by rewrite (at_index_nat _ 0), Hx.
  - rewrite playPrev_ordered by done. rewrite Hidx.
    set (n := length (Player.queueRef st)) in *.
    replace (-1 - 1 + Z.of_nat n) with (Z.of_nat (n - 2)) by lia.
    rewrite Z.rem_small by lia.
    by rewrite at_index_nat, Hy.
Qed.

Lemma playPrev_from_outside_witness :
  Controls.playPrev Player.half_then_zero
    (Player.playing Player.song_a [Player.song_b; Player.song_c] Player.sequence)
  = (Player.playing Player.song_a [Player.song_b; Player.song_c] Player.sequence,
     Some (Player.CallPlaySong Player.song_b None)).
Proof.
  destruct (playPrev_from_outside Player.half_then_zero 1
              (Player.playing Player.song_a [Player.song_b; Player.song_c]
                 Player.sequence))
    as (x & y & _ & Hy & _ & Hcall).
  - reflexivity.
  - discriminate.
  - simpl. lia.
  - injection Hy as <-. exact Hcall.
Defined.

(** *** Editing the queue *)

(** X18.  [removeFromQueue] removes every entry whose identifier prints as
    the given one (so a number removes the entry that holds the same digits
    as a string) and keeps the other entries in their order; adding a track
    that is absent and removing it again gives the queue back; adding a
    track twice is adding it once; and none of the three queue controls
    touches anything but the queue. *)
Theorem queue_edits song songId st :
  (String_id songId
     ∉ Controls.queue_ids (Player.queue (Controls.removeFromQueue songId st)))
  /\ (forall s, s ∈ Player.queue (Controls.removeFromQueue songId st)
                <-> s ∈ Player.queue st /\ String_id (id s) <> String_id songId)
  /\ (Player.queue (Controls.removeFromQueue songId st)
      `sublist_of` Player.queue st)
  /\ (String_id (id song) ∉ Controls.queue_ids (Player.queue st) ->
      Controls.removeFromQueue (id song) (Controls.addToQueue song st) = st)
  /\ Controls.addToQueue song (Controls.addToQueue song st)
     = Controls.addToQueue song st
  /\ Player.set_queue (Player.queue st) (Controls.removeFromQueue songId st) = st
  /\ Player.set_queue (Player.queue st) (Controls.addToQueue song st) = st
  /\ Player.set_queue (Player.queue st) (Controls.clearQueue st) = st.
Proof.
  assert (forall q,
            List.filter
              (fun s => negb (String.eqb (String_id (id s)) (String_id songId))) q
            `sublist_of` q) as Hsub.
  { induction q as [|s q IH]; simpl; [done|].
    destruct (negb _); by constructor. }
  assert (forall s q,
            s ∈ List.filter
                  (fun s => negb (String.eqb (String_id (id s))
                                             (String_id songId))) q
            <-> s ∈ q /\ String_id (id s) <> String_id songId) as Hin.
  { intros s q. rewrite !list_elem_of_In, filter_In, negb_true_iff.
    by rewrite String.eqb_neq. }
  split; [|split; [|split; [|split; [|split]]]].
  - unfold Controls.queue_ids. rewrite list_elem_of_fmap.
    intros (s & Heq & Hs). cbn in Hs. apply Hin in Hs as [_ Hs]. congruence.
  - intros s. apply Hin.
  - apply Hsub.
  - intros Habsent. unfold Controls.removeFromQueue, Controls.addToQueue.
    cbn [Player.queue Player.set_queue]. unfold Player.enqueue.
    destruct (Player.in_queue song (Player.queue st)) eqn:E.
    { apply in_queue_ids in E. done. }
    rewrite List.filter_app. cbn [List.filter].
    rewrite String.eqb_refl. cbn [negb]. rewrite app_nil_r.
    assert (List.filter
              (fun s => negb (String.eqb (String_id (id s))
                                         (String_id (id song))))
              (Player.queue st) = Player.queue st) as ->.
    { revert Habsent. generalize (Player.queue st) as q.
      induction q as [|s q IH]; simpl; [done|].
      intros [Hs Hq]%not_elem_of_cons.
      destruct (String.eqb_spec (String_id (id s)) (String_id (id song)));
        [congruence|].
      simpl. f_equal. by apply IH. }
    by destruct st.
  - unfold Controls.addToQueue. cbn [Player.queue Player.set_queue].
    assert (Player.enqueue song (Player.enqueue song (Player.queue st))
            = Player.enqueue song (Player.queue st)) as ->.
    { unfold Player.enqueue at 1.
      assert (Player.in_queue song (Player.enqueue song (Player.queue st)) = true)
        as -> by (apply in_queue_ids, enqueue_elem).
      done. }
    by destruct st.
  - repeat split; by destruct st.
Qed.

(** ** Search history *)

Section HistoryFacts.
Import SearchPage.

Lemma filter_other_NoDup term (l : list string) :
  NoDup l -> NoDup (List.filter (fun h => negb (String.eqb h term)) l).
Proof.
  induction l as [|x l IH]; simpl; [done|].
  intros [Hx Hl]%NoDup_cons. destruct (negb _); [|by apply IH].
  apply NoDup_cons. split; [|by apply IH].
  rewrite list_elem_of_In, filter_In, <- list_elem_of_In. tauto.
Qed.

Lemma filter_other_absent term (l : list string) :
  term ∉ List.filter (fun h => negb (String.eqb h term)) l.
Proof.
  rewrite list_elem_of_In, filter_In, String.eqb_refl. by intros [_ ?].
Qed.

Lemma filter_other_id term (l : list string) :
  term ∉ l -> List.filter (fun h => negb (String.eqb h term)) l = l.
Proof.
  induction l as [|x l IH]; simpl; [done|].
  intros [Hx Hl]%not_elem_of_cons.
  destruct (String.eqb_spec x term); [congruence|]. simpl. f_equal. by apply IH.
Qed.
End HistoryFacts.

(** X19.  The search history is a most-recent-first list without
    repetitions, capped at fifteen.  Adding a term that is not blank puts
    it at the head, followed by the first fourteen of the other terms in
    the order they had; the list never exceeds fifteen entries and gains no
    repetition; adding the same term again changes nothing.  A blank term
    (one that [trim] empties, such as a lone ideographic space, or a tab
    between two no-break spaces) leaves the history as it is. *)
Theorem addToHistory_recent term prev :
  let h := SearchPage.addToHistory term prev in
  (trim term = "" -> h = prev)
  /\ (trim term <> "" ->
      h = term :: take 14 (List.filter (fun x => negb (String.eqb x term)) prev)
      /\ (length h <= 15)%nat
      /\ (NoDup prev -> NoDup h)
      /\ (forall x, x ∈ h -> x = term \/ x ∈ prev)
      /\ SearchPage.addToHistory term h = h)
  /\ SearchPage.addToHistory ideographic_space prev = prev
  /\ SearchPage.addToHistory
       (no_break_space +:+ String "009"%char no_break_space) prev = prev
  /\ SearchPage.addToHistory (" a" +:+ ideographic_space +:+ "b ") []
     = [" a" +:+ ideographic_space +:+ "b "].
Proof.
  cbv zeta. unfold SearchPage.addToHistory. split; [|split; [|done]].
  - intros ->. by rewrite orb_true_r.
  - intros Hblank.
    assert (term <> "") as Hterm by (by intros ->).
    apply String.eqb_neq in Hblank, Hterm. rewrite Hblank, Hterm. cbn [orb].
    set (others := List.filter (fun x => negb (String.eqb x term)) prev).
    change (take 15 (term :: others)) with (term :: take 14 others).
    split; [done|]. split; [|split; [|split]].
    + simpl. rewrite length_take. lia.
    + intros Hnd. apply NoDup_cons. split.
      * intros Hin. apply elem_of_take in Hin as (i & Hin & _).
        apply list_elem_of_lookup_2 in Hin.
        by apply filter_other_absent in Hin.
      * apply NoDup_take. by apply filter_other_NoDup.
    + intros x [->|Hin]%elem_of_cons; [by left|]. right.
      apply elem_of_take in Hin as (i & Hin & _).
      apply list_elem_of_lookup_2 in Hin.
      apply list_elem_of_In, filter_In in Hin as [Hin _].
      by apply list_elem_of_In.
    + cbn [List.filter]. rewrite String.eqb_refl. cbn [negb].
      rewrite filter_other_id.
      * change (take 15 (term :: take 14 others))
          with (term :: take 14 (take 14 others)).
        by rewrite take_take, Nat.min_id.
      * intros Hin. apply elem_of_take in Hin as (i & Hin & _).
        apply list_elem_of_lookup_2 in Hin.
        by apply filter_other_absent in Hin.
Qed.

(** ** Refreshing the instance list *)

Section MergeFacts.
Import PipedList.

Lemma listed_spec (i : string) (l : list string) :
  existsb (String.eqb i) l = true <-> i ∈ l.
Proof.
  rewrite existsb_exists, list_elem_of_In. split.
  - by intros (x & Hx & ->%String.eqb_eq).
  - intros Hi. exists i. split; [done | apply String.eqb_refl].
Qed.

Lemma elem_of_merge i instances old :
  i ∈ merge instances old <-> i ∈ instances \/ i ∈ old.
Proof.
  unfold merge. rewrite elem_of_app, (list_elem_of_In (List.filter _ _) i),
    filter_In, <- list_elem_of_In, negb_true_iff.
  destruct (existsb (String.eqb i) instances) eqn:E.
  - apply listed_spec in E. split; [intros [?|[_ ?]]; [by left | done] | by left].
  - tauto.
Qed.

Lemma merge_NoDup instances old :
  NoDup instances -> NoDup old -> NoDup (merge instances old).
Proof.
  intros Hi Ho. unfold merge. apply NoDup_app. split; [done|]. split.
  - intros i Hin Hin'.
    apply list_elem_of_In, filter_In in Hin' as [_ Hin'].
    apply negb_true_iff in Hin'. apply listed_spec in Hin. congruence.
  - clear Hi. induction old as [|x old IH]; simpl; [done|].
    apply NoDup_cons in Ho as [Hx Ho]. destruct (negb _); [|by apply IH].
    apply NoDup_cons. split; [|by apply IH].
    rewrite list_elem_of_In, filter_In, <- list_elem_of_In. tauto.
Qed.

Lemma merge_idempotent instances old :
  merge instances (merge instances old) = merge instances old.
Proof.
  unfold merge. f_equal. rewrite List.filter_app.
  assert (List.filter (fun i => negb (existsb (String.eqb i) instances))
            instances = []) as ->.
  { assert (forall l, (forall i, i ∈ l -> i ∈ instances) ->
              List.filter (fun i => negb (existsb (String.eqb i) instances)) l
              = []) as H.
    { induction l as [|x l IH]; simpl; [done|]. intros Hl.
      assert (existsb (String.eqb x) instances = true) as ->
        by (apply listed_spec, Hl; by left).
      simpl. apply IH. intros i Hi. apply Hl. by right. }
    by apply H. }
  simpl. induction old as [|x old IH]; simpl; [done|].
  destruct (negb (existsb (String.eqb x) instances)) eqn:E; simpl;
    [rewrite E; by f_equal | done].
Qed.
End MergeFacts.

(** The addresses read off a list of objects are, in order, the truthy
    [api_url]s of its elements. *)
Lemma api_urls_truthy items vs :
  PipedList.api_urls items = Some vs ->
  (Api.JNull ∉ items)
  /\ PipedList.truthy_ones vs
     = omap (fun x => match Api.get "api_url" (Some x) with
                      | Some v => if Api.truthy (Some v) then Some v else None
                      | None => None
                      end) items.
Proof.
  revert vs. induction items as [|x rest IH]; intros vs; simpl.
  - intros [= <-]. split; [apply not_elem_of_nil | done].
  - assert (forall vs',
              cons (Api.get "api_url" (Some x)) <$> PipedList.api_urls rest
              = Some vs' ->
              x <> Api.JNull ->
              (Api.JNull ∉ x :: rest)
              /\ PipedList.truthy_ones vs'
                 = omap (fun x => match Api.get "api_url" (Some x) with
                                  | Some v => if Api.truthy (Some v) then Some v
                                              else None
                                  | None => None
                                  end) (x :: rest)) as Hstep.
    { intros vs' Hvs' Hx.
      destruct (PipedList.api_urls rest) as [vr|]; [|done].
      injection Hvs' as <-. destruct (IH vr eq_refl) as [Hnull Heq].
      split.
      - intros [?|?]%elem_of_cons; [congruence | done].
      - cbn [omap list_omap PipedList.truthy_ones]. cbv beta.
        unfold Api.get at 1 2.
        destruct (match x with
                  | Api.JObj fields => Api.assoc "api_url" fields
                  | _ => None
                  end) as [v|]; [|exact Heq].
        destruct (Api.truthy (Some v)); [by rewrite Heq | exact Heq]. }
    destruct x; try done; intros H; by apply Hstep.
Qed.

Lemma strings_of_spec vs urls :
  PipedList.strings_of vs = Some urls -> vs = map Api.JStr urls.
Proof.
  revert urls. induction vs as [|v vs IH]; intros urls; simpl.
  - by intros [= <-].
  - destruct v; try done. destruct (PipedList.strings_of vs) as [us|]; [|done].
    intros [= <-]. simpl. by rewrite (IH us).
Qed.

Lemma strings_of_map urls :
  PipedList.strings_of (map Api.JStr urls) = Some urls.
Proof. induction urls as [|u us IH]; simpl; [done | by rewrite IH]. Qed.

(** X20.  Given an [ok] answer whose body is a non-empty array of strings,
    [updateInstances] replaces the instance list.  It replaces the list
    only on an [ok] answer whose body is a JSON array, and then the
    instances of that document come first, in the order of the document -- the array itself
    when it is an array of strings, otherwise the truthy [api_url]s of its
    elements -- followed by the old instances that the document does not
    list, in their old order: no instance is lost, an instance listed on
    both sides appears once if each side lists it once, and the cursor and
    the broken table are as before.  Loading the same document again
    changes nothing. *)
Theorem updateInstances_merges reg :
  (forall urls, urls <> [] ->
     PipedList.updateInstances
       (PipedList.Replied true (Some (Api.JArr (map Api.JStr urls)))) reg
     = PipedList.Replaced
         {| Piped.PIPED_INSTANCES :=
              (urls ++ List.filter (fun i => negb (existsb (String.eqb i) urls))
                                   (Piped.PIPED_INSTANCES reg))%list;
            Piped.currentInstanceIndex := Piped.currentInstanceIndex reg;
            Piped.BROKEN_INSTANCES := Piped.BROKEN_INSTANCES reg |})
  /\ forall remote reg',
  PipedList.updateInstances remote reg = PipedList.Replaced reg' ->
  exists items urls,
    remote = PipedList.Replied true (Some (Api.JArr items))
    /\ urls <> []
    /\ (items = map Api.JStr urls
        \/ (exists fields rest,
              items = Api.JObj fields :: rest
              /\ Api.truthy (Api.assoc "api_url" fields) = true
              /\ (Api.JNull ∉ items)
              /\ map Api.JStr urls
                 = omap (fun x => match Api.get "api_url" (Some x) with
                                  | Some v => if Api.truthy (Some v) then Some v
                                              else None
                                  | None => None
                                  end) items))
    /\ Piped.PIPED_INSTANCES reg'
       = (urls ++ List.filter (fun i => negb (existsb (String.eqb i) urls))
                              (Piped.PIPED_INSTANCES reg))%list
    /\ (forall i, i ∈ Piped.PIPED_INSTANCES reg' <->
                  i ∈ urls \/ i ∈ Piped.PIPED_INSTANCES reg)
    /\ (NoDup urls -> NoDup (Piped.PIPED_INSTANCES reg) ->
        NoDup (Piped.PIPED_INSTANCES reg'))
    /\ Piped.currentInstanceIndex reg' = Piped.currentInstanceIndex reg
    /\ Piped.BROKEN_INSTANCES reg' = Piped.BROKEN_INSTANCES reg
    /\ PipedList.updateInstances remote reg' = PipedList.Replaced reg'.
Proof.
  split.
  { intros urls Hne. unfold PipedList.updateInstances.
    assert (PipedList.remote_instances (Api.JArr (map Api.JStr urls))
            = Some (map Api.JStr urls)) as -> by (by destruct urls).
    rewrite strings_of_map. by destruct urls. }
  intros remote reg' H.
  assert (exists json instances urls,
            remote = PipedList.Replied true (Some json)
            /\ PipedList.remote_instances json = Some instances
            /\ PipedList.strings_of instances = Some urls
            /\ urls <> []
            /\ reg' = {| Piped.PIPED_INSTANCES :=
                           PipedList.merge urls (Piped.PIPED_INSTANCES reg);
                         Piped.currentInstanceIndex := Piped.currentInstanceIndex reg;
                         Piped.BROKEN_INSTANCES := Piped.BROKEN_INSTANCES reg |})
    as (json & instances & urls & -> & Hdoc & Hstr & Hne & ->).
  { unfold PipedList.updateInstances in H.
    destruct remote as [| |[] [json|]]; try done.
    destruct (PipedList.remote_instances json) as [[|v vs]|] eqn:Hdoc; try done.
    destruct (PipedList.strings_of (v :: vs)) as [urls|] eqn:E; [|done].
    injection H as <-. exists json, (v :: vs), urls.
    repeat split; try done.
    intros ->. simpl in E. destruct v; try done.
    by destruct (PipedList.strings_of vs). }
  apply strings_of_spec in Hstr as Hinst.
  assert (exists items, json = Api.JArr items
            /\ (items = map Api.JStr urls
                \/ (exists fields rest,
                      items = Api.JObj fields :: rest
                      /\ Api.truthy (Api.assoc "api_url" fields) = true
                      /\ (Api.JNull ∉ items)
                      /\ map Api.JStr urls
                         = omap (fun x => match Api.get "api_url" (Some x) with
                                          | Some v => if Api.truthy (Some v)
                                                      then Some v else None
                                          | None => None
                                          end) items)))
    as (items & -> & Hitems).
  { unfold PipedList.remote_instances in Hdoc.
    destruct json as [| | | |items|]; try (injection Hdoc as <-; by destruct urls).
    exists items. split; [done|].
    destruct items as [|[| | |s|sub|fields] rest];
      try (injection Hdoc as <-; by destruct urls); try done.
    - left. injection Hdoc as <-. done.
    - right. exists fields, rest.
      change (Api.get "api_url" (Some (Api.JObj fields)))
        with (Api.assoc "api_url" fields) in Hdoc.
      destruct (Api.truthy (Api.assoc "api_url" fields)) eqn:Hhead;
        [|injection Hdoc as <-; by destruct urls].
      destruct (PipedList.api_urls (Api.JObj fields :: rest)) as [vs|] eqn:Hvs;
        [|done].
      injection Hdoc as <-.
      destruct (api_urls_truthy _ _ Hvs) as [Hnull Heq].
      repeat split; [done|]. by rewrite <- Hinst, Heq. }
  exists items, urls. cbn [Piped.PIPED_INSTANCES
    Piped.currentInstanceIndex Piped.BROKEN_INSTANCES].
  split; [done|]. split; [done|]. split; [done|].
  split; [done|]. split; [intros i; apply elem_of_merge|].
  split; [apply merge_NoDup|]. split; [done|]. split; [done|].
  unfold PipedList.updateInstances. rewrite Hdoc.
  destruct instances as [|v vs]; [by destruct urls|].
  rewrite Hstr. cbn [Piped.PIPED_INSTANCES
    Piped.currentInstanceIndex Piped.BROKEN_INSTANCES].
  by rewrite merge_idempotent.
Qed.

Lemma updateInstances_merges_witness :
  PipedList.updateInstances (PipedList.Replied true (Some PipedList.directory))
    Piped.pool
  = PipedList.Replaced
      {| Piped.PIPED_INSTANCES :=
           ["https://pipedapi.adminforge.de"; Piped.moomoo;
            Piped.api_moomoo; Piped.hypercrab];
         Piped.currentInstanceIndex := 1;
         Piped.BROKEN_INSTANCES := {[ Piped.moomoo := 1000 ]} |}
  /\ PipedList.updateInstances (PipedList.Replied true (Some PipedList.directory))
       {| Piped.PIPED_INSTANCES :=
            ["https://pipedapi.adminforge.de"; Piped.moomoo;
             Piped.api_moomoo; Piped.hypercrab];
          Piped.currentInstanceIndex := 1;
          Piped.BROKEN_INSTANCES := {[ Piped.moomoo := 1000 ]} |}
     = PipedList.Replaced
         {| Piped.PIPED_INSTANCES :=
              ["https://pipedapi.adminforge.de"; Piped.moomoo;
               Piped.api_moomoo; Piped.hypercrab];
            Piped.currentInstanceIndex := 1;
            Piped.BROKEN_INSTANCES := {[ Piped.moomoo := 1000 ]} |}.
Proof.
  assert (PipedList.updateInstances
            (PipedList.Replied true (Some PipedList.directory)) Piped.pool
          = PipedList.Replaced
              {| Piped.PIPED_INSTANCES :=
                   ["https://pipedapi.adminforge.de"; Piped.moomoo;
                    Piped.api_moomoo; Piped.hypercrab];
                 Piped.currentInstanceIndex := 1;
                 Piped.BROKEN_INSTANCES := {[ Piped.moomoo := 1000 ]} |})
    as Hfirst by (vm_compute; reflexivity).
  destruct (proj2 (updateInstances_merges _) _ _ Hfirst)
    as (items & urls & _ & _ & _ & _ & _ & _ & _ & _ & Hagain).
  split; [exact Hfirst | exact Hagain].
Defined.

(** ** Piped payloads *)

Section EntryFacts.
Import Api PipedData.

Lemma is_song_true item :
  is_song item = Some true ->
  truthy (get "videoId" (Some item)) = true
  /\ truthy (get "title" (Some item)) = true.
Proof.
  unfold is_song. destruct item; try done; intros [= H];
    apply andb_true_iff in H as [H ?]; by apply andb_true_iff in H as [_ ?].
Qed.

Lemma songs_among_null items : JNull ∈ items -> songs_among items = None.
Proof.
  induction items as [|item rest IH]; [by intros ?%not_elem_of_nil|].
  intros [<-|Hin]%elem_of_cons; [done|]. simpl.
  destruct (is_song item) as [[]|]; [|by apply IH|done].
  by rewrite (IH Hin).
Qed.

Lemma songs_among_Some items songs :
  songs_among items = Some songs ->
  songs `sublist_of` items
  /\ Forall (fun item => is_song item = Some true) songs.
Proof.
  revert songs. induction items as [|item rest IH]; intros songs; simpl.
  - intros [= <-]. split; constructor.
  - destruct (is_song item) as [[]|] eqn:E; [| |done].
    + destruct (songs_among rest) as [songs'|]; [|done].
      intros [= <-]. destruct (IH songs' eq_refl) as [Hsub Hall].
      split; by constructor.
    + intros H. destruct (IH songs H) as [Hsub Hall].
      split; [by constructor | done].
Qed.

Lemma truthy_default (v : option Json) :
  truthy v = true -> truthy (Some (default JNull v)) = true.
Proof. by destruct v. Qed.

Lemma or_default_truthy (a : option Json) b :
  truthy a = true -> Some (or_default a b) = a.
Proof. unfold or_default. intros H. rewrite H. by destruct a. Qed.
End EntryFacts.

(** X21.  [searchAudio] returns at most thirty entries; they are built, in
    the order of the payload, from items of its [items] array, and each
    carries a truthy id and a truthy name that are the item's [videoId] and
    [title] (the fallback name is never used).  A single [null] among the
    items, wherever it stands, leaves nothing of the result, and so does a
    payload without an [items] array. *)
Theorem searchAudio_entries data :
  let entries := PipedData.entries_of data in
  (length entries <= 30)%nat
  /\ (exists songs,
        entries = map PipedData.entry_of songs
        /\ (forall items, Api.get "items" (Some data) = Some (Api.JArr items) ->
              songs `sublist_of` items)
        /\ Forall (fun item =>
                     Api.truthy (Api.get "videoId" (Some item)) = true
                     /\ Api.truthy (Api.get "title" (Some item)) = true
                     /\ Some (PipedData.e_id (PipedData.entry_of item))
                        = Api.get "videoId" (Some item)
                     /\ Some (PipedData.e_name (PipedData.entry_of item))
                        = Api.get "title" (Some item)) songs)
  /\ (forall items, Api.get "items" (Some data) = Some (Api.JArr items) ->
        Api.JNull ∈ items -> entries = [])
  /\ (Api.isArray (Api.get "items" (Some data)) = None -> entries = []).
Proof.
  cbv zeta. unfold PipedData.entries_of.
  assert (forall v : option Api.Json,
            match v with
            | Some (Api.JArr items) =>
                match PipedData.songs_among items with
                | Some songs => map PipedData.entry_of (take 30 songs)
                | None => []
                end
            | _ => []
            end
            = match Api.isArray v ≫= PipedData.songs_among with
              | Some songs => map PipedData.entry_of (take 30 songs)
              | None => []
              end) as Hshape
    by (intros [[]|]; done).
  assert (match data with
          | Api.JNull => []
          | _ => match Api.get "items" (Some data) with
                 | Some (Api.JArr items) =>
                     match PipedData.songs_among items with
                     | Some songs => map PipedData.entry_of (take 30 songs)
                     | None => []
                     end
                 | _ => []
                 end
          end
          = match Api.isArray (Api.get "items" (Some data))
                  ≫= PipedData.songs_among with
            | Some songs => map PipedData.entry_of (take 30 songs)
            | None => []
            end) as ->
    by (destruct data; try apply Hshape; done).
  destruct (Api.isArray (Api.get "items" (Some data))) as [items0|] eqn:Harr;
    cbn [mbind option_bind].
  2:{ split; [simpl; lia|]. split; [|done].
      exists []. split; [done|]. split; [|constructor].
      intros items Hitems. rewrite Hitems in Harr. done. }
  assert (Api.get "items" (Some data) = Some (Api.JArr items0)) as Hitems0.
  { destruct (Api.get "items" (Some data)) as [[]|]; try done.
    by injection Harr as ->. }
  destruct (PipedData.songs_among items0) as [songs|] eqn:Hsongs.
  - pose proof (songs_among_Some _ _ Hsongs) as [Hsub Hall].
    split; [rewrite length_map, length_take; lia|].
    split; [|split; [|done]].
    + exists (take 30 songs). split; [done|]. split.
      * intros items Hitems. rewrite Hitems0 in Hitems. injection Hitems as <-.
        etrans; [apply sublist_take | done].
      * apply Forall_take. eapply Forall_impl; [exact Hall|].
        intros item Hitem. apply is_song_true in Hitem as [Hid Hname].
        split; [done|]. split; [done|].
        unfold PipedData.entry_of. cbn [PipedData.e_id PipedData.e_name].
        split; [|by apply or_default_truthy].
        by destruct (Api.get "videoId" (Some item)).
    + intros items Hitems Hnull. rewrite Hitems0 in Hitems.
      injection Hitems as <-. apply songs_among_null in Hnull. congruence.
  - split; [simpl; lia|]. split; [|done].
    exists []. split; [done|]. split; [|constructor].
    intros items Hitems. apply sublist_nil_l.
Qed.

Section EncodeFacts.
Import PipedData.

Lemma hex_digit_unreserved n : (n < 16)%nat -> unreserved (hex_digit n) = true.
Proof.
  intros Hn. do 16 (destruct n as [|n]; [by vm_compute|]). lia.
Qed.

Lemma hex_digit_inj a b :
  (a < 16)%nat -> (b < 16)%nat -> hex_digit a = hex_digit b -> a = b.
Proof.
  intros Ha Hb H. apply (f_equal nat_of_ascii) in H. unfold hex_digit in H.
  repeat case_bool_decide; rewrite !nat_ascii_embedding in H by lia; lia.
Qed.

Lemma percent_reserved : unreserved "%" = false.
Proof. by vm_compute. Qed.

Lemma nat_of_ascii_lt c : (nat_of_ascii c < 256)%nat.
Proof. apply nat_ascii_bounded. Qed.

Lemma encodeURIComponent_safe s :
  forallb url_safe (String.list_ascii_of_string (encodeURIComponent s)) = true.
Proof.
  induction s as [|c s IH]; [done|]. cbn [encodeURIComponent].
  destruct (unreserved c) eqn:E; cbn [String.list_ascii_of_string forallb].
  - unfold url_safe at 1. by rewrite E, IH.
  - pose proof (nat_of_ascii_lt c).
    unfold url_safe at 1 2 3.
    rewrite !hex_digit_unreserved, IH; [done|..].
    + apply Nat.mod_upper_bound. lia.
    + apply Nat.Div0.div_lt_upper_bound. lia.
Qed.

Lemma encodeURIComponent_inj s1 s2 :
  encodeURIComponent s1 = encodeURIComponent s2 -> s1 = s2.
Proof.
  revert s2. induction s1 as [|c1 s1 IH]; intros [|c2 s2];
    cbn [encodeURIComponent]; try done.
  - by destruct (unreserved c2).
  - by destruct (unreserved c1).
  - pose proof (nat_of_ascii_lt c1). pose proof (nat_of_ascii_lt c2).
    destruct (unreserved c1) eqn:E1, (unreserved c2) eqn:E2.
    + intros [= -> Hrest]. f_equal. by apply IH.
    + intros [= -> _]. by rewrite percent_reserved in E1.
    + intros [= <- _]. by rewrite percent_reserved in E2.
    + intros [= Hhi Hlo Hrest].
      change (hex_digit (nat_of_ascii c1 / 16)
              = hex_digit (nat_of_ascii c2 / 16)) in Hhi.
      change (hex_digit (nat_of_ascii c1 mod 16)
              = hex_digit (nat_of_ascii c2 mod 16)) in Hlo.
      apply hex_digit_inj in Hhi;
        [|apply Nat.Div0.div_lt_upper_bound; lia..].
      apply hex_digit_inj in Hlo; [|apply Nat.mod_upper_bound; lia..].
      f_equal; [|by apply IH].
      rewrite <- (ascii_nat_embedding c1), <- (ascii_nat_embedding c2).
      f_equal.
      rewrite (Nat.div_mod_eq (nat_of_ascii c1) 16),
              (Nat.div_mod_eq (nat_of_ascii c2) 16). lia.
Qed.
End EncodeFacts.

(** X22.  [searchAudio] makes one [pipedFetch] call, for the endpoint
    [/search?q=...&filter=music_songs] with the query percent encoded, so
    every request goes to a healthy instance for that endpoint: the encoded
    query consists of unreserved characters and [%] only, so a query cannot
    add a parameter or cut the endpoint short, and different queries give
    different endpoints.  What it returns is decided by the response that
    call accepted: nothing when there is none or its body does not parse,
    and otherwise the entries built from its body. *)
Theorem searchAudio_requests net json now query reg :
  let entries := (PipedData.searchAudio net json now query reg).1 in
  let F := (PipedData.searchAudio net json now query reg).2 in
  let endpoint := "/search?q=" +:+ PipedData.encodeURIComponent query
                  +:+ "&filter=music_songs" in
  F = Piped.pipedFetch net endpoint now reg
  /\ (forall u, u ∈ Piped.requests F ->
        exists inst, inst ∈ Piped.available reg now /\ u = inst +:+ endpoint)
  /\ forallb PipedData.url_safe
       (String.list_ascii_of_string (PipedData.encodeURIComponent query)) = true
  /\ (forall other,
        PipedData.search_endpoint other = PipedData.search_endpoint query ->
        other = query)
  /\ (Piped.result F = None -> entries = [])
  /\ (forall response,
        Piped.result F = Some response ->
        Piped.acceptable response
        /\ (json response = None -> entries = [])
        /\ (forall data, json response = Some data ->
              entries = PipedData.entries_of data)).
Proof.
  cbv zeta. unfold PipedData.searchAudio. cbn [fst snd].
  split; [done|]. split; [|split; [|split; [|split]]].
  - intros u Hu. by apply pipedFetch_requests_available in Hu.
  - apply encodeURIComponent_safe.
  - unfold PipedData.search_endpoint. intros other H.
    apply encodeURIComponent_inj.
    assert (forall a b c : string, a +:+ b = a +:+ c -> b = c) as Hcancel.
    { induction a as [|x a IH]; simpl; [done|]. intros b c [= ?]. by apply IH. }
    apply Hcancel in H. by apply append_inj_r in H.
  - by intros ->.
  - intros response Hres. rewrite Hres. split; [|split].
    + destruct (decide (Piped.available reg now = [])) as [E|E].
      * unfold Piped.pipedFetch in Hres. by rewrite E in Hres.
      * rewrite pipedFetch_unfold in Hres by done.
        by apply attempt_result_accepted in Hres.
    + by intros ->.
    + by intros data ->.
Qed.

(** *** The stream [getStreamInfo] picks *)

Section SortFacts.
Import Api PipedData.
Variable rank : Json -> Z.

Lemma insert_desc_head x sorted :
  head (insert_desc rank x sorted)
  = match head sorted with
    | Some y => if Z.ltb (rank x) (rank y) then Some y else Some x
    | None => Some x
    end.
Proof. destruct sorted as [|y rest]; simpl; [done|]. by destruct (Z.ltb _ _). Qed.

Lemma sort_desc_head_None l : head (sort_desc rank l) = None -> l = [].
Proof.
  destruct l as [|x l]; [done|]. simpl. rewrite insert_desc_head.
  destruct (head (sort_desc rank l)); [by destruct (Z.ltb _ _) | done].
Qed.

(** The head of the sorted list is the earliest element of highest rank. *)
Lemma sort_desc_head l best :
  head (sort_desc rank l) = Some best ->
  exists k,
    l !! k = Some best
    /\ (forall s, s ∈ l -> rank s <= rank best)
    /\ (forall j s, (j < k)%nat -> l !! j = Some s -> rank s < rank best).
Proof.
  revert best. induction l as [|x l IH]; intros best; [done|].
  simpl. rewrite insert_desc_head.
  destruct (head (sort_desc rank l)) as [y|] eqn:Hy.
  - destruct (IH y eq_refl) as (k & Hk & Hmax & Hfirst).
    destruct (Z.ltb_spec (rank x) (rank y)) as [Hlt|Hge]; intros [= <-].
    + exists (S k). split; [done|]. split.
      * intros s [->|Hs]%elem_of_cons; [lia | by apply Hmax].
      * intros [|j] s Hj; simpl; [intros [= <-]; lia|].
        apply Hfirst. lia.
    + exists 0%nat. split; [done|]. split; [|intros; lia].
      intros s [->|Hs]%elem_of_cons; [lia|].
      specialize (Hmax s Hs). lia.
  - apply sort_desc_head_None in Hy as ->. intros [= <-].
    exists 0%nat. split; [done|]. split; [|intros; lia].
    intros s [->|Hs]%elem_of_cons; [lia | by apply not_elem_of_nil in Hs].
Qed.
End SortFacts.

(** X23.  When [getStreamInfo] returns a record, the audio address in it is
    read off one stream only: the earliest of the streams with the highest
    bitrate (a missing bitrate counting as zero).  If that stream has no
    usable [url] the address is [null], whatever the other streams offer;
    with no streams at all it is [null] too.  The record comes from the
    body of a response that [pipedFetch] accepted. *)
Theorem getStreamInfo_best net json now videoId reg info :
  (PipedData.getStreamInfo net json now videoId reg).1 = PipedData.Got info ->
  exists response data streams,
    Piped.result (PipedData.getStreamInfo net json now videoId reg).2
    = Some response
    /\ json response = Some data
    /\ PipedData.streams_of data = Some streams
    /\ (streams = [] -> PipedData.audioUrl info = None)
    /\ (streams <> [] ->
        exists k best,
          streams !! k = Some best
          /\ (forall s, s ∈ streams -> PipedData.rate s <= PipedData.rate best)
          /\ (forall j s, (j < k)%nat -> streams !! j = Some s ->
                PipedData.rate s < PipedData.rate best)
          /\ PipedData.audioUrl info
             = if Api.truthy (Api.get "url" (Some best))
               then Api.get "url" (Some best) else None).
Proof.
  unfold PipedData.getStreamInfo. cbn [fst snd].
  destruct (Piped.result _) as [response|]; [|done].
  destruct (json response) as [data|] eqn:Hjson; [|done].
  unfold PipedData.info_of.
  destruct (PipedData.streams_of data) as [streams|] eqn:Hstreams; [|done].
  intros Hgot. exists response, data, streams.
  split; [done|]. split; [done|]. split; [done|].
  case_bool_decide as Hlen.
  - (* nothing to compare *)
    injection Hgot as <-. cbn [PipedData.audioUrl].
    destruct streams as [|x [|y rest]]; [| |simpl in Hlen; lia].
    + split; [done|]. by intros [].
    + split; [done|]. intros _. exists 0%nat, x.
      split; [done|]. split; [|split; [intros; lia | done]].
      intros s [->|Hs]%elem_of_cons; [lia | by apply not_elem_of_nil in Hs].
  - destruct (existsb _ _); [done|].
    destruct (forallb _ _); [|done].
    injection Hgot as <-. cbn [PipedData.audioUrl].
    split; [intros ->; simpl in Hlen; lia|]. intros _.
    destruct (head (PipedData.sort_desc PipedData.rate streams)) as [best|] eqn:Hbest.
    + destruct (sort_desc_head _ _ _ Hbest) as (k & Hk & Hmax & Hfirst).
      by exists k, best.
    + apply sort_desc_head_None in Hbest as ->. simpl in Hlen. lia.
Qed.

Lemma getStreamInfo_best_witness :
  exists data streams,
    Some PipedData.three_streams = Some data
    /\ PipedData.streams_of data = Some streams
    /\ (PipedData.getStreamInfo Piped.flaky (fun _ => Some PipedData.three_streams)
          200000 "abc" Piped.pool).1
       = PipedData.Got
           {| PipedData.audioUrl := Some (Api.JStr "https://a/high");
              PipedData.thumbnail :=
                Api.JStr "https://i.ytimg.com/vi/abc/maxresdefault.jpg";
              PipedData.title := Api.JStr "Song";
              PipedData.artist := Api.JStr "Неизвестный исполнитель";
              PipedData.duration := Api.JNum 0 |}.
Proof.
  assert ((PipedData.getStreamInfo Piped.flaky
             (fun _ => Some PipedData.three_streams) 200000 "abc" Piped.pool).1
          = PipedData.Got
              {| PipedData.audioUrl := Some (Api.JStr "https://a/high");
                 PipedData.thumbnail :=
                   Api.JStr "https://i.ytimg.com/vi/abc/maxresdefault.jpg";
                 PipedData.title := Api.JStr "Song";
                 PipedData.artist := Api.JStr "Неизвестный исполнитель";
                 PipedData.duration := Api.JNum 0 |}) as Hgot
    by (vm_compute; reflexivity).
  destruct (getStreamInfo_best _ _ _ _ _ _ Hgot)
    as (response & data & streams & _ & Hjson & Hstreams & _).
  exists data, streams. split; [exact Hjson|]. split; [exact Hstreams | exact Hgot].
Defined.

(** ** Playlists *)

Ltac asked :=
  repeat match goal with
         | H : _ ∈ [] |- _ => by apply not_elem_of_nil in H
         | H : _ ∈ _ :: _ |- _ =>
             apply elem_of_cons in H as [H|H]; [try discriminate H|]
         end;
  try done;
  try (repeat first [by apply list_elem_of_here | apply list_elem_of_further]).

(** X24.  [getPlaylistDetail] consults its sources in a fixed order, Piped,
    YouTube, the legacy executor, and stops at the first that knows the
    playlist: a source is never asked after another has answered, and the
    executor is asked only after every client that was tried returned
    [null].  An id of thirty or more URL-safe characters is looked up on
    Piped first whatever the platform, so for such an id YouTube is asked
    only when Piped returned [null]; and an id longer than twenty
    characters is looked up on YouTube before the executor of a legacy
    platform sees it. *)
Theorem getPlaylistDetail_order w random id platform :
  let r := (Playlists.getPlaylistDetail w random id platform).1 in
  let asks := (Playlists.getPlaylistDetail w random id platform).2 in
  asks `sublist_of` [Playlists.AskPiped id; Playlists.AskYoutube id;
                     Playlists.AskExecutor platform id]
  /\ asks <> []
  /\ (Playlists.AskYoutube id ∈ asks ->
      Playlists.AskPiped id ∈ asks ->
      Playlists.piped_getPlaylistInfo w id = None)
  /\ (Playlists.AskExecutor platform id ∈ asks ->
      (Playlists.AskPiped id ∈ asks ->
       Playlists.piped_getPlaylistInfo w id = None)
      /\ (Playlists.AskYoutube id ∈ asks ->
          Playlists.youtube_getPlaylistInfo w id = None)
      /\ r = Playlists.legacy_detail w random id platform)
  /\ (forall p, r = Api.Fulfilled (Some (Playlists.FromClient p)) ->
        last asks = Some (Playlists.AskPiped id)
        /\ Playlists.piped_getPlaylistInfo w id = Some p
        \/ last asks = Some (Playlists.AskYoutube id)
           /\ Playlists.youtube_getPlaylistInfo w id = Some p)
  /\ (Playlists.long_url_safe id = true ->
      head asks = Some (Playlists.AskPiped id)
      /\ (20 < String.length id)%nat)
  /\ ((20 < String.length id)%nat ->
      Playlists.AskExecutor platform id ∈ asks ->
      Playlists.AskYoutube id ∈ asks).
Proof.
  cbv zeta. unfold Playlists.getPlaylistDetail.
  set (try_piped := String.eqb platform "piped" || startsWith "OLAK" id
                    || Playlists.long_url_safe id).
  set (try_youtube := String.eqb platform "youtube" || startsWith "PL" id
                      || bool_decide (20 < String.length id)%nat).
  assert (Playlists.long_url_safe id = true ->
          try_piped = true /\ (20 < String.length id)%nat) as Hlong.
  { intros H. split; [unfold try_piped; rewrite H; by rewrite !orb_true_r|].
    apply andb_true_iff in H as [H _]. apply bool_decide_eq_true in H. lia. }
  assert ((20 < String.length id)%nat -> try_youtube = true) as Hmid.
  { intros H. unfold try_youtube. rewrite bool_decide_eq_true_2 by done.
    by rewrite orb_true_r. }
  assert (forall r', r' = Playlists.legacy_detail w random id platform ->
            forall p, r' <> Api.Fulfilled (Some (Playlists.FromClient p)))
    as Hlegacy.
  { intros r' -> p. unfold Playlists.legacy_detail.
    destruct (Playlists.executeMethod_playlist w platform id) as [data|];
      [|done].
    destruct (negb _); [done|]. by destruct (Api.normalizeSongs _ _ _). }
  destruct try_piped, try_youtube;
    destruct (Playlists.piped_getPlaylistInfo w id) as [pp|] eqn:Hp;
    destruct (Playlists.youtube_getPlaylistInfo w id) as [yy|] eqn:Hy;
    cbn [fst snd app];
    (split; [repeat constructor|]); (split; [done|]);
    (split; [intros H1 H2; asked|]);
    (split; [intros H1; split; [|split]; try intros H2; asked|]);
    (split; [intros p Hr;
             first [ injection Hr as <-; first [by left | by right]
                   | by apply Hlegacy in Hr ]|]);
    (split; [intros Hl; by destruct (Hlong Hl)|]);
    intros Hl He; try (by specialize (Hmid Hl)); asked.
Qed.

(** *** Pressing play after a reload *)

(** X25.  When the element has no source yet (the current song was
    restored from local storage, nothing has been loaded), [togglePlay]
    does not toggle: it plays the current song through [playSong].  If the
    sources resolve a URL the element is loaded with it and started, and
    the song stays the current song; if they resolve none, nothing is
    started and the play state is false. *)
Theorem togglePlay_starts_restored_song w st a c fuel :
  Player.audioRef st = Some a ->
  Player.has_source w a = false ->
  Player.currentSongRef st = Some c ->
  (forall u, (Player.resolve w c).1 = Api.Fulfilled (Some u) -> u <> "" ->
     exists st' a',
       Player.dispatch w (S fuel) Player.EvTogglePlay st = Some st'
       /\ Player.audioRef st' = Some a'
       /\ Player.src a' = u
       /\ Player.paused a' = false
       /\ Player.currentSong st' = Some (Player.with_url u c)
       /\ Player.currentSongRef st' = Some (Player.with_url u c)
       /\ Player.isLoading st' = false
       /\ Player.isPlaying st' =
          match Player.playStart w with
          | Player.NotAllowedError => false
          | _ => true
          end)
  /\ (forall audioUrl,
        (Player.resolve w c).1 = Api.Fulfilled audioUrl ->
        Player.usable audioUrl = None ->
        exists st',
          Player.dispatch w (S fuel) Player.EvTogglePlay st = Some st'
          /\ Player.audioRef st' = Some a
          /\ Player.isPlaying st' = false
          /\ Player.isLoading st' = false).
Proof.
  intros Ha Hsrc Hc.
  assert (Player.dispatch w (S fuel) Player.EvTogglePlay st
          = Player.commit w <$> Player.playSong w (S fuel) c None st) as Hd.
  { cbn [Player.dispatch]. unfold Player.togglePlay.
    rewrite Ha, Hc, Hsrc. done. }
  assert (Player.already_loaded w c None st a = false) as Hfresh.
  { unfold Player.already_loaded. rewrite Hsrc. by rewrite andb_false_r. }
  rewrite Hd. split.
  - intros u Hres Hu.
    destruct (playSong_resolved w c None st a fuel u Ha Hfresh Hres Hu)
      as (st' & a' & -> & Haud & Hs & Hp & Hcs & Hld & Hpl & _).
    exists (Player.commit w st'), a'. split; [done|].
    destruct (commit_state w st') as (-> & -> & -> & _ & -> & _),
             (commit_refs w st') as (-> & _).
    done.
  - intros audioUrl Hres Hnone.
    destruct (playSong_begin_awaiting w c None st a Ha Hfresh)
      as (st1 & appended & Hb & Ha1 & _ & _ & Hsong1 & _ & _ & _ & _ & _
          & Href1 & _).
    rewrite (playSong_unfold_awaiting _ _ _ _ _ _ _ _ _ Hb), Hres.
    destruct (asking_state w (Player.resolve w c).2 st1)
      as (_ & _ & _ & _ & Ha2 & _).
    pose proof (asking_refs w (Player.resolve w c).2 st1) as Hrefs.
    cbv zeta in Ha2, Hrefs.
    assert (id <$> Player.currentSongRef
                     (Player.asking w (Player.resolve w c).2 st1)
            = Some (id c)) as Href2.
    { destruct (Player.rendered w (Player.resolve w c).2);
        destruct Hrefs as (-> & _); by rewrite ?Hsong1, ?Href1, ?Hc. }
    set (st2 := Player.asking w _ st1) in *. clearbody st2.
    eexists. split; [reflexivity|].
    destruct (commit_state w
                (Player.playSong_resume w c c (Player.isSameSong c st)
                   (Player.isDifferentQuality None st) appended
                   (Api.Fulfilled audioUrl) st2))
      as (_ & -> & -> & _ & -> & _).
    unfold Player.playSong_resume.
    rewrite bool_decide_eq_true_2 by done.
    cbn [negb]. rewrite Hnone. simpl. by rewrite Ha2, Ha1.
Qed.

Lemma togglePlay_starts_restored_song_witness :
  exists st' a',
    Player.dispatch Player.online 1 Player.EvTogglePlay
      {| Player.currentSong := Some Player.song_a; Player.isPlaying := false;
         Player.isLoading := false; Player.currentTime := 0%Q;
         Player.duration := 0%Q; Player.queue := [Player.song_a];
         Player.playMode := Player.sequence; Player.audioQuality := "320k";
         Player.audioRef := Some {| Player.src := ""; Player.a_currentTime := 0%Q;
                                    Player.a_duration := 0%Q; Player.paused := true;
                                    Player.crossOrigin := false |};
         Player.audioCtxRef := None; Player.audioCtxConnectedRef := false;
         Player.currentSongRef := Some Player.song_a;
         Player.queueRef := [Player.song_a];
         Player.playModeRef := Player.sequence; Player.audioQualityRef := "320k";
         Player.retryCountRef := 0; Player.effects := [Player.NewAudio false];
         Player.currentSongFresh := false; Player.isPlayingRendered := false |}
    = Some st'
    /\ Player.audioRef st' = Some a'
    /\ Player.src a' = "https://cdn/a".
Proof.
  destruct (togglePlay_starts_restored_song Player.online
              {| Player.currentSong := Some Player.song_a; Player.isPlaying := false;
                 Player.isLoading := false; Player.currentTime := 0%Q;
                 Player.duration := 0%Q; Player.queue := [Player.song_a];
                 Player.playMode := Player.sequence; Player.audioQuality := "320k";
                 Player.audioRef :=
                   Some {| Player.src := ""; Player.a_currentTime := 0%Q;
                           Player.a_duration := 0%Q; Player.paused := true;
                           Player.crossOrigin := false |};
                 Player.audioCtxRef := None; Player.audioCtxConnectedRef := false;
                 Player.currentSongRef := Some Player.song_a;
                 Player.queueRef := [Player.song_a];
                 Player.playModeRef := Player.sequence;
                 Player.audioQualityRef := "320k";
                 Player.retryCountRef := 0;
                 Player.effects := [Player.NewAudio false];
                 Player.currentSongFresh := false;
                 Player.isPlayingRendered := false |}
              {| Player.src := ""; Player.a_currentTime := 0%Q;
                 Player.a_duration := 0%Q; Player.paused := true;
                 Player.crossOrigin := false |}
              Player.song_a 0%nat eq_refl eq_refl eq_refl) as [Hplay _].
  destruct (Hplay "https://cdn/a" eq_refl) as (st' & a' & Hrun & Ha' & Hsrc & _).
  - discriminate.
  - exists st', a'. split; [exact Hrun|]. split; [exact Ha' | exact Hsrc].
Defined.

(** ** YouTube tracks *)

Section FormatFacts.
Import Api Youtube.

Lemma audio_among_Some formats audio :
  audio_among formats = Some audio ->
  audio `sublist_of` formats
  /\ Forall (fun f => is_audio f = Some true) audio.
Proof.
  revert audio. induction formats as [|f rest IH]; intros audio; simpl.
  - intros [= <-]. split; constructor.
  - destruct (is_audio f) as [[]|] eqn:E; [| |done].
    + destruct (audio_among rest) as [audio'|]; [|done].
      intros [= <-]. destruct (IH audio' eq_refl) as [Hsub Hall].
      split; by constructor.
    + intros H. destruct (IH audio H) as [Hsub Hall].
      split; [by constructor | done].
Qed.
End FormatFacts.

(** X26.  The address [getAudioUrl] of the YouTube client returns is read
    off the earliest of the audio formats of the highest quality tier (high
    over medium over low over unlabelled): its [url], or else the [url] of
    its [signatureCipher].  Only when that one format yields neither, or
    there is no audio format at all, does it fall back, and then to the
    first format of any kind that has a [url], not to the next audio
    format.  The second library call ([getTrackData]) is made only when the
    first ([getData]) gave nothing. *)
Theorem youtube_getAudioUrl_best lib videoId :
  let data := (Youtube.track_data lib videoId).1 in
  let calls := (Youtube.getAudioUrl (Some lib) videoId).2 in
  let result := (Youtube.getAudioUrl (Some lib) videoId).1 in
  (Youtube.CallGetTrackData videoId ∈ calls ->
   forall f v, Youtube.getData lib = Some f -> f videoId = Api.Fulfilled v ->
     Api.truthy v = false)
  /\ (Api.truthy data = false -> result = None)
  /\ forall formats audio,
       Api.truthy data = true ->
       Youtube.formats_of data = Some formats ->
       Youtube.audio_among formats = Some audio ->
       (audio = [] -> result = Youtube.first_url formats)
       /\ (audio <> [] ->
           exists k best,
             audio !! k = Some best
             /\ best ∈ formats
             /\ (forall s, s ∈ audio -> Youtube.tier s <= Youtube.tier best)
             /\ (forall j s, (j < k)%nat -> audio !! j = Some s ->
                   Youtube.tier s < Youtube.tier best)
             /\ result
                = if Api.truthy (Api.get "url" (Some best))
                  then Api.get "url" (Some best)
                  else if Api.truthy
                            (Api.get "url" (Api.get "signatureCipher" (Some best)))
                       then Api.get "url" (Api.get "signatureCipher" (Some best))
                       else Youtube.first_url formats).
Proof.
  cbv zeta. unfold Youtube.getAudioUrl.
  destruct (Youtube.track_data lib videoId) as [data calls] eqn:Htrack.
  cbn [fst snd]. split; [|split].
  - intros Hcall f v Hf Hv. unfold Youtube.track_data in Htrack.
    rewrite Hf, Hv in Htrack.
    destruct (Api.truthy v) eqn:Ht; [|done].
    injection Htrack as _ <-.
    apply list_elem_of_singleton in Hcall. discriminate Hcall.
  - by intros ->.
  - intros formats audio Hdata Hformats Haudio. rewrite Hdata. cbn [negb].
    unfold Youtube.audio_url_of. rewrite Hformats, Haudio.
    split.
    + intros ->. simpl. by destruct formats.
    + intros Hne.
      destruct (head (PipedData.sort_desc Youtube.tier audio)) as [best|] eqn:Hbest.
      2:{ by apply sort_desc_head_None in Hbest. }
      destruct (sort_desc_head _ _ _ Hbest) as (k & Hk & Hmax & Hfirst).
      exists k, best. split; [done|]. split.
      { apply audio_among_Some in Haudio as [Hsub _].
        eapply sublist_subseteq; [exact Hsub|].
        by eapply list_elem_of_lookup_2. }
      split; [done|]. split; [done|].
      assert (0 < length formats)%nat as Hlen.
      { apply audio_among_Some in Haudio as [Hsub _].
        apply sublist_length in Hsub. destruct audio; [done|]. simpl in Hsub. lia. }
      rewrite (bool_decide_eq_true_2 _ Hlen), andb_true_r.
      unfold Youtube.or_null, Api.or_else.
      destruct (Api.truthy (Api.get "url" (Some best))) eqn:Hu.
      * repeat (cbv iota; rewrite Hu). by cbn [negb].
      * cbv iota.
        destruct (Api.truthy (Api.get "url"
                                (Api.get "signatureCipher" (Some best)))) eqn:Hc.
        -- repeat (cbv iota; rewrite Hc). by cbn [negb].
        -- done.
Qed.

Lemma youtube_getAudioUrl_best_witness :
  (Youtube.getAudioUrl
     (Some {| Youtube.getData := Some (fun _ => Api.Fulfilled (Some Youtube.ciphered));
              Youtube.getTrackData := None |}) "abc").1
  = Some (Api.JStr "https://v/360p").
Proof.
  destruct (youtube_getAudioUrl_best
              {| Youtube.getData := Some (fun _ => Api.Fulfilled (Some Youtube.ciphered));
                 Youtube.getTrackData := None |} "abc") as (_ & _ & Hbest).
  destruct (Hbest
              [Api.JObj [("mimeType", Api.JStr "video/mp4");
                         ("url", Api.JStr "https://v/360p")];
               Api.JObj [("mimeType", Api.JStr "audio/webm");
                         ("audioQuality", Api.JStr "AUDIO_QUALITY_LOW");
                         ("url", Api.JStr "https://a/low")];
               Api.JObj [("mimeType", Api.JStr "audio/webm");
                         ("audioQuality", Api.JStr "AUDIO_QUALITY_MEDIUM")]]
              [Api.JObj [("mimeType", Api.JStr "audio/webm");
                         ("audioQuality", Api.JStr "AUDIO_QUALITY_LOW");
                         ("url", Api.JStr "https://a/low")];
               Api.JObj [("mimeType", Api.JStr "audio/webm");
                         ("audioQuality", Api.JStr "AUDIO_QUALITY_MEDIUM")]]
              eq_refl eq_refl eq_refl) as [_ Hsome].
  destruct Hsome as (k & best & Hk & _ & Hmax & _ & Hresult); [discriminate|].
  vm_compute. reflexivity.
Defined.

(** *** Every call settles *)

Section SettleFacts.
Import Player.

(** The toggle shortcut of [playSong] never calls [playSong] back: it is
    taken only for an element that has a source, and [togglePlay] hands
    over to [playSong] only for an element that has none. *)
Lemma playSong_begin_no_call w song forceQuality st c :
  (playSong_begin w song forceQuality st).2 <> Returned (Some c).
Proof.
  unfold playSong_begin. destruct (audioRef st) as [a|] eqn:Ha; [|done].
  destruct (already_loaded w song forceQuality st a) eqn:Hl; [|done].
  unfold already_loaded in Hl. apply andb_true_iff in Hl as [_ Hsrc].
  unfold togglePlay. rewrite Ha.
  destruct (currentSongRef st); [|done]. rewrite Hsrc. cbn [negb].
  by destruct (isPlaying (resume_ctx st)).
Qed.

Lemma playSong_total w fuel song forceQuality st :
  is_Some (playSong w (S fuel) song forceQuality st).
Proof.
  cbn [playSong].
  pose proof (playSong_begin_no_call w song forceQuality st) as Hno.
  destruct (playSong_begin w song forceQuality st) as [st1 [[c|]|full s d ap]];
    cbn [snd] in Hno.
  - by destruct (Hno c).
  - by eexists.
  - destruct (resolve w song). by eexists.
Qed.

Lemma finish_total w fuel r : is_Some (finish w (S fuel) r).
Proof.
  destruct r as [st [c|]]; unfold finish; [|by eexists].
  destruct (playSong_total w fuel (call_song c) (call_forceQuality c) st)
    as [st' ->].
  by eexists.
Qed.
End SettleFacts.

(** X27.  Every call settles.  [playSong] never calls itself back through
    its toggle shortcut, so a call completes after one resolution at most;
    and every event of the engine completes, the [ended] event included
    unless the queue is in shuffle mode (where the draw is repeated until
    it leaves the current song). *)
Theorem playSong_settles w fuel song forceQuality st :
  (forall c,
     (Player.playSong_begin w song forceQuality st).2
     <> Player.Returned (Some c))
  /\ is_Some (Player.playSong w (S fuel) song forceQuality st)
  /\ is_Some (Player.dispatch w (S fuel) Player.EvTogglePlay st)
  /\ (forall q, is_Some (Player.dispatch w (S fuel) (Player.EvSetAudioQuality q) st))
  /\ is_Some (Player.dispatch w (S fuel) Player.EvError st)
  /\ is_Some (Player.dispatch w (S fuel) Player.EvLoadedMetadata st)
  /\ (forall random,
        Player.playModeRef st <> Player.shuffle ->
        is_Some (Player.dispatch w (S fuel) (Player.EvEnded random) st)).
Proof.
  split; [intros c; apply playSong_begin_no_call|].
  split; [apply playSong_total|].
  split; [apply finish_total|].
  split; [intros q; apply finish_total|].
  split; [apply finish_total|].
  split; [by exists (Player.commit w (Player.handlers_loadedmetadata st))|].
  intros random Hmode. cbn [Player.dispatch]. unfold Player.handlers_ended.
  assert (is_Some (Player.playNext random (S fuel) false st)) as [r ->].
  { unfold Player.playNext. destruct (Player.queueRef st); [by exists (st, None)|].
    destruct (negb false && _); [by eexists (_, None)|].
    unfold Player.next_index.
    destruct (Player.playModeRef st); [by eexists (st, _) ..|done]. }
  cbn [mbind option_bind]. apply finish_total.
Qed.

(** ** Retry on playback error, round after round *)

Section RetryFacts.
Import Player.
Variable w : World.

(** The stream-URL requests in the log. *)
Let requests (st : Player) : list Effect := List.filter is_request (effects st).

Lemma requests_emit e st :
  requests (emit e st)
  = (requests st ++ if is_request e then [e] else [])%list.
Proof.
  unfold requests. cbn [emit effects]. rewrite List.filter_app. cbn [List.filter].
  by destruct (is_request e).
Qed.

Lemma requests_quiet e st : is_request e = false -> requests (emit e st) = requests st.
Proof. intros H. by rewrite requests_emit, H, app_nil_r. Qed.

Lemma requests_updateMediaSession song playing st :
  requests (updateMediaSession w song playing st) = requests st.
Proof.
  unfold updateMediaSession. destruct song; [|done].
  destruct (hasMediaSession w); [|done]. by apply requests_quiet.
Qed.

Lemma requests_commit st : requests (commit w st) = requests st.
Proof.
  unfold commit. destruct (_ || _); [|done]. by rewrite requests_updateMediaSession.
Qed.

Lemma requests_asking asked st :
  requests (asking w asked st) = (requests st ++ List.filter is_request asked)%list.
Proof.
  unfold asking. revert st. induction asked as [|e asked IH]; intros st;
    cbn [fold_left List.filter].
  - by rewrite app_nil_r.
  - rewrite IH. unfold ask.
    assert (requests (match answer_to w e with
                      | Some (Later _) => commit w (emit e st)
                      | _ => emit e st
                      end) = requests (emit e st)) as ->
      by (destruct (answer_to w e) as [[|r]|]; by rewrite ?requests_commit).
    rewrite requests_emit. destruct (is_request e); [|by rewrite app_nil_r].
    by rewrite <- app_assoc.
Qed.

Lemma resolve_asked_requests song :
  List.filter is_request (resolve w song).2 = (resolve w song).2.
Proof.
  unfold resolve. destruct (String.eqb _ _); [done|].
  destruct (settled (youtube_getAudioUrl w _)) as [u|]; [|done].
  by destruct (usable u).
Qed.

(** A resolution looks at the identifier and the source of the song only. *)
Lemma resolve_by_id (c c' : Song) :
  id c' = id c -> source c' = source c -> resolve w c' = resolve w c.
Proof. intros Hid Hsrc. unfold resolve. by rewrite Hid, Hsrc. Qed.

Lemma requests_resume_ctx st : requests (resume_ctx st) = requests st.
Proof.
  unfold resume_ctx. destruct (audioCtxRef st) as [[]|]; try done.
  by rewrite requests_quiet.
Qed.

Lemma requests_createAudioElement withCors st :
  requests (createAudioElement withCors st) = requests st.
Proof.
  unfold createAudioElement.
  rewrite requests_quiet by done.
  change (requests
            (match audioCtxRef (match audioRef st with
                                | Some _ => emit AudioPause st
                                | None => st
                                end) with
             | Some _ => emit CtxClose
                           (set_audioCtx None false
                              (match audioRef st with
                               | Some _ => emit AudioPause st
                               | None => st
                               end))
             | None => match audioRef st with
                       | Some _ => emit AudioPause st
                       | None => st
                       end
             end) = requests st).
  assert (requests (match audioRef st with
                    | Some _ => emit AudioPause st
                    | None => st
                    end) = requests st) as Hold
    by (destruct (audioRef st); [by rewrite requests_quiet | done]).
  destruct (audioCtxRef _); [|done].
  rewrite requests_quiet by done. exact Hold.
Qed.

Lemma requests_initAudioContext st : requests (initAudioContext w st) = requests st.
Proof.
  unfold initAudioContext. destruct (isIOS w); [done|].
  destruct (audioCtxRef st); [done|]. destruct (audioRef st); [|done].
  destruct (webAudio w); [|done]. by rewrite requests_quiet.
Qed.

Lemma requests_settle_play fullSong st :
  requests (settle_play w fullSong st) = requests st.
Proof.
  unfold settle_play. destruct (playStart w); try done.
  apply requests_updateMediaSession.
Qed.

(** Nothing after the first [await] asks for a stream URL. *)
Lemma playSong_resume_requests song fullSong same different appended resolved st :
  requests (playSong_resume w song fullSong same different appended resolved st)
  = requests st.
Proof.
  unfold playSong_resume.
  destruct resolved as [audioUrl|]; [|done].
  destruct (negb _); [done|].
  destruct (usable audioUrl) as [u|]; [|done].
  destruct (if same && different then _ else _) as [resumeTime|]; [|done].
  set (st1 := write_url u fullSong appended st).
  assert (requests st1 = requests st) as <- by done.
  set (st2 := if negb (audioCtxConnectedRef st1)
              then createAudioElement true st1 else st1).
  assert (requests st2 = requests st1) as <-.
  { unfold st2. destruct (negb _); [apply requests_createAudioElement | done]. }
  rewrite <- (requests_initAudioContext st2).
  generalize (initAudioContext w st2). intros st3.
  destruct (audioRef st3); [|done].
  rewrite requests_settle_play, requests_quiet by done.
  change (requests (resume_ctx
            (if negb (Qle_bool resumeTime 0)
             then with_audio (audio_seek resumeTime)
                    (emit (AudioLoad u) (with_audio (audio_load u) st3))
             else emit (AudioLoad u) (with_audio (audio_load u) st3)))
          = requests st3).
  rewrite requests_resume_ctx.
  destruct (negb (Qle_bool resumeTime 0)); unfold requests; simpl;
    rewrite List.filter_app; simpl; by rewrite app_nil_r.
Qed.

Lemma playSong_resume_audioQuality song fullSong same different appended resolved st :
  audioQuality (playSong_resume w song fullSong same different appended resolved st)
  = audioQuality st.
Proof.
  apply (inv_playSong_resume w (fun s => audioQuality s = audioQuality st));
    try (intros; done).
  - intros s. unfold resume_ctx. by destruct (audioCtxRef s) as [[]|].
  - intros b s. unfold createAudioElement.
    destruct (audioRef s); simpl; by destruct (audioCtxRef s).
  - intros s. unfold initAudioContext.
    destruct (isIOS w); [done|].
    destruct (audioCtxRef s); [done|].
    destruct (audioRef s); [|done]. by destruct (webAudio w).
Qed.

(** The retry: a call with a forced quality for the song that is current.
    It goes through to the resolution, gets past the guard, and leaves the
    song current, the element in place, the quality setting and the retry
    counter as they were. *)
Lemma playSong_retry fuel c q st a :
  forced (Some q) = true ->
  audioRef st = Some a ->
  currentSongRef st = Some c ->
  exists st' c' a',
    playSong w (S fuel) c (Some q) st = Some st'
    /\ retryCountRef st' = retryCountRef st
    /\ currentSong st' = Some c'
    /\ id c' = id c /\ source c' = source c
    /\ audioRef st' = Some a'
    /\ audioQuality st' = audioQuality st
    /\ requests st' = (requests st ++ (resolve w c).2)%list.
Proof.
  intros Hq Ha Hc.
  pose proof (forced_not_already_loaded w c q st a Hq) as Hfresh.
  destruct (playSong_begin_awaiting w c (Some q) st a Ha Hfresh)
    as (st1 & appended & Hb & Ha1 & _ & _ & Hsong1 & _ & Hquality1 & He1
        & _ & _ & Href1 & Hretry1).
  rewrite Hq in Hretry1.
  rewrite (playSong_unfold_awaiting _ _ _ _ _ _ _ _ _ Hb).
  destruct (asking_state w (resolve w c).2 st1)
    as (Hc2 & _ & _ & _ & Ha2 & _ & _ & Hquality2 & _ & Hretry2).
  pose proof (asking_refs w (resolve w c).2 st1) as Hrefs.
  pose proof (requests_asking (resolve w c).2 st1) as Hreq2.
  rewrite resolve_asked_requests in Hreq2.
  cbv zeta in *.
  assert (id <$> currentSongRef (asking w (resolve w c).2 st1) = Some (id c))
    as Href2.
  { destruct (rendered w (resolve w c).2);
      destruct Hrefs as (-> & _); by rewrite ?Hsong1, ?Href1, ?Hc. }
  clear Hrefs.
  set (st2 := asking w (resolve w c).2 st1) in *. clearbody st2.
  set (same := isSameSong c st). set (different := isDifferentQuality (Some q) st).
  pose proof (playSong_resume_retryCount w c c same different appended
                (resolve w c).1 st2) as Hretry3.
  pose proof (playSong_resume_requests c c same different appended
                (resolve w c).1 st2) as Hreq3.
  pose proof (playSong_resume_audioQuality c c same different appended
                (resolve w c).1 st2) as Hquality3.
  assert (requests st1 = requests st) as Hreq1
    by (unfold requests; by rewrite He1).
  assert (exists c' a',
            currentSong (playSong_resume w c c same different appended
                           (resolve w c).1 st2) = Some c'
            /\ id c' = id c /\ source c' = source c
            /\ audioRef (playSong_resume w c c same different appended
                           (resolve w c).1 st2) = Some a')
    as (c' & a' & Hc3 & Hid & Hsrc & Ha3).
  { destruct (resolve w c).1 as [audioUrl|].
    - destruct (usable audioUrl) as [u|] eqn:Hu.
      + assert (audioUrl = Some u /\ u <> "") as [-> Hne].
        { unfold usable in Hu. destruct audioUrl as [x|]; [|done].
          destruct (String.eqb_spec x ""); [done|]. by injection Hu as <-. }
        destruct (playSong_resume_resolved w c c same different appended u st2 a
                    Hne) as (a' & Ha' & _ & _ & Hcs & _); [congruence..|].
        by exists (with_url u c), a'.
      + exists c, a. unfold playSong_resume.
        rewrite bool_decide_eq_true_2 by done. cbn [negb]. rewrite Hu.
        simpl. repeat split; congruence.
    - exists c, a. simpl. repeat split; congruence. }
  eexists _, c', a'. split; [reflexivity|].
  repeat split; try done; congruence.
Qed.
End RetryFacts.

Section RoundFacts.
Import Player.
Variable w : World.

(** One round: an error, answered by the retry at [128k], and the
    [loadedmetadata] of the stream the retry has loaded. *)
Lemma retry_round fuel st c a :
  currentSongRef st = Some c ->
  audioRef st = Some a ->
  audioQuality st <> "128k" ->
  audioQualityRef st <> "128k" ->
  retryCountRef st = 0 ->
  exists st1 st2 c' a',
    handlers_error st
    = (set_retryCountRef 1 st, Some (CallPlaySong c (Some "128k")))
    /\ dispatch w (S fuel) EvError st = Some st1
    /\ retryCountRef st1 = 1
    /\ dispatch w (S fuel) EvLoadedMetadata st1 = Some st2
    /\ currentSongRef st2 = Some c' /\ id c' = id c /\ source c' = source c
    /\ audioRef st2 = Some a'
    /\ audioQuality st2 = audioQuality st
    /\ audioQualityRef st2 = audioQuality st
    /\ retryCountRef st2 = 0
    /\ List.filter is_request (effects st2)
       = (List.filter is_request (effects st) ++ (resolve w c).2)%list.
Proof.
  intros Hc Ha Hq Hqr Hr.
  assert (handlers_error st
          = (set_retryCountRef 1 st, Some (CallPlaySong c (Some "128k")))) as Herr.
  { unfold handlers_error. rewrite Hc, Hr.
    apply String.eqb_neq in Hqr. by rewrite Hqr. }
  destruct (playSong_retry w fuel c "128k" (set_retryCountRef 1 st) a
              eq_refl Ha Hc)
    as (st0 & c' & a' & Hrun & Hcount & Hsong & Hid & Hsrc & Haudio & Hquality
        & Hreq).
  destruct (commit_state w st0) as (Hc1 & _ & _ & _ & Ha1 & _ & _ & Hq1 & _ & Hr1).
  pose proof (requests_commit w st0) as Hreq1. cbv zeta in *.
  set (st1 := commit w st0) in *.
  set (st1' := handlers_loadedmetadata st1).
  destruct (commit_state w st1') as (Hc2 & _ & _ & _ & Ha2 & _ & _ & Hq2 & _ & Hr2).
  destruct (commit_refs w st1') as (Href2 & _ & _ & Hqr2 & _).
  pose proof (requests_commit w st1') as Hreq2. cbv zeta in *.
  exists st1, (commit w st1'), c', a'.
  split; [done|]. split.
  { unfold dispatch, finish. rewrite Herr.
    cbv beta iota delta [call_song call_forceQuality].
    unfold AudioQuality in *. by rewrite Hrun. }
  split; [by rewrite Hr1, Hcount|]. split; [done|].
  rewrite Href2, Ha2, Hq2, Hqr2, Hr2, Hreq2. unfold st1'.
  cbn [handlers_loadedmetadata set_retryCountRef set_isLoading set_duration
       currentSong audioRef audioQuality retryCountRef effects].
  rewrite Hc1, Ha1, Hq1, Hreq1, Hreq. repeat split; try done.
Qed.
End RoundFacts.

(** C2, where the code departs from it.  A playback error while the
    quality setting is not [128k] and the retry counter is 0 re-invokes
    [playSong] at [128k]; the [loadedmetadata] of the stream that call
    loads sets the counter back to 0, so the next error on the same song
    counts as a first one again.  Round after round of error and
    [loadedmetadata], every error makes another retry: after [n] rounds the
    engine has resolved the stream [n] times over, and a further error
    calls [playSong] at [128k] once more. *)
Theorem error_retry_repeats w fuel n st c a :
  Player.currentSongRef st = Some c ->
  Player.audioRef st = Some a ->
  Player.audioQuality st <> "128k" ->
  Player.audioQualityRef st <> "128k" ->
  Player.retryCountRef st = 0 ->
  exists st' c',
    Player.run w (S fuel)
      (concat (replicate n [Player.EvError; Player.EvLoadedMetadata])) st
    = Some st'
    /\ List.filter Player.is_request (Player.effects st')
       = (List.filter Player.is_request (Player.effects st)
          ++ concat (replicate n (Player.resolve w c).2))%list
    /\ Player.currentSongRef st' = Some c'
    /\ id c' = id c
    /\ Player.retryCountRef st' = 0
    /\ Player.handlers_error st'
       = (Player.set_retryCountRef 1 st',
          Some (Player.CallPlaySong c' (Some "128k"))).
Proof.
  revert st c a. induction n as [|n IH]; intros st c a Hc Ha Hq Hqr Hr.
  - exists st, c. cbn [replicate concat Player.run]. rewrite app_nil_r.
    split; [done|]. split; [done|]. split; [done|]. split; [done|].
    split; [done|].
    unfold Player.handlers_error. rewrite Hc, Hr.
    apply String.eqb_neq in Hqr. by rewrite Hqr.
  - destruct (retry_round w fuel st c a Hc Ha Hq Hqr Hr)
      as (st1 & st2 & c' & a' & _ & Herr & _ & Hmeta & Hc2 & Hid & Hsrc & Ha2
          & Hq2 & Hqr2 & Hr2 & Hreq2).
    destruct (IH st2 c' a' Hc2 Ha2) as (st' & c'' & Hrun & Hreq & Hc' & Hid' & Hr' & Herr');
      [congruence | congruence | done |].
    exists st', c''.
    cbn [replicate concat app Player.run]. rewrite Herr.
    cbn [mbind option_bind]. rewrite Hmeta. cbn [mbind option_bind].
    split; [exact Hrun|]. split.
    { rewrite Hreq, Hreq2, (resolve_by_id w c c' Hid Hsrc), <- app_assoc. done. }
    split; [done|]. split; [congruence|]. done.
Qed.

Lemma error_retry_repeats_witness :
  exists st',
    Player.run Player.online 1
      [Player.EvError; Player.EvLoadedMetadata;
       Player.EvError; Player.EvLoadedMetadata;
       Player.EvError; Player.EvLoadedMetadata]
      (Player.playing Player.song_a [Player.song_a; Player.song_b] Player.sequence)
    = Some st'
    /\ List.filter Player.is_request (Player.effects st')
       = [Player.ResolveYoutube "a"; Player.ResolveYoutube "a";
          Player.ResolveYoutube "a"]
    /\ Player.isPlaying st' = true
    /\ (Player.handlers_error st').2
       = Some (Player.CallPlaySong
                 (Player.with_url "https://cdn/a" Player.song_a) (Some "128k")).
Proof.
  destruct (error_retry_repeats Player.online 0 3
              (Player.playing Player.song_a [Player.song_a; Player.song_b]
                 Player.sequence)
              Player.song_a
              {| Player.src := "https://cdn/current"; Player.a_currentTime := 42%Q;
                 Player.a_duration := 180%Q; Player.paused := false;
                 Player.crossOrigin := true |}
              eq_refl eq_refl)
    as (st' & c' & Hrun & Hreq & _).
  - discriminate.
  - discriminate.
  - reflexivity.
  - exists st'. split; [exact Hrun|]. split; [exact Hreq|].
    vm_compute in Hrun. injection Hrun as <-. split; reflexivity.
Defined.

(** X29.  The retry and what stops it.  A playback error on a current
    song, while the quality setting is not [128k] and the retry counter is
    0, makes one call of [playSong] for that song at [128k] and sets the
    counter to 1; the call leaves the counter at 1, so an error that
    follows it directly makes no further call and asks for no stream URL:
    it sets [isPlaying] and [isLoading] to false and the counter to 0.  So
    does an error while the quality setting is [128k], or while the counter
    is not 0, or without a current song.  The [loadedmetadata] handler sets
    the counter to 0. *)
Theorem error_retry_then_stop w st :
  (forall c,
      Player.currentSongRef st = Some c ->
      Player.audioQualityRef st <> "128k" ->
      Player.retryCountRef st = 0 ->
      Player.handlers_error st
      = (Player.set_retryCountRef 1 st, Some (Player.CallPlaySong c (Some "128k")))
      /\ forall fuel,
           exists st1,
             Player.dispatch w (S fuel) Player.EvError st = Some st1
             /\ Player.retryCountRef st1 = 1
             /\ (Player.handlers_error st1).2 = None
             /\ exists st2,
                  Player.dispatch w (S fuel) Player.EvError st1 = Some st2
                  /\ Player.isPlaying st2 = false
                  /\ Player.isLoading st2 = false
                  /\ Player.retryCountRef st2 = 0
                  /\ List.filter Player.is_request (Player.effects st2)
                     = List.filter Player.is_request (Player.effects st1))
  /\ (Player.audioQualityRef st = "128k" \/ Player.retryCountRef st <> 0
      \/ Player.currentSongRef st = None ->
      exists st',
        Player.handlers_error st = (st', None)
        /\ Player.isPlaying st' = false
        /\ Player.isLoading st' = false
        /\ Player.retryCountRef st' = 0
        /\ Player.effects st' = Player.effects st)
  /\ Player.retryCountRef (Player.handlers_loadedmetadata st) = 0.
Proof.
  assert (forall s, Player.retryCountRef s <> 0 ->
            exists s', Player.handlers_error s = (s', None)
                       /\ Player.isPlaying s' = false
                       /\ Player.isLoading s' = false
                       /\ Player.retryCountRef s' = 0
                       /\ Player.effects s' = Player.effects s) as Hstop.
  { intros s Hs. unfold Player.handlers_error.
    apply Z.eqb_neq in Hs. rewrite Hs, andb_false_r.
    destruct (Player.currentSongRef s); eexists; repeat split. }
  split; [|split; [|done]].
  - intros c Hc Hq Hr.
    assert (Player.handlers_error st
            = (Player.set_retryCountRef 1 st,
               Some (Player.CallPlaySong c (Some "128k")))) as Herr.
    { unfold Player.handlers_error. rewrite Hc, Hr.
      apply String.eqb_neq in Hq. by rewrite Hq. }
    split; [done|]. intros fuel.
    destruct (playSong_forced_retryCount w fuel c "128k"
                (Player.set_retryCountRef 1 st) eq_refl) as (st1 & Hrun & Hcount).
    destruct (commit_state w st1) as (_ & _ & _ & _ & _ & _ & _ & _ & _ & Hr1).
    cbv zeta in Hr1.
    exists (Player.commit w st1). split.
    { unfold Player.dispatch, Player.finish. rewrite Herr.
      cbv beta iota delta [Player.call_song Player.call_forceQuality].
      unfold Player.AudioQuality in *. by rewrite Hrun. }
    split; [by rewrite Hr1, Hcount|].
    destruct (Hstop (Player.commit w st1)) as (st2 & Herr2 & Hp2 & Hl2 & Hr2 & He2).
    { rewrite Hr1, Hcount. done. }
    split; [by rewrite Herr2|].
    exists (Player.commit w st2). split.
    { unfold Player.dispatch, Player.finish. by rewrite Herr2. }
    destruct (commit_state w st2) as (_ & -> & -> & _ & _ & _ & _ & _ & _ & ->).
    rewrite (requests_commit w st2), He2. done.
  - intros [Hq|[Hr|Hc]].
    + unfold Player.handlers_error. rewrite Hq. simpl.
      destruct (Player.currentSongRef st); eexists; repeat split.
    + by apply Hstop.
    + unfold Player.handlers_error. rewrite Hc. eexists. repeat split.
Qed.

Lemma error_retry_then_stop_witness :
  Player.handlers_error
    (Player.playing Player.song_a [Player.song_a; Player.song_b] Player.sequence)
  = (Player.set_retryCountRef 1
       (Player.playing Player.song_a [Player.song_a; Player.song_b]
          Player.sequence),
     Some (Player.CallPlaySong Player.song_a (Some "128k"))).
Proof.
  destruct (error_retry_then_stop Player.online
              (Player.playing Player.song_a [Player.song_a; Player.song_b]
                 Player.sequence)) as (Hretry & _).
  refine (proj1 (Hretry Player.song_a eq_refl _ eq_refl)).
  discriminate.
Defined.
